(** * Grouped GEMM forward kernels (dev/triton_groupGEMM/clean/mg/forward_group_gemm.py)

    A shallow embedding of the two Triton kernels [_kernel_grouped_gemm] and
    [_kernel_grouped_gemm_fp8_rowwise] and of the host entry point
    [_grouped_gemm], and of the set-up and the reference computation of
    [test_backward_pass] (dev/triton_groupGEMM/clean/fast_debug.py),
    followed by the properties established about them.

    Modelling conventions.
    - Group sizes, row indices and tile counters are carried out in [Z]; they
      are exact for fewer than [2^31] rows and tiles.  The element offsets a
      kernel forms on 32-bit values, the products [row * N] and [row * K]
      of the manual loads and stores and of the base of the output
      descriptor, wrap around ([wrap32]); what is then added to a pointer
      is added in 64 bits.  The coordinates handed to a bulk descriptor are
      rows and columns and do not wrap.  [//] and [%] are only ever applied
      to non-negative operands, where they agree with [Z.div] and
      [Z.modulo].
    - Element values are integers: the float32 accumulation and the final
      conversion to the output element type are taken to be exact.
    - A tensor's storage is a function from element offsets to values; a
      2-D block of registers is a function of the two lane indices.
    - The programs of one launch write the output one after the other in
      program-id order.
    - A launch is asynchronous and the entry point returns without
      synchronising: the returned tensor is described by the contents it
      has once the kernel has run, and a launch whose kernel never finishes
      is a call whose result is never available.
    - [M_BUCKET] is an autotuning key that neither kernel body reads; it is
      left out of the argument record. *)

From Stdlib Require Import ZArith List Lia Bool Permutation.

Import ListNotations.

Open Scope Z_scope.

(** ** Language primitives *)

Definition mem := Z -> Z.

Definition block := Z -> Z -> Z.

(** The value of an expression on signed 32-bit integers: the exact value
    brought into [[-2^31, 2^31)]. *)
Definition wrap32 (x : Z) : Z := (x + 2147483648) mod 4294967296 - 2147483648.

(** [tl.cdiv(x, div)] is [(x + div - 1) // div]. *)
Definition cdiv (x d : Z) : Z := (x + d - 1) / d.

(** [tl.arange(0, n)] / the lanes of one block dimension. *)
Definition arange (n : Z) : list Z := map Z.of_nat (seq 0 (Z.to_nat n)).

(** [range(start, stop, step)] for a positive [step]. *)
Definition range_len (start stop step : Z) : nat :=
  Z.to_nat ((stop - start + step - 1) / step).

Definition range3 (start stop step : Z) : list Z :=
  map (fun i => start + Z.of_nat i * step) (seq 0 (range_len start stop step)).

(** Sum of [f 0 .. f (n-1)]. *)
Fixpoint sum_to (n : nat) (f : Z -> Z) : Z :=
  match n with
  | O => 0
  | S n' => sum_to n' f + f (Z.of_nat n')
  end.

(** [tl.zeros((BLOCK_SIZE_M, BLOCK_SIZE_N))]. *)
Definition tl_zeros : block := fun _ _ => 0.

(** [tl.dot(a, b.T)] for [a : [BM, BK]] and [b : [BN, BK]]. *)
Definition tl_dot_T (BK : Z) (a b : block) : block :=
  fun i j => sum_to (Z.to_nat BK) (fun kk => a i kk * b j kk).

(** [accumulator += d]. *)
Definition block_add (acc d : block) : block := fun i j => acc i j + d i j.

(** [ptrs += delta]. *)
Definition ptr_add (ptrs : block) (delta : Z) : block := fun i j => ptrs i j + delta.

(** [tl.load(ptrs, mask=mask, other=other)].  A lane whose mask is false is
    not read; it yields [other] when one is given and is left unspecified
    otherwise.  [undef] stands for whatever such a lane holds. *)
Definition tl_load (m : mem) (undef : Z -> Z) (ptrs : block)
    (mask : Z -> Z -> bool) (other : option Z) : block :=
  fun i j =>
    if mask i j then m (ptrs i j)
    else match other with Some v => v | None => undef (ptrs i j) end.

(** A store is the list of (offset, value) pairs it writes, in lane order. *)
Definition writes := list (Z * Z).

Definition upd (m : mem) (a v : Z) : mem := fun x => if x =? a then v else m x.

Definition write_all (ws : writes) (m : mem) : mem :=
  fold_left (fun m' w => upd m' (fst w) (snd w)) ws m.

(** [tl.store(ptrs, vals, mask=mask)] over a [BM x BN] block. *)
Definition tl_store (BM BN : Z) (ptrs vals : block) (mask : Z -> Z -> bool) : writes :=
  flat_map (fun i =>
    flat_map (fun j => if mask i j then [(ptrs i j, vals i j)] else [])
             (arange BN))
    (arange BM).

(** ** Bulk-transfer (TMA) descriptors *)

(** Modelled from the spec: the host helper [tma_utils.TmaAutoTuneHelper] is
    not part of the sources.  A descriptor filled by
    [fill_2d_tma_descriptor(name, ptr, rows, cols, ...)] is bound to the
    tensor's base address and its extent; [desc_mem] is the storage seen from
    that base address.  The manual path uses the same kernel argument as a
    plain pointer to that storage. *)
Record tma_desc := {
  desc_mem : mem;
  desc_rows : Z;
  desc_cols : Z
}.

(** [tl._experimental_descriptor_load(desc, [r0, c0], [BR, BC], dtype)]:
    element [(i, j)] of the box is tensor element [(r0+i, c0+j)]; coordinates
    outside the descriptor's extent are filled with zero by the hardware. *)
Definition descriptor_load (d : tma_desc) (r0 c0 : Z) : block :=
  fun i j =>
    let r := r0 + i in
    let c := c0 + j in
    if (0 <=? r) && (r <? desc_rows d) && (0 <=? c) && (c <? desc_cols d)
    then desc_mem d (r * desc_cols d + c)
    else 0.

(** The output descriptor built on the device by
    [experimental_device_tensormap_create2d]: [global_address] is an element
    offset into the output buffer, [global_size = [rows, cols]]. *)
Record out_desc := {
  global_address : Z;
  global_rows : Z;
  global_cols : Z
}.

Definition tensormap_create2d (addr rows cols : Z) : out_desc :=
  {| global_address := addr; global_rows := rows; global_cols := cols |}.

(** [tl._experimental_descriptor_store(desc, vals, [r0, c0])] of a
    [BM x BN] box: the part of the box outside the descriptor's extent is
    dropped by the hardware. *)
Definition descriptor_store (BM BN : Z) (d : out_desc) (vals : block) (r0 c0 : Z) : writes :=
  flat_map (fun i =>
    flat_map (fun j =>
      let r := r0 + i in
      let c := c0 + j in
      if (0 <=? r) && (r <? global_rows d) && (0 <=? c) && (c <? global_cols d)
      then [(global_address d + r * global_cols d + c, vals i j)]
      else [])
      (arange BN))
    (arange BM).

(** ** Kernel arguments and state *)

Record kernel_args := {
  a_desc_ptr : tma_desc;        (* x: descriptor, or pointer to its storage *)
  a_scale_ptr : mem;            (* fp8 kernel only *)
  b_desc_ptr : tma_desc;        (* w: descriptor, or pointer to its storage *)
  b_scale_ptr : mem;            (* fp8 kernel only *)
  workspace : Z -> out_desc;    (* one descriptor slot per program id *)
  m_sizes : list Z;
  G : nat;
  N : Z;
  K : Z;
  NUM_SMS : Z;
  USE_TMA_LOAD : bool;
  USE_TMA_STORE : bool;
  BLOCK_SIZE_M : Z;
  BLOCK_SIZE_N : Z;
  BLOCK_SIZE_K : Z;
  undef : Z -> Z                (* contents of unspecified load lanes *)
}.

(** One visited tile: group, the group's first output row, and the tile's
    local row/column tile indices. *)
Record tile := {
  t_group : nat;
  t_row_offset : Z;
  t_m_idx : Z;
  t_n_idx : Z
}.

(** The output buffer behind [c_ptr], the program's descriptor slot
    [c_desc_ptr], and the log of tiles computed and stored so far. *)
Record kstate := {
  c_mem : mem;
  c_desc : out_desc;
  visited : list tile
}.

(** ** The reduction over K (shared by both kernels) *)

(** Bulk path, lines 97-118 / 250-271: one descriptor load of [a] and of [b]
    per reduction step. *)
Definition acc_tma (p : kernel_args) (m_offset n_offset : Z) : block :=
  fold_left
    (fun accumulator k_offset =>
       let a := descriptor_load (a_desc_ptr p) m_offset k_offset in
       let b := descriptor_load (b_desc_ptr p) n_offset k_offset in
       block_add accumulator (tl_dot_T (BLOCK_SIZE_K p) a b))
    (range3 0 (K p) (BLOCK_SIZE_K p))
    tl_zeros.

(** Manual path, lines 121-143 / 274-296: masked pointer loads, the pointer
    blocks advanced by [BLOCK_SIZE_K] after every step.  The row offsets
    [(M_start_offset + offs_am) * K] and [offs_bn * K] are products of
    32-bit values. *)
Definition acc_manual (p : kernel_args)
    (M_start_offset m_size n_size tile_m_idx tile_n_idx : Z) : block :=
  let offs_am := fun i => tile_m_idx * BLOCK_SIZE_M p + i in
  let offs_bn := fun j => tile_n_idx * BLOCK_SIZE_N p + j in
  let offs_k := fun k : Z => k in
  let a_ptrs0 : block :=
    fun i k => wrap32 ((M_start_offset + offs_am i) * K p) + offs_k k in
  let b_ptrs0 : block := fun j k => wrap32 (offs_bn j * K p) + offs_k k in
  fst (fold_left
    (fun (s : block * (block * block)) (_ : Z) =>
       let '(accumulator, (a_ptrs, b_ptrs)) := s in
       let a := tl_load (desc_mem (a_desc_ptr p)) (undef p) a_ptrs
                        (fun i _ => offs_am i <? m_size) None in
       let b := tl_load (desc_mem (b_desc_ptr p)) (undef p) b_ptrs
                        (fun j _ => offs_bn j <? n_size) None in
       (block_add accumulator (tl_dot_T (BLOCK_SIZE_K p) a b),
        (ptr_add a_ptrs (BLOCK_SIZE_K p), ptr_add b_ptrs (BLOCK_SIZE_K p))))
    (range3 0 (K p) (BLOCK_SIZE_K p))
    (tl_zeros, (a_ptrs0, b_ptrs0))).

Definition accumulate (p : kernel_args)
    (M_start_offset m_size n_size tile_m_idx tile_n_idx : Z) : block :=
  if USE_TMA_LOAD p then
    let m_offset := M_start_offset + tile_m_idx * BLOCK_SIZE_M p in
    let n_offset := tile_n_idx * BLOCK_SIZE_N p in
    acc_tma p m_offset n_offset
  else
    acc_manual p M_start_offset m_size n_size tile_m_idx tile_n_idx.

(** The store of one tile, lines 146-169 / 316-334.  On the manual path the
    row offset [(M_start_offset + offs_am) * N] is a product of 32-bit
    values. *)
Definition store_mask (p : kernel_args) (m_size n_size tile_m_idx tile_n_idx : Z)
    : Z -> Z -> bool :=
  let offs_am := fun i => tile_m_idx * BLOCK_SIZE_M p + i in
  let offs_bn := fun j => tile_n_idx * BLOCK_SIZE_N p + j in
  fun i j => (offs_am i <? m_size) && (offs_bn j <? n_size).

Definition store_tile (p : kernel_args) (c_desc_ptr : out_desc)
    (M_start_offset m_size n_size tile_m_idx tile_n_idx : Z) (c : block) : writes :=
  if USE_TMA_STORE p then
    let m_offset := tile_m_idx * BLOCK_SIZE_M p in
    let n_offset := tile_n_idx * BLOCK_SIZE_N p in
    descriptor_store (BLOCK_SIZE_M p) (BLOCK_SIZE_N p) c_desc_ptr c m_offset n_offset
  else
    let offs_am := fun i => tile_m_idx * BLOCK_SIZE_M p + i in
    let offs_bn := fun j => tile_n_idx * BLOCK_SIZE_N p + j in
    tl_store (BLOCK_SIZE_M p) (BLOCK_SIZE_N p)
      (fun i j => wrap32 ((M_start_offset + offs_am i) * N p) + offs_bn j)
      c
      (store_mask p m_size n_size tile_m_idx tile_n_idx).

(** ** [_kernel_grouped_gemm] *)

(** Casting the result block and storing it, lines 145-169 / 315-334; the
    tile is entered in the log. *)
Definition commit_tile (p : kernel_args) (g : nat)
    (M_start_offset m_size n_size tile_m_idx tile_n_idx : Z) (c : block) (st : kstate) : kstate :=
  {| c_mem := write_all
       (store_tile p (c_desc st) M_start_offset m_size n_size tile_m_idx tile_n_idx c)
       (c_mem st);
     c_desc := c_desc st;
     visited := visited st ++
       [{| t_group := g; t_row_offset := M_start_offset;
           t_m_idx := tile_m_idx; t_n_idx := tile_n_idx |}] |}.

(** Body of the grid-strided loop, lines 88-169. *)
Definition plain_tile (p : kernel_args) (g : nat)
    (M_start_offset m_size n_size num_m_tiles : Z) (st : kstate) (tile_idx : Z) : kstate :=
  let tile_m_idx := tile_idx mod num_m_tiles in
  let tile_n_idx := tile_idx / num_m_tiles in
  let accumulator := accumulate p M_start_offset m_size n_size tile_m_idx tile_n_idx in
  let c := accumulator in
  commit_tile p g M_start_offset m_size n_size tile_m_idx tile_n_idx c st.

Definition set_desc (st : kstate) (d : out_desc) : kstate :=
  {| c_mem := c_mem st; c_desc := d; visited := visited st |}.

(** Body of the loop over groups, lines 57-169; the loop state is
    [M_end_offset] and the kernel state.  The base [M_start_offset * N] of
    the output descriptor is a product of 32-bit values. *)
Definition plain_group (p : kernel_args) (pid num_pid : Z)
    (s : Z * kstate) (g : nat) : Z * kstate :=
  let '(M_end_offset, st) := s in
  let M_start_offset := M_end_offset in
  let m_size := nth g (m_sizes p) 0 in
  let M_end_offset := M_start_offset + m_size in
  if m_size >? 0 then
    let n_size := N p in
    let num_m_tiles := cdiv m_size (BLOCK_SIZE_M p) in
    let num_n_tiles := cdiv n_size (BLOCK_SIZE_N p) in
    let num_tiles := num_m_tiles * num_n_tiles in
    let st :=
      if USE_TMA_STORE p
      then set_desc st (tensormap_create2d (wrap32 (M_start_offset * N p)) m_size n_size)
      else st in
    (M_end_offset,
     fold_left (plain_tile p g M_start_offset m_size n_size num_m_tiles)
               (range3 pid num_tiles num_pid) st)
  else (M_end_offset, st).

(** One program of the plain kernel: [pid = tl.program_id(0)],
    [num_pid = tl.num_programs(0)]. *)
Definition _kernel_grouped_gemm (p : kernel_args) (pid num_pid : Z) (st : kstate) : kstate :=
  let st := if USE_TMA_STORE p then set_desc st (workspace p pid) else st in
  snd (fold_left (plain_group p pid num_pid) (seq 0 (G p)) (0, st)).

(** ** [_kernel_grouped_gemm_fp8_rowwise] *)

(** The rescaled result block, lines 298-313: both scale loads are masked
    with [other=0.0]. *)
Definition scaled (p : kernel_args) (accumulator : block)
    (M_start_offset m_size n_size tile_m_idx tile_n_idx : Z) : block :=
  let offs_am := fun i => tile_m_idx * BLOCK_SIZE_M p + i in
  let offs_bn := fun j => tile_n_idx * BLOCK_SIZE_N p + j in
  let a_scale :=
    tl_load (a_scale_ptr p) (undef p) (fun i _ => M_start_offset + offs_am i)
            (fun i _ => offs_am i <? m_size) (Some 0) in
  let b_scale :=
    tl_load (b_scale_ptr p) (undef p) (fun j _ => offs_bn j)
            (fun j _ => offs_bn j <? n_size) (Some 0) in
  fun i j => accumulator i j * a_scale i 0 * b_scale j 0.

(** Body of the [while] loop up to the store, lines 240-334. *)
Definition fp8_tile (p : kernel_args) (g : nat)
    (M_start_offset m_size n_size num_m_tiles : Z) (st : kstate) (gidx : Z) : kstate :=
  let tile_m_idx := gidx mod num_m_tiles in
  let tile_n_idx := gidx / num_m_tiles in
  let accumulator := accumulate p M_start_offset m_size n_size tile_m_idx tile_n_idx in
  let c := scaled p accumulator M_start_offset m_size n_size tile_m_idx tile_n_idx in
  commit_tile p g M_start_offset m_size n_size tile_m_idx tile_n_idx c st.

(** The [while] loop, lines 239-336.  [None] when the fuel runs out. *)
Fixpoint fp8_while (fuel : nat) (p : kernel_args) (g : nat)
    (M_start_offset m_size n_size num_m_tiles num_tiles iterated_tiles : Z)
    (tidx : Z) (st : kstate) : option (Z * kstate) :=
  if (tidx >=? iterated_tiles) && (tidx <? iterated_tiles + num_tiles) then
    match fuel with
    | O => None
    | S fuel' =>
        let gidx := tidx - iterated_tiles in
        let st := fp8_tile p g M_start_offset m_size n_size num_m_tiles st gidx in
        fp8_while fuel' p g M_start_offset m_size n_size num_m_tiles num_tiles
                  iterated_tiles (tidx + NUM_SMS p) st
    end
  else Some (tidx, st).

(** Loop state of the fp8 kernel: [M_end_offset], [iterated_tiles], [tidx]
    and the kernel state. *)
Record fp8_loop := {
  f_M_end_offset : Z;
  f_iterated_tiles : Z;
  f_tidx : Z;
  f_st : kstate
}.

(** Body of the loop over groups, lines 209-338.  The [while] loop needs at
    most [num_tiles] iterations when it terminates at all, so it is run on
    [num_tiles + 1] units of fuel. *)
Definition fp8_group (p : kernel_args) (s : option fp8_loop) (g : nat) : option fp8_loop :=
  match s with
  | None => None
  | Some s =>
    let M_start_offset := f_M_end_offset s in
    let m_size := nth g (m_sizes p) 0 in
    let M_end_offset := M_start_offset + m_size in
    if m_size >? 0 then
      let n_size := N p in
      let num_m_tiles := cdiv m_size (BLOCK_SIZE_M p) in
      let num_n_tiles := cdiv n_size (BLOCK_SIZE_N p) in
      let num_tiles := num_m_tiles * num_n_tiles in
      let st :=
        if USE_TMA_STORE p
        then set_desc (f_st s)
               (tensormap_create2d (wrap32 (M_start_offset * N p)) m_size n_size)
        else f_st s in
      match fp8_while (S (Z.to_nat num_tiles)) p g M_start_offset m_size n_size
                      num_m_tiles num_tiles (f_iterated_tiles s) (f_tidx s) st with
      | None => None
      | Some (tidx, st) =>
          Some {| f_M_end_offset := M_end_offset;
                  f_iterated_tiles := f_iterated_tiles s + num_tiles;
                  f_tidx := tidx;
                  f_st := st |}
      end
    else
      Some {| f_M_end_offset := M_end_offset;
              f_iterated_tiles := f_iterated_tiles s;
              f_tidx := f_tidx s;
              f_st := f_st s |}
  end.

(** One program of the fp8 kernel: [tidx] starts at [tl.program_id(0)]. *)
Definition _kernel_grouped_gemm_fp8_rowwise (p : kernel_args) (pid : Z) (st : kstate)
    : option kstate :=
  let st := if USE_TMA_STORE p then set_desc st (workspace p pid) else st in
  option_map f_st
    (fold_left (fp8_group p) (seq 0 (G p))
       (Some {| f_M_end_offset := 0; f_iterated_tiles := 0; f_tidx := pid; f_st := st |})).

(** ** Launching a grid *)

Inductive launch_result :=
| CompileError                 (* [tl.static_assert(K % BLOCK_SIZE_K == 0)] fails *)
| Hang                         (* a program never leaves its [while] loop *)
| Done (st : kstate).

Definition init_state (p : kernel_args) (y : mem) : kstate :=
  {| c_mem := y; c_desc := workspace p 0; visited := [] |}.

(** [_kernel_grouped_gemm[(grid,)](...)]. *)
Definition launch_plain (p : kernel_args) (grid : Z) (y : mem) : launch_result :=
  if K p mod BLOCK_SIZE_K p =? 0 then
    Done (fold_left (fun st pid => _kernel_grouped_gemm p pid grid st)
                    (arange grid) (init_state p y))
  else CompileError.

(** [_kernel_grouped_gemm_fp8_rowwise[(grid,)](...)]. *)
Definition launch_fp8 (p : kernel_args) (grid : Z) (y : mem) : launch_result :=
  if K p mod BLOCK_SIZE_K p =? 0 then
    match fold_left
            (fun st pid =>
               match st with
               | None => None
               | Some st => _kernel_grouped_gemm_fp8_rowwise p pid st
               end)
            (arange grid) (Some (init_state p y)) with
    | Some st => Done st
    | None => Hang
    end
  else CompileError.

(** ** The host entry point [_grouped_gemm] *)

Inductive dtype := bfloat16 | float8 | float16 | float32 | int32 | uint8.

(** A 2-D tensor: [shape = (shape0, shape1)]. *)
Record tensor := {
  shape0 : Z;
  shape1 : Z;
  is_contiguous : bool;
  data : mem;
  elem_dtype : dtype
}.

(** The 1-D int32 tensor of group sizes; [shape[0]] is its length. *)
Record sizes_tensor := {
  sizes : list Z;
  sizes_contiguous : bool
}.

(** A 1-D scale vector. *)
Record scale_tensor := {
  scale_data : mem;
  scale_contiguous : bool
}.

(** What the call depends on besides its arguments: the capability flag,
    the device, and which of the library calls between the assertions and
    the launch raise. *)
Record device := {
  HAS_TMA_DESC : bool;                (* [utils.HAS_TMA_DESC] *)
  multi_processor_count : Z;
  empty_raises : bool;                (* [torch.empty((M_total, N), ...)] raises, line 370 *)
  device_query_raises : bool;         (* [get_device_properties("cuda")] raises, line 372 *)
  tma_helper_raises : bool;           (* creating the descriptor helper and its two
                                         descriptors raises, lines 382-386 *)
  workspace_raises : bool;            (* [torch.empty(NUM_SMS * TMA_SIZE, ...)] raises,
                                         lines 389-393 *)
  fill_x_raises : bool;               (* [fill_2d_tma_descriptor("x", ...)] raises *)
  fill_w_raises : bool;               (* [fill_2d_tma_descriptor("w", ...)] raises *)
  empty_contents : mem;               (* contents of the buffer [torch.empty] returns *)
  empty_workspace : Z -> out_desc;    (* contents of the descriptor workspace *)
  unfilled_desc : tma_desc;           (* a descriptor after [init_tma_descriptor] only *)
  unspecified : Z -> Z
}.

(** [LibraryError] stands for whatever a failing call into torch or into the
    descriptor helper raises; the entry point does not catch it. *)
Inductive exn :=
| NotImplementedError
| AssertionError
| CompilationError
| LibraryError.

Inductive event :=
| Printed_tma_setup_error
| Launched_plain (grid : Z)
| Launched_fp8 (grid : Z).

Inductive outcome :=
| Raise (e : exn)
| NoReturn
| Return (y : tensor).

(** Modelled from the spec: [fill_2d_tma_descriptor(name, ptr, dim0, dim1,
    block0, block1, element_size)] of the absent [tma_utils] binds the
    descriptor to the tensor's storage with extent [dim0 x dim1]. *)
Definition fill_2d_tma_descriptor (t : tensor) (dim0 dim1 : Z) : tma_desc :=
  {| desc_mem := data t; desc_rows := dim0; desc_cols := dim1 |}.

(** The [try] block of lines 399-426: the descriptors seen by the kernel and
    what was printed. *)
Definition tma_setup (dev : device) (x w : tensor) (M_total N K : Z)
    : tma_desc * tma_desc * list event :=
  if fill_x_raises dev then
    (unfilled_desc dev, unfilled_desc dev, [Printed_tma_setup_error])
  else if fill_w_raises dev then
    (fill_2d_tma_descriptor x M_total K, unfilled_desc dev, [Printed_tma_setup_error])
  else
    (fill_2d_tma_descriptor x M_total K, fill_2d_tma_descriptor w N K, []).

(** The kernel call [kernel[grid_size](...)] followed by [return y], lines
    432-479: the static assertion fails while the kernel is compiled for
    the launch and raises; otherwise the kernel is enqueued and [y] is
    returned, holding the kernel's output once the kernel has run. *)
Definition after_launch (y : tensor) (r : launch_result) : outcome :=
  match r with
  | CompileError => Raise CompilationError
  | Hang => NoReturn
  | Done st =>
      Return {| shape0 := shape0 y; shape1 := shape1 y;
                is_contiguous := is_contiguous y;
                data := c_mem st; elem_dtype := elem_dtype y |}
  end.

Definition is_some {A} (o : option A) : bool :=
  match o with Some _ => true | None => false end.

(** The kernel arguments built by the host, lines 432-471. *)
Definition host_args (dev : device) (desc_x desc_w : tma_desc)
    (x_scale w_scale : mem) (m_sizes : sizes_tensor) (G : nat) (N K NUM_SMS : Z)
    (USE_TMA_LOAD USE_TMA_STORE : bool) : kernel_args :=
  {| a_desc_ptr := desc_x; a_scale_ptr := x_scale;
     b_desc_ptr := desc_w; b_scale_ptr := w_scale;
     workspace := empty_workspace dev;
     m_sizes := sizes m_sizes; G := G; N := N; K := K; NUM_SMS := NUM_SMS;
     USE_TMA_LOAD := USE_TMA_LOAD; USE_TMA_STORE := USE_TMA_STORE;
     BLOCK_SIZE_M := 64; BLOCK_SIZE_N := 64; BLOCK_SIZE_K := 32;
     undef := unspecified dev |}.

(** [_grouped_gemm(x, w, m_sizes, x_scale, w_scale)], lines 341-479: the
    outcome of the call and what it printed and launched, in order.
    [triton.next_power_of_2] is total on the row counts a tensor can have,
    and the final shape assertion compares [y.shape] with the shape [y] was
    allocated with and cannot fail. *)
Definition _grouped_gemm (dev : device) (x w : tensor) (m_sizes : sizes_tensor)
    (x_scale w_scale : option scale_tensor) : outcome * list event :=
  if negb (HAS_TMA_DESC dev) then (Raise NotImplementedError, []) else
  let G := length (sizes m_sizes) in
  if negb (is_contiguous x) then (Raise AssertionError, []) else
  if negb (is_contiguous w) then (Raise AssertionError, []) else
  if negb (sizes_contiguous m_sizes) then (Raise AssertionError, []) else
  let M_total := shape0 x in
  let K := shape1 x in
  let N := shape0 w in
  if negb (K =? shape1 w) then (Raise AssertionError, []) else
  let sum_m_sizes := fold_right Z.add 0 (sizes m_sizes) in
  if negb (M_total =? sum_m_sizes) then (Raise AssertionError, []) else
  if empty_raises dev then (Raise LibraryError, []) else
  let y := {| shape0 := M_total; shape1 := N; is_contiguous := true;
              data := empty_contents dev; elem_dtype := bfloat16 |} in
  if device_query_raises dev then (Raise LibraryError, []) else
  let NUM_SMS := multi_processor_count dev in
  let USE_TMA_LOAD := true in
  let USE_TMA_STORE := true in
  if tma_helper_raises dev then (Raise LibraryError, []) else
  if workspace_raises dev then (Raise LibraryError, []) else
  let grid_size := Z.min NUM_SMS 4 in
  let '(desc_x, desc_w, printed) := tma_setup dev x w M_total N K in
  match x_scale, w_scale with
  | Some xs, Some ws =>
      if negb (scale_contiguous xs) then (Raise AssertionError, printed) else
      if negb (scale_contiguous ws) then (Raise AssertionError, printed) else
      (after_launch y
         (launch_fp8
            (host_args dev desc_x desc_w (scale_data xs) (scale_data ws)
                       m_sizes G N K NUM_SMS USE_TMA_LOAD USE_TMA_STORE)
            grid_size (data y)),
       printed ++ [Launched_fp8 grid_size])
  | _, _ =>
      if is_some x_scale then (Raise AssertionError, printed) else
      if is_some w_scale then (Raise AssertionError, printed) else
      (after_launch y
         (launch_plain
            (host_args dev desc_x desc_w (fun _ => 0) (fun _ => 0)
                       m_sizes G N K NUM_SMS USE_TMA_LOAD USE_TMA_STORE)
            grid_size (data y)),
       printed ++ [Launched_plain grid_size])
  end.

Definition group_gemm_forward (dev : device) (x w : tensor) (m_sizes : sizes_tensor) :=
  _grouped_gemm dev x w m_sizes None None.

Definition group_gemm_fp8_rowwise (dev : device) (x w : tensor) (m_sizes : sizes_tensor)
    (x_scale w_scale : scale_tensor) :=
  _grouped_gemm dev x w m_sizes (Some x_scale) (Some w_scale).

(** ** Reference quantities *)

(** Exclusive prefix sum of the group sizes: the first row of group [g]. *)
Definition group_offset (ms : list Z) (g : nat) : Z :=
  fold_right Z.add 0 (firstn g ms).

(** [sum_k x[r,k] * w[c,k]] for row-major [x : [_, K]] and [w : [_, K]]. *)
Definition dot_row (x w : mem) (K r c : Z) : Z :=
  sum_to (Z.to_nat K) (fun k => x (r * K + k) * w (c * K + k)).

(** ** [test_backward_pass] (dev/triton_groupGEMM/clean/fast_debug.py) *)

(** Lines 42-48: the group sizes of the test, [M] rows split over [G]
    groups, the first [M % G] groups one row larger.  [None] stands for the
    exception raised when [G] is not positive ([M // G] for [G = 0],
    [torch.zeros(G)] for a negative [G]). *)
Definition test_m_sizes (M G : Z) : option (list Z) :=
  if G <=? 0 then None
  else
    let base_size := M / G in
    let remainder := M mod G in
    Some (map (fun i => base_size + (if i <? remainder then 1 else 0)) (arange G)).

(** Lines 86-96, one round of the loop over the groups; the loop state is
    [m_start] and [reference_result], a zero-initialised tensor of [W]
    columns.  Entry [(i, j)] of
    [x[m_start:m_end, :] @ w[n_start:n_end, :].T] is
    [sum_k x[m_start+i, k] * w[n_start+j, k]] and is assigned to
    [reference_result[m_start+i, n_start+j]].  The slices are taken as the
    test has them: inside the rows of [x] and the columns of
    [reference_result], where Python neither clips nor wraps them. *)
Definition reference_group (x w : mem) (m_sizes : list Z) (N K W : Z)
    (s : Z * mem) (g : nat) : Z * mem :=
  let '(m_start, reference_result) := s in
  let m_size := nth g m_sizes 0 in
  let m_end := m_start + m_size in
  let n_start := Z.of_nat g * N in
  let n_end := (Z.of_nat g + 1) * N in
  let reference_result :=
    if m_size >? 0 then
      fun a =>
        let r := a / W in
        let c := a mod W in
        if (m_start <=? r) && (r <? m_end) && (n_start <=? c) && (c <? n_end)
        then dot_row x w K r c
        else reference_result a
    else reference_result in
  (m_end, reference_result).

(** The reference result of the test for [x : [M, K]], [w : [G*N, K]]:
    [torch.zeros_like(result)] with [result : [M, G*N]], then the loop. *)
Definition reference_result (x w : mem) (m_sizes : list Z) (G : nat) (N K : Z) : mem :=
  snd (fold_left (reference_group x w m_sizes N K (Z.of_nat G * N)) (seq 0 G)
                 (0, fun _ => 0)).

(** ** Vocabulary of the statements and proofs *)

(** *** Sums and the reduction loop *)

(** One step of the manual reduction loop. *)
Definition manual_step (ma mb : mem) (u : Z -> Z) (BK : Z) (maskA maskB : Z -> Z -> bool)
    (s : block * (block * block)) (_ : Z) : block * (block * block) :=
  let '(accumulator, (a_ptrs, b_ptrs)) := s in
  let a := tl_load ma u a_ptrs maskA None in
  let b := tl_load mb u b_ptrs maskB None in
  (block_add accumulator (tl_dot_T BK a b), (ptr_add a_ptrs BK, ptr_add b_ptrs BK)).

(** *** The footprint of a tile *)

Definition tile_msize (p : kernel_args) (t : tile) : Z :=
  nth (t_group t) (m_sizes p) 0.

(** The store a kernel performs for tile [t] holding block [c]: the
    descriptor slot is the one the kernel created on entering the tile's
    group. *)
Definition tile_store (p : kernel_args) (t : tile) (c : block) : writes :=
  store_tile p
    (tensormap_create2d (wrap32 (t_row_offset t * N p)) (tile_msize p t) (N p))
    (t_row_offset t) (tile_msize p t) (N p) (t_m_idx t) (t_n_idx t) c.

(** Output offset [a] is one of the offsets the store of tile [t] writes. *)
Definition covers (p : kernel_args) (t : tile) (a : Z) : bool :=
  existsb (fun w => fst w =? a) (tile_store p t tl_zeros).

(** Output offset [a] (row [a / N], column [a mod N]) lies in the part of
    tile [t] that is inside its group's rows and inside the [N] columns:
    what the store of the tile writes as long as no offset wraps around. *)
Definition in_tile (p : kernel_args) (t : tile) (a : Z) : bool :=
  let r := a / N p - t_row_offset t in
  let c := a mod N p in
  (0 <? N p)
  && (t_m_idx t * BLOCK_SIZE_M p <=? r) && (r <? t_m_idx t * BLOCK_SIZE_M p + BLOCK_SIZE_M p)
  && (r <? tile_msize p t)
  && (t_n_idx t * BLOCK_SIZE_N p <=? c) && (c <? t_n_idx t * BLOCK_SIZE_N p + BLOCK_SIZE_N p).

(** The masked pointer store of block [c] for tile [t], without
    wrap-around. *)
Definition tile_writes (p : kernel_args) (c : block) (t : tile) : writes :=
  tl_store (BLOCK_SIZE_M p) (BLOCK_SIZE_N p)
    (fun i j => (t_row_offset t + (t_m_idx t * BLOCK_SIZE_M p + i)) * N p
                + (t_n_idx t * BLOCK_SIZE_N p + j))
    c
    (store_mask p (tile_msize p t) (N p) (t_m_idx t) (t_n_idx t)).

(** Lane of tile [t] that holds output offset [a]. *)
Definition lane_row (p : kernel_args) (t : tile) (a : Z) : Z :=
  a / N p - t_row_offset t - t_m_idx t * BLOCK_SIZE_M p.

Definition lane_col (p : kernel_args) (t : tile) (a : Z) : Z :=
  a mod N p - t_n_idx t * BLOCK_SIZE_N p.

(** *** A run as the replay of its tile log *)

(** The block a kernel stores for tile [t]. *)
Definition plain_block (p : kernel_args) (t : tile) : block :=
  accumulate p (t_row_offset t) (tile_msize p t) (N p) (t_m_idx t) (t_n_idx t).

Definition fp8_block (p : kernel_args) (t : tile) : block :=
  scaled p (plain_block p t) (t_row_offset t) (tile_msize p t) (N p)
         (t_m_idx t) (t_n_idx t).

(** Storing the tiles of a log one after the other. *)
Definition replay (p : kernel_args) (blk : tile -> block) (l : list tile) (m : mem) : mem :=
  fold_left (fun m' t => write_all (tile_store p t (blk t)) m') l m.

(** A tile the resolver may produce: a non-empty group, the group's first
    row, and tile indices inside the group's tile grid. *)
Definition tile_wf (p : kernel_args) (t : tile) : Prop :=
  (t_group t < G p)%nat /\
  0 < tile_msize p t /\
  t_row_offset t = group_offset (m_sizes p) (t_group t) /\
  0 <= t_m_idx t < cdiv (tile_msize p t) (BLOCK_SIZE_M p) /\
  0 <= t_n_idx t < cdiv (N p) (BLOCK_SIZE_N p).

(** [st] is [st0] followed by the computation of well-formed tiles. *)
Definition extends (p : kernel_args) (blk : tile -> block) (st0 st : kstate) : Prop :=
  exists l,
    visited st = visited st0 ++ l /\
    c_mem st = replay p blk l (c_mem st0) /\
    Forall (tile_wf p) l.

(** *** Valid invocations *)

(** The arguments of a valid invocation: positive tile sizes, [K] a
    multiple of the reduction tile, non-negative group sizes, one size per
    group, and [x : [sum m_sizes, K]], [w : [N, K]] behind the two input
    arguments. *)
Definition valid_args (p : kernel_args) : Prop :=
  0 < BLOCK_SIZE_M p /\ 0 < BLOCK_SIZE_N p /\ 0 < BLOCK_SIZE_K p /\
  0 <= K p /\ K p mod BLOCK_SIZE_K p = 0 /\
  Forall (fun m => 0 <= m) (m_sizes p) /\
  G p = length (m_sizes p) /\
  desc_cols (a_desc_ptr p) = K p /\
  desc_cols (b_desc_ptr p) = K p /\
  desc_rows (a_desc_ptr p) = fold_right Z.add 0 (m_sizes p) /\
  desc_rows (b_desc_ptr p) = N p.

(** *** Offsets that fit 32 bits *)

(** The stores of tile [t] do not wrap: the base of the group's descriptor
    on the bulk path, the row offsets of the group's rows on the manual
    path. *)
Definition tile_fits (p : kernel_args) (t : tile) : Prop :=
  if USE_TMA_STORE p
  then 0 <= t_row_offset t * N p < 2147483648
  else 0 <= t_row_offset t /\
       (t_row_offset t + tile_msize p t) * N p <= 2147483648.

(** No store of a launch wraps. *)
Definition stores_fit (p : kernel_args) : Prop :=
  if USE_TMA_STORE p
  then forall g, 0 < nth g (m_sizes p) 0 ->
                 group_offset (m_sizes p) g * N p < 2147483648
  else fold_right Z.add 0 (m_sizes p) * N p <= 2147483648.

(** No manual load of a launch wraps. *)
Definition loads_fit (p : kernel_args) : Prop :=
  USE_TMA_LOAD p = false ->
  fold_right Z.add 0 (m_sizes p) * K p <= 2147483648 /\
  N p * K p <= 2147483648.

Definition offsets_fit (p : kernel_args) : Prop := stores_fit p /\ loads_fit p.

(** The element counts of [x : [M, K]], [w : [N, K]] and of the output
    [[M, N]] are within what a signed 32-bit offset reaches, whichever
    paths are compiled in. *)
Definition fits_int32 (p : kernel_args) : Prop :=
  fold_right Z.add 0 (m_sizes p) * N p <= 2147483648 /\
  fold_right Z.add 0 (m_sizes p) * K p <= 2147483648 /\
  N p * K p <= 2147483648.

(** *** Coverage by the plain kernel *)

Definition mk_tile (g : nat) (off num_m idx : Z) : tile :=
  {| t_group := g; t_row_offset := off;
     t_m_idx := idx mod num_m; t_n_idx := idx / num_m |}.

(** The tiles one program logs while it is in group [g]. *)
Definition plain_group_tiles (p : kernel_args) (pid num_pid : Z) (off : Z) (g : nat)
    : list tile :=
  let m_size := nth g (m_sizes p) 0 in
  if m_size >? 0 then
    map (mk_tile g off (cdiv m_size (BLOCK_SIZE_M p)))
        (range3 pid (cdiv m_size (BLOCK_SIZE_M p) * cdiv (N p) (BLOCK_SIZE_N p)) num_pid)
  else [].

Definition plain_program_tiles (p : kernel_args) (pid num_pid : Z) : list tile :=
  flat_map (fun g => plain_group_tiles p pid num_pid (group_offset (m_sizes p) g) g)
           (seq 0 (G p)).

(** *** Contents of the buffer after a launch *)

(** The entry of [x @ w.T] stored at output offset [a] of an [_ x N] buffer. *)
Definition plain_entry (p : kernel_args) (a : Z) : Z :=
  dot_row (desc_mem (a_desc_ptr p)) (desc_mem (b_desc_ptr p)) (K p) (a / N p) (a mod N p).

(** The same entry rescaled by the scale of its row of [x] and the scale of
    its row of [w]. *)
Definition fp8_entry (p : kernel_args) (a : Z) : Z :=
  plain_entry p a * a_scale_ptr p (a / N p) * b_scale_ptr p (a mod N p).

Definition in_tiles (p : kernel_args) (l : list tile) (a : Z) : bool :=
  existsb (fun t => in_tile p t a) l.

(** Some tile of the log stores to offset [a]. *)
Definition covered (p : kernel_args) (l : list tile) (a : Z) : bool :=
  existsb (fun t => covers p t a) l.

(** *** The host entry point on valid calls *)

(** The boundary conditions of a valid call: the capability is present, the
    tensors are contiguous, the reduction depths agree, the group sizes are
    non-negative and sum to the row count of [x], [K] is a multiple of the
    reduction tile, and the device has at least one multiprocessor. *)
Definition valid_call (dev : device) (x w : tensor) (ms : sizes_tensor) : Prop :=
  HAS_TMA_DESC dev = true /\
  is_contiguous x = true /\ is_contiguous w = true /\ sizes_contiguous ms = true /\
  shape1 x = shape1 w /\
  shape0 x = fold_right Z.add 0 (sizes ms) /\
  Forall (fun m => 0 <= m) (sizes ms) /\
  0 <= shape1 x /\ shape1 x mod 32 = 0 /\
  0 < multi_processor_count dev.

(** None of the library calls between the assertions and the launch
    raises. *)
Definition allocations_succeed (dev : device) : Prop :=
  empty_raises dev = false /\ device_query_raises dev = false /\
  tma_helper_raises dev = false /\ workspace_raises dev = false.

(** No failure of the environment: the library calls succeed and both
    descriptors are filled. *)
Definition no_fault (dev : device) : Prop :=
  allocations_succeed dev /\ fill_x_raises dev = false /\ fill_w_raises dev = false.

(** *** Concrete calls *)

(** A device with 132 multiprocessors on which nothing fails; [torch.empty]
    hands out a buffer filled with [-1]. *)
Definition dev132 : device :=
  {| HAS_TMA_DESC := true; multi_processor_count := 132;
     empty_raises := false; device_query_raises := false;
     tma_helper_raises := false; workspace_raises := false;
     fill_x_raises := false; fill_w_raises := false;
     empty_contents := fun _ => -1;
     empty_workspace := fun _ => tensormap_create2d 0 0 0;
     unfilled_desc := {| desc_mem := fun _ => 0; desc_rows := 0; desc_cols := 0 |};
     unspecified := fun _ => 7 |}.

(** [x : [2, 32]] with [x[0,0] = 1], [x[1,0] = 10] and zero elsewhere. *)
Definition x_2x32 : tensor :=
  {| shape0 := 2; shape1 := 32; is_contiguous := true;
     data := fun a => if a =? 0 then 1 else if a =? 32 then 10 else 0;
     elem_dtype := bfloat16 |}.

(** [w : [2, 32]], two groups of one weight row each: [w[0,0] = 2],
    [w[1,0] = 3] and zero elsewhere. *)
Definition w_2x32 : tensor :=
  {| shape0 := 2; shape1 := 32; is_contiguous := true;
     data := fun a => if a =? 0 then 2 else if a =? 32 then 3 else 0;
     elem_dtype := bfloat16 |}.

Definition sizes_1_1 : sizes_tensor :=
  {| sizes := [1; 1]; sizes_contiguous := true |}.

(** Group whose offset range contains row [r]. *)
Fixpoint group_of (ms : list Z) (r : Z) : nat :=
  match ms with
  | [] => O
  | m :: ms' => if r <? m then O else S (group_of ms' (r - m))
  end.

(** The entry prescribed when group [g] owns the [Ng] weight rows
    [[g*Ng, (g+1)*Ng)]: row [r] of [x] against row [group(r)*Ng + c] of [w]. *)
Definition grouped_entry (x w : mem) (ms : list Z) (Ng K r c : Z) : Z :=
  dot_row x w K r (Z.of_nat (group_of ms r) * Ng + c).

(** *** The tile log does not depend on the load/store path *)

(** Two argument records that agree on everything the resolver reads. *)
Definition same_sched (p1 p2 : kernel_args) : Prop :=
  m_sizes p1 = m_sizes p2 /\ G p1 = G p2 /\ N p1 = N p2 /\
  NUM_SMS p1 = NUM_SMS p2 /\
  BLOCK_SIZE_M p1 = BLOCK_SIZE_M p2 /\ BLOCK_SIZE_N p1 = BLOCK_SIZE_N p2.

Definition same_log {A} (r1 r2 : option (A * kstate)) : Prop :=
  match r1, r2 with
  | Some (a1, s1), Some (a2, s2) => a1 = a2 /\ visited s1 = visited s2
  | None, None => True
  | _, _ => False
  end.

Definition same_loop (s1 s2 : option fp8_loop) : Prop :=
  match s1, s2 with
  | Some s1, Some s2 =>
      f_M_end_offset s1 = f_M_end_offset s2 /\
      f_iterated_tiles s1 = f_iterated_tiles s2 /\
      f_tidx s1 = f_tidx s2 /\
      visited (f_st s1) = visited (f_st s2)
  | None, None => True
  | _, _ => False
  end.

Definition same_visited (r1 r2 : option kstate) : Prop :=
  match r1, r2 with
  | Some s1, Some s2 => visited s1 = visited s2
  | None, None => True
  | _, _ => False
  end.

(** Replacing the load path, the store path and the contents of unspecified
    lanes; everything else is kept. *)
Definition with_paths (p : kernel_args) (tma_load tma_store : bool) (u : Z -> Z)
    : kernel_args :=
  {| a_desc_ptr := a_desc_ptr p; a_scale_ptr := a_scale_ptr p;
     b_desc_ptr := b_desc_ptr p; b_scale_ptr := b_scale_ptr p;
     workspace := workspace p;
     m_sizes := m_sizes p; G := G p; N := N p; K := K p; NUM_SMS := NUM_SMS p;
     USE_TMA_LOAD := tma_load; USE_TMA_STORE := tma_store;
     BLOCK_SIZE_M := BLOCK_SIZE_M p; BLOCK_SIZE_N := BLOCK_SIZE_N p;
     BLOCK_SIZE_K := BLOCK_SIZE_K p;
     undef := u |}.

(** A small valid argument record: one group of one row, [N = K = 1], tiles
    of [2 x 2], manual paths, and [7] in every unspecified lane. *)
Definition args_1x1 : kernel_args :=
  {| a_desc_ptr := {| desc_mem := fun _ => 1; desc_rows := 1; desc_cols := 1 |};
     a_scale_ptr := fun _ => 1;
     b_desc_ptr := {| desc_mem := fun _ => 1; desc_rows := 1; desc_cols := 1 |};
     b_scale_ptr := fun _ => 1;
     workspace := fun _ => tensormap_create2d 0 0 0;
     m_sizes := [1]; G := 1; N := 1; K := 1; NUM_SMS := 1;
     USE_TMA_LOAD := false; USE_TMA_STORE := false;
     BLOCK_SIZE_M := 2; BLOCK_SIZE_N := 2; BLOCK_SIZE_K := 1;
     undef := fun _ => 7 |}.

(** *** C4: the two load/store strategies *)


(** *** C3: the fp8 kernel *)

(** The rescaled entry prescribed when group [g] owns weight rows
    [[g*Ng, (g+1)*Ng)] and their scales. *)
Definition grouped_scaled_entry (x w xs ws : mem) (ms : list Z) (Ng K r c : Z) : Z :=
  grouped_entry x w ms Ng K r c * xs r * ws (Z.of_nat (group_of ms r) * Ng + c).

Definition unit_scales : scale_tensor :=
  {| scale_data := fun _ => 1; scale_contiguous := true |}.

(** Weight-row scales [5] for row 0 and [7] for row 1. *)
Definition scales_5_7 : scale_tensor :=
  {| scale_data := fun a => if a =? 0 then 5 else 7; scale_contiguous := true |}.

(** *** C2: every tile exactly once *)

Definition tile_eq_dec (t1 t2 : tile) : {t1 = t2} + {t1 <> t2}.
Proof.
  decide equality; try apply Z.eq_dec. apply Nat.eq_dec.
Defined.

(** One group of 320 rows against 64 weight rows, [K = 32], all ones: five
    row tiles of 64 rows and one column tile. *)
Definition x_320x32 : tensor :=
  {| shape0 := 320; shape1 := 32; is_contiguous := true;
     data := fun _ => 1; elem_dtype := float8 |}.

Definition w_64x32 : tensor :=
  {| shape0 := 64; shape1 := 32; is_contiguous := true;
     data := fun _ => 1; elem_dtype := float8 |}.

Definition sizes_320 : sizes_tensor :=
  {| sizes := [320]; sizes_contiguous := true |}.

(** The arguments the host passes on that call with unit scales. *)
Definition args_320 : kernel_args :=
  host_args dev132
    (fill_2d_tma_descriptor x_320x32 320 32)
    (fill_2d_tma_descriptor w_64x32 64 32)
    (fun _ => 1) (fun _ => 1) sizes_320 1 64 32 132 true true.

(** The fifth tile of the group: rows 256..319. *)
Definition tile_4 : tile :=
  {| t_group := 0; t_row_offset := 0; t_m_idx := 4; t_n_idx := 0 |}.

(** *** C8: what a tile's store writes *)


(** *** C9: assertions at the boundary and dispatch *)

Definition launches (ev : list event) : Prop :=
  exists g, In (Launched_plain g) ev \/ In (Launched_fp8 g) ev.

(** The tensor [torch.empty((M_total, N), dtype=torch.bfloat16)] hands
    out, line 370. *)
Definition fresh_output (dev : device) (x w : tensor) : tensor :=
  {| shape0 := shape0 x; shape1 := shape0 w; is_contiguous := true;
     data := empty_contents dev; elem_dtype := bfloat16 |}.

(** The arguments the entry point passes to the kernel: the descriptors are
    those the set-up of lines 399-426 leaves. *)
Definition call_args (dev : device) (x w : tensor) (ms : sizes_tensor)
    (x_scale w_scale : mem) : kernel_args :=
  let '(desc_x, desc_w, _) := tma_setup dev x w (shape0 x) (shape0 w) (shape1 x) in
  host_args dev desc_x desc_w x_scale w_scale ms (length (sizes ms))
            (shape0 w) (shape1 x) (multi_processor_count dev) true true.

(** One of the library calls between the assertions and the launch
    raises. *)
Definition allocation_fails (dev : device) : Prop :=
  empty_raises dev = true \/ device_query_raises dev = true \/
  tma_helper_raises dev = true \/ workspace_raises dev = true.

(** The checks that precede the allocation of the output. *)
Definition passes_checks (dev : device) (x w : tensor) (ms : sizes_tensor) : Prop :=
  HAS_TMA_DESC dev = true /\
  is_contiguous x = true /\ is_contiguous w = true /\ sizes_contiguous ms = true /\
  shape1 x = shape1 w /\
  shape0 x = fold_right Z.add 0 (sizes ms).

(** *** C5: faults *)

(** The device of [dev132] on which filling the descriptor of [x] raises. *)
Definition dev_fill_fails : device :=
  {| HAS_TMA_DESC := true; multi_processor_count := 132;
     empty_raises := false; device_query_raises := false;
     tma_helper_raises := false; workspace_raises := false;
     fill_x_raises := true; fill_w_raises := false;
     empty_contents := fun _ => -1;
     empty_workspace := fun _ => tensormap_create2d 0 0 0;
     unfilled_desc := {| desc_mem := fun _ => 0; desc_rows := 0; desc_cols := 0 |};
     unspecified := fun _ => 7 |}.

(** *** C10: the returned tensor *)

(** The inputs of the two-group call stored as 8-bit floats. *)
Definition x8_2x32 : tensor :=
  {| shape0 := 2; shape1 := 32; is_contiguous := true;
     data := data x_2x32; elem_dtype := float8 |}.

Definition w8_2x32 : tensor :=
  {| shape0 := 2; shape1 := 32; is_contiguous := true;
     data := data w_2x32; elem_dtype := float8 |}.

(** What the quantized entry point returns on them. *)
Definition y_fp8_2x32 : tensor :=
  match fst (_grouped_gemm dev132 x8_2x32 w8_2x32 sizes_1_1
               (Some unit_scales) (Some scales_5_7)) with
  | Return y => y
  | _ => x8_2x32
  end.

(** *** The plain launch computes every tile exactly once *)

(** Flat index of a tile inside its group's tile grid (row tiles first). *)
Definition tile_index (p : kernel_args) (t : tile) : Z :=
  t_n_idx t * cdiv (tile_msize p t) (BLOCK_SIZE_M p) + t_m_idx t.

(** *** Which tiles the fp8 launch computes *)

(** The tiles logged by one run of the [while] loop: the cursor values
    [tidx, tidx + NUM_SMS, ...] below the end of the group. *)
Definition fp8_while_tiles (p : kernel_args) (g : nat) (off num_m num_tiles it tidx : Z)
    : list tile :=
  map (fun c => mk_tile g off num_m (c - it)) (range3 tidx (it + num_tiles) (NUM_SMS p)).

(** Number of tiles of group [g] (none for an empty group). *)
Definition group_num_tiles (p : kernel_args) (g : nat) : Z :=
  let m_size := nth g (m_sizes p) 0 in
  if m_size >? 0
  then cdiv m_size (BLOCK_SIZE_M p) * cdiv (N p) (BLOCK_SIZE_N p)
  else 0.

(** Number of tiles of the groups before [g]. *)
Fixpoint tiles_before (p : kernel_args) (g : nat) : Z :=
  match g with
  | O => 0
  | S g' => tiles_before p g' + group_num_tiles p g'
  end.

(** Position of a tile in the flat tile space of the whole problem. *)
Definition global_index (p : kernel_args) (t : tile) : Z :=
  tiles_before p (t_group t) + tile_index p t.

(** Cursor value [c] is one of [pid, pid + step, pid + 2*step, ...]. *)
Definition owned (pid step c : Z) : bool :=
  (pid <=? c) && ((c - pid) mod step =? 0).

(** The cursor of program [pid] on entry to group [n]: the first value of
    [pid, pid + NUM_SMS, ...] that is not below the tiles of the groups
    before [n]. *)
Definition cursor_inv (p : kernel_args) (pid : Z) (n : nat) (tidx : Z) : Prop :=
  tiles_before p n <= tidx /\ pid <= tidx /\
  (tidx - pid) mod NUM_SMS p = 0 /\
  (tidx = pid \/ tidx - NUM_SMS p < tiles_before p n).

Definition tally (b : bool) : nat := if b then 1%nat else O.

(** *** Stores of different tiles *)

(** The only tile of [args_1x1]. *)
Definition tile_0 : tile :=
  {| t_group := 0; t_row_offset := 0; t_m_idx := 0; t_n_idx := 0 |}.

(** [args_1x1] with two groups of one row each, and the tile of the second
    group. *)
Definition args_two_rows : kernel_args :=
  {| a_desc_ptr := {| desc_mem := fun _ => 1; desc_rows := 2; desc_cols := 1 |};
     a_scale_ptr := a_scale_ptr args_1x1;
     b_desc_ptr := b_desc_ptr args_1x1; b_scale_ptr := b_scale_ptr args_1x1;
     workspace := workspace args_1x1;
     m_sizes := [1; 1]; G := 2; N := 1; K := 1; NUM_SMS := 1;
     USE_TMA_LOAD := false; USE_TMA_STORE := false;
     BLOCK_SIZE_M := 2; BLOCK_SIZE_N := 2; BLOCK_SIZE_K := 1;
     undef := undef args_1x1 |}.

Definition tile_1 : tile :=
  {| t_group := 1; t_row_offset := 1; t_m_idx := 0; t_n_idx := 0 |}.

(** *** Negative group sizes *)

(** [args_1x1] with the group sizes [[2; -1]]: they sum to the single row
    of [x] although the first group claims two rows. *)
Definition args_negative : kernel_args :=
  {| a_desc_ptr := a_desc_ptr args_1x1; a_scale_ptr := a_scale_ptr args_1x1;
     b_desc_ptr := b_desc_ptr args_1x1; b_scale_ptr := b_scale_ptr args_1x1;
     workspace := workspace args_1x1;
     m_sizes := [2; -1]; G := 2; N := 1; K := 1; NUM_SMS := 1;
     USE_TMA_LOAD := true; USE_TMA_STORE := true;
     BLOCK_SIZE_M := 2; BLOCK_SIZE_N := 2; BLOCK_SIZE_K := 1;
     undef := undef args_1x1 |}.

(** *** Leaving the [while] loop *)

(** [args_1x1] with another stride of the fp8 cursor. *)
Definition args_stride (s : Z) : kernel_args :=
  {| a_desc_ptr := a_desc_ptr args_1x1; a_scale_ptr := a_scale_ptr args_1x1;
     b_desc_ptr := b_desc_ptr args_1x1; b_scale_ptr := b_scale_ptr args_1x1;
     workspace := workspace args_1x1;
     m_sizes := [1]; G := 1; N := 1; K := 1; NUM_SMS := s;
     USE_TMA_LOAD := false; USE_TMA_STORE := false;
     BLOCK_SIZE_M := 2; BLOCK_SIZE_N := 2; BLOCK_SIZE_K := 1;
     undef := undef args_1x1 |}.

(** *** Empty groups *)

(** [x : [0, 32]], a tensor without rows. *)
Definition x_0x32 : tensor :=
  {| shape0 := 0; shape1 := 32; is_contiguous := true;
     data := fun _ => 0; elem_dtype := bfloat16 |}.

Definition sizes_0_0 : sizes_tensor :=
  {| sizes := [0; 0]; sizes_contiguous := true |}.

(** *** The descriptor workspace *)

(** Replacing the descriptor workspace; everything else is kept. *)
Definition with_workspace (p : kernel_args) (ws : Z -> out_desc) : kernel_args :=
  {| a_desc_ptr := a_desc_ptr p; a_scale_ptr := a_scale_ptr p;
     b_desc_ptr := b_desc_ptr p; b_scale_ptr := b_scale_ptr p;
     workspace := ws;
     m_sizes := m_sizes p; G := G p; N := N p; K := K p; NUM_SMS := NUM_SMS p;
     USE_TMA_LOAD := USE_TMA_LOAD p; USE_TMA_STORE := USE_TMA_STORE p;
     BLOCK_SIZE_M := BLOCK_SIZE_M p; BLOCK_SIZE_N := BLOCK_SIZE_N p;
     BLOCK_SIZE_K := BLOCK_SIZE_K p;
     undef := undef p |}.

(** *** The order of the programs *)

(** The programs [pids] of a launch of the plain kernel on [num_pid]
    programs, run one after the other in the order of the list;
    [launch_plain] runs them in the order [0, 1, ..., num_pid - 1]. *)
Definition run_plain (p : kernel_args) (num_pid : Z) (pids : list Z) (st : kstate) : kstate :=
  fold_left (fun st pid => _kernel_grouped_gemm p pid num_pid st) pids st.

(** The same for the fp8 kernel. *)
Definition run_fp8 (p : kernel_args) (pids : list Z) (st : kstate) : option kstate :=
  fold_left (fun st pid =>
               match st with
               | None => None
               | Some st => _kernel_grouped_gemm_fp8_rowwise p pid st
               end) pids (Some st).

(** *** Which way a call ends *)



(** *** The reference result of the test *)

(** Offset [a] of a [_ x W] tensor lies in the block of group [g]: the
    group's rows and the columns [[g*N, (g+1)*N)]. *)
Definition in_block (ms : list Z) (N W : Z) (a : Z) (g : nat) : bool :=
  (nth g ms 0 >? 0)
  && (group_offset ms g <=? a / W) && (a / W <? group_offset ms g + nth g ms 0)
  && (Z.of_nat g * N <=? a mod W) && (a mod W <? (Z.of_nat g + 1) * N).

(** * Properties *)

(** ** Sums and the reduction loop *)

Lemma sum_to_ext (n : nat) (f g : Z -> Z) :
  (forall k, 0 <= k < Z.of_nat n -> f k = g k) -> sum_to n f = sum_to n g.
Proof.
  induction n as [|n IH]; intros H; simpl; [reflexivity|].
  rewrite IH, (H (Z.of_nat n)); try lia.
  intros k Hk. apply H. lia.
Qed.

Lemma sum_to_blocks (bk : nat) (h : Z -> Z) (nb : nat) :
  sum_to nb (fun b => sum_to bk (fun kk => h (b * Z.of_nat bk + kk)))
  = sum_to (nb * bk) h.
Proof.
  induction nb as [|nb IH]; simpl; [reflexivity|].
  rewrite IH. clear IH.
  replace (bk + nb * bk)%nat with (nb * bk + bk)%nat by lia.
  assert (Hgen : forall m, (m <= bk)%nat ->
            sum_to (nb * bk) h + sum_to m (fun kk => h (Z.of_nat nb * Z.of_nat bk + kk))
            = sum_to (nb * bk + m) h).
  { induction m as [|m IHm]; intros Hm; simpl.
    - rewrite Nat.add_0_r. lia.
    - replace (nb * bk + S m)%nat with (S (nb * bk + m)) by lia. simpl.
      rewrite <- IHm by lia.
      replace (Z.of_nat (nb * bk + m)) with (Z.of_nat nb * Z.of_nat bk + Z.of_nat m) by lia.
      lia. }
  apply Hgen. lia.
Qed.

Lemma fold_block_add (f : Z -> block) (g : Z -> Z) (n : nat) (acc0 : block) (i j : Z) :
  fold_left (fun acc k => block_add acc (f k))
            (map (fun t => g (Z.of_nat t)) (seq 0 n)) acc0 i j
  = acc0 i j + sum_to n (fun z => f (g z) i j).
Proof.
  induction n as [|n IH]; [simpl; lia|].
  rewrite seq_S, map_app, fold_left_app. simpl.
  unfold block_add at 1. rewrite IH. lia.
Qed.

Lemma range_len_exact (K BK : Z) :
  0 < BK -> 0 <= K -> K mod BK = 0 -> range_len 0 K BK = Z.to_nat (K / BK).
Proof.
  intros HBK HK Hmod. unfold range_len. f_equal.
  rewrite Z.sub_0_r.
  pose proof (Z.div_mod K BK ltac:(lia)) as Hdm. rewrite Hmod in Hdm.
  replace (K + BK - 1) with ((BK - 1) + (K / BK) * BK) by lia.
  rewrite Z.div_add by lia. rewrite Z.div_small by lia. lia.
Qed.

Lemma blocks_cover (K BK : Z) :
  0 < BK -> 0 <= K -> K mod BK = 0 ->
  (Z.to_nat (K / BK) * Z.to_nat BK)%nat = Z.to_nat K.
Proof.
  intros HBK HK Hmod.
  pose proof (Z.div_mod K BK ltac:(lia)) as Hdm. rewrite Hmod in Hdm.
  assert (0 <= K / BK) by (apply Z.div_pos; lia).
  rewrite <- Z2Nat.inj_mul by lia. f_equal. lia.
Qed.

Lemma descriptor_load_in (d : tma_desc) (r0 c0 i j : Z) :
  0 <= r0 + i < desc_rows d -> 0 <= c0 + j < desc_cols d ->
  descriptor_load d r0 c0 i j = desc_mem d ((r0 + i) * desc_cols d + (c0 + j)).
Proof.
  intros Hr Hc. unfold descriptor_load.
  replace (0 <=? r0 + i) with true by (symmetry; apply Z.leb_le; lia).
  replace (r0 + i <? desc_rows d) with true by (symmetry; apply Z.ltb_lt; lia).
  replace (0 <=? c0 + j) with true by (symmetry; apply Z.leb_le; lia).
  replace (c0 + j <? desc_cols d) with true by (symmetry; apply Z.ltb_lt; lia).
  reflexivity.
Qed.

Lemma block_index_bound (K BK z kk : Z) :
  0 < BK -> K mod BK = 0 -> 0 <= z < K / BK -> 0 <= kk < BK ->
  0 <= z * BK + kk < K.
Proof.
  intros HBK Hmod Hz Hkk.
  pose proof (Z.div_mod K BK ltac:(lia)) as Hdm. rewrite Hmod in Hdm.
  nia.
Qed.

(** The bulk-path accumulator of an in-extent lane is the full dot product. *)
Lemma acc_tma_val (p : kernel_args) (mo no i j : Z) :
  0 < BLOCK_SIZE_K p -> 0 <= K p -> K p mod BLOCK_SIZE_K p = 0 ->
  desc_cols (a_desc_ptr p) = K p -> desc_cols (b_desc_ptr p) = K p ->
  0 <= mo + i < desc_rows (a_desc_ptr p) ->
  0 <= no + j < desc_rows (b_desc_ptr p) ->
  acc_tma p mo no i j
  = dot_row (desc_mem (a_desc_ptr p)) (desc_mem (b_desc_ptr p)) (K p) (mo + i) (no + j).
Proof.
  intros HBK HK Hmod Hca Hcb Hr Hc.
  unfold acc_tma, range3.
  rewrite (fold_block_add
             (fun k_offset =>
                tl_dot_T (BLOCK_SIZE_K p)
                  (descriptor_load (a_desc_ptr p) mo k_offset)
                  (descriptor_load (b_desc_ptr p) no k_offset))
             (fun z => 0 + z * BLOCK_SIZE_K p)).
  unfold tl_zeros, tl_dot_T, dot_row.
  rewrite range_len_exact by assumption.
  rewrite <- (blocks_cover (K p) (BLOCK_SIZE_K p)) by assumption.
  rewrite <- sum_to_blocks. simpl.
  apply sum_to_ext. intros z Hz.
  apply sum_to_ext. intros kk Hkk.
  assert (0 <= K p / BLOCK_SIZE_K p) by (apply Z.div_pos; lia).
  rewrite Z2Nat.id in Hz, Hkk |- * by lia.
  pose proof (block_index_bound (K p) (BLOCK_SIZE_K p) z kk HBK Hmod Hz Hkk).
  rewrite !descriptor_load_in by lia.
  rewrite Hca, Hcb. f_equal; f_equal; lia.
Qed.

Lemma manual_fold (ma mb : mem) (u : Z -> Z) (BK : Z) (maskA maskB : Z -> Z -> bool)
    (acc0 pa0 pb0 : block) (l : list Z) :
  let s := fold_left (manual_step ma mb u BK maskA maskB) l (acc0, (pa0, pb0)) in
  (forall i k, fst (snd s) i k = pa0 i k + Z.of_nat (length l) * BK) /\
  (forall j k, snd (snd s) j k = pb0 j k + Z.of_nat (length l) * BK) /\
  (forall i j, fst s i j
     = acc0 i j
       + sum_to (length l) (fun z =>
           sum_to (Z.to_nat BK) (fun kk =>
             tl_load ma u (fun i k => pa0 i k + z * BK) maskA None i kk
             * tl_load mb u (fun j k => pb0 j k + z * BK) maskB None j kk))).
Proof.
  induction l as [|x l IH] using rev_ind; simpl.
  - repeat split; intros; lia.
  - rewrite fold_left_app. simpl.
    destruct (fold_left (manual_step ma mb u BK maskA maskB) l (acc0, (pa0, pb0)))
      as [acc [pa pb]] eqn:E.
    simpl in IH. destruct IH as (Ha & Hb & Hacc).
    rewrite length_app. simpl.
    replace (length l + 1)%nat with (S (length l)) by lia.
    rewrite Nat2Z.inj_succ.
    repeat split; cbn [fst snd sum_to].
    + intros i k. unfold ptr_add. rewrite Ha. lia.
    + intros j k. unfold ptr_add. rewrite Hb. lia.
    + intros i j. unfold block_add. rewrite Hacc.
      rewrite <- Z.add_assoc. f_equal. f_equal.
      unfold tl_dot_T. apply sum_to_ext. intros kk _.
      unfold tl_load. rewrite Ha, Hb. reflexivity.
Qed.

Lemma range3_length (start stop step : Z) :
  length (range3 start stop step) = range_len start stop step.
Proof. unfold range3. rewrite length_map, length_seq. reflexivity. Qed.

Lemma wrap32_small (x : Z) : -2147483648 <= x < 2147483648 -> wrap32 x = x.
Proof. intros H. unfold wrap32. rewrite Z.mod_small by lia. lia. Qed.

(** A product of a row below [rows] and a non-negative row length does not
    wrap when [rows] such rows fit. *)
Lemma wrap32_row (r n rows : Z) :
  0 <= r < rows -> 0 <= n -> rows * n <= 2147483648 -> wrap32 (r * n) = r * n.
Proof. intros Hr Hn Hb. apply wrap32_small. nia. Qed.

(** The manual-path accumulator of an unmasked lane reads the two input
    rows at its wrapped row offsets, whatever the masked lanes hold. *)
Lemma acc_manual_lane (p : kernel_args) (off m_size n_size tm tn i j : Z) :
  tm * BLOCK_SIZE_M p + i < m_size ->
  tn * BLOCK_SIZE_N p + j < n_size ->
  acc_manual p off m_size n_size tm tn i j
  = sum_to (range_len 0 (K p) (BLOCK_SIZE_K p))
      (fun z =>
         sum_to (Z.to_nat (BLOCK_SIZE_K p))
           (fun kk =>
              desc_mem (a_desc_ptr p)
                (wrap32 ((off + (tm * BLOCK_SIZE_M p + i)) * K p) + kk
                 + z * BLOCK_SIZE_K p)
              * desc_mem (b_desc_ptr p)
                  (wrap32 ((tn * BLOCK_SIZE_N p + j) * K p) + kk
                   + z * BLOCK_SIZE_K p))).
Proof.
  intros Hi Hj.
  unfold acc_manual.
  pose proof (manual_fold (desc_mem (a_desc_ptr p)) (desc_mem (b_desc_ptr p))
                (undef p) (BLOCK_SIZE_K p)
                (fun i _ => tm * BLOCK_SIZE_M p + i <? m_size)
                (fun j _ => tn * BLOCK_SIZE_N p + j <? n_size)
                tl_zeros
                (fun i k => wrap32 ((off + (tm * BLOCK_SIZE_M p + i)) * K p) + k)
                (fun j k => wrap32 ((tn * BLOCK_SIZE_N p + j) * K p) + k)
                (range3 0 (K p) (BLOCK_SIZE_K p))) as H.
  cbv zeta in H. destruct H as (_ & _ & H).
  unfold manual_step in H.
  etransitivity; [apply H|]. clear H.
  unfold tl_zeros. rewrite range3_length. simpl.
  apply sum_to_ext. intros z Hz.
  apply sum_to_ext. intros kk Hkk.
  unfold tl_load.
  replace (tm * BLOCK_SIZE_M p + i <? m_size) with true
    by (symmetry; apply Z.ltb_lt; lia).
  replace (tn * BLOCK_SIZE_N p + j <? n_size) with true
    by (symmetry; apply Z.ltb_lt; lia).
  reflexivity.
Qed.

(** Where neither row offset wraps, it is the full dot product. *)
Lemma acc_manual_val (p : kernel_args) (off m_size n_size tm tn i j : Z) :
  0 < BLOCK_SIZE_K p -> 0 <= K p -> K p mod BLOCK_SIZE_K p = 0 ->
  tm * BLOCK_SIZE_M p + i < m_size ->
  tn * BLOCK_SIZE_N p + j < n_size ->
  wrap32 ((off + (tm * BLOCK_SIZE_M p + i)) * K p)
  = (off + (tm * BLOCK_SIZE_M p + i)) * K p ->
  wrap32 ((tn * BLOCK_SIZE_N p + j) * K p) = (tn * BLOCK_SIZE_N p + j) * K p ->
  acc_manual p off m_size n_size tm tn i j
  = dot_row (desc_mem (a_desc_ptr p)) (desc_mem (b_desc_ptr p)) (K p)
            (off + (tm * BLOCK_SIZE_M p + i)) (tn * BLOCK_SIZE_N p + j).
Proof.
  intros HBK HK Hmod Hi Hj Wa Wb.
  rewrite acc_manual_lane by assumption. rewrite Wa, Wb.
  unfold dot_row.
  rewrite range_len_exact by assumption.
  rewrite <- (blocks_cover (K p) (BLOCK_SIZE_K p)) by assumption.
  rewrite <- sum_to_blocks.
  apply sum_to_ext. intros z Hz.
  apply sum_to_ext. intros kk Hkk.
  rewrite Z2Nat.id by lia.
  f_equal; f_equal; lia.
Qed.

(** The accumulator of a lane inside the group and inside the matrix,
    on either load path; on the manual path the two inputs fit 32-bit
    offsets. *)
Lemma accumulate_val (p : kernel_args) (off m_size tm tn i j : Z) :
  0 < BLOCK_SIZE_K p -> 0 <= K p -> K p mod BLOCK_SIZE_K p = 0 ->
  desc_cols (a_desc_ptr p) = K p -> desc_cols (b_desc_ptr p) = K p ->
  off + m_size <= desc_rows (a_desc_ptr p) -> N p <= desc_rows (b_desc_ptr p) ->
  (USE_TMA_LOAD p = false ->
   desc_rows (a_desc_ptr p) * K p <= 2147483648 /\
   desc_rows (b_desc_ptr p) * K p <= 2147483648) ->
  0 <= off -> 0 <= tm * BLOCK_SIZE_M p + i < m_size ->
  0 <= tn * BLOCK_SIZE_N p + j < N p ->
  accumulate p off m_size (N p) tm tn i j
  = dot_row (desc_mem (a_desc_ptr p)) (desc_mem (b_desc_ptr p)) (K p)
            (off + (tm * BLOCK_SIZE_M p + i)) (tn * BLOCK_SIZE_N p + j).
Proof.
  intros HBK HK Hmod Hca Hcb Hra Hrb Hfit Hoff Hi Hj.
  unfold accumulate. destruct (USE_TMA_LOAD p).
  - rewrite acc_tma_val by (try assumption; lia).
    f_equal; lia.
  - destruct (Hfit eq_refl) as [Fa Fb].
    apply acc_manual_val; try assumption; try lia.
    + apply (wrap32_row _ _ (desc_rows (a_desc_ptr p))); lia.
    + apply (wrap32_row _ _ (desc_rows (b_desc_ptr p))); lia.
Qed.

(** ** Stores *)

Lemma in_arange (n i : Z) : In i (arange n) <-> 0 <= i < n.
Proof.
  unfold arange. rewrite in_map_iff. split.
  - intros (k & <- & Hk). apply in_seq in Hk. lia.
  - intros Hi. exists (Z.to_nat i). split; [lia|]. apply in_seq. lia.
Qed.

Lemma flat_map_ext_on {A B} (f g : A -> list B) (l : list A) :
  (forall a, In a l -> f a = g a) -> flat_map f l = flat_map g l.
Proof.
  induction l as [|a l IH]; intros H; simpl; [reflexivity|].
  rewrite (H a) by (left; reflexivity). f_equal.
  apply IH. intros b Hb. apply H. right. exact Hb.
Qed.

Lemma in_tl_store (BM BN : Z) (ptrs vals : block) (mask : Z -> Z -> bool) (a v : Z) :
  In (a, v) (tl_store BM BN ptrs vals mask) <->
  exists i j, 0 <= i < BM /\ 0 <= j < BN /\ mask i j = true /\
              a = ptrs i j /\ v = vals i j.
Proof.
  unfold tl_store. rewrite in_flat_map. split.
  - intros (i & Hi & H). apply in_flat_map in H. destruct H as (j & Hj & H).
    apply in_arange in Hi. apply in_arange in Hj.
    destruct (mask i j) eqn:E; [|contradiction].
    destruct H as [H|[]]. inversion H; subst.
    exists i, j. auto.
  - intros (i & j & Hi & Hj & Hm & -> & ->).
    exists i. split; [apply in_arange; exact Hi|].
    apply in_flat_map. exists j. split; [apply in_arange; exact Hj|].
    rewrite Hm. left. reflexivity.
Qed.

Lemma write_all_app (ws1 ws2 : writes) (m : mem) :
  write_all (ws1 ++ ws2) m = write_all ws2 (write_all ws1 m).
Proof. unfold write_all. apply fold_left_app. Qed.

(** Offsets no write of the list names keep their contents. *)
Lemma write_all_frame (ws : writes) (m : mem) (a : Z) :
  (forall w, In w ws -> fst w <> a) -> write_all ws m a = m a.
Proof.
  revert m. induction ws as [|w ws IH]; intros m H; simpl; [reflexivity|].
  unfold write_all in *. simpl. rewrite IH.
  - unfold upd. destruct (a =? fst w) eqn:E; [|reflexivity].
    apply Z.eqb_eq in E. exfalso. apply (H w); [left; reflexivity|congruence].
  - intros w' Hw'. apply H. right. exact Hw'.
Qed.

(** An offset that is written, and only ever with [v], holds [v]. *)
Lemma write_all_val (ws : writes) (m : mem) (a v : Z) :
  (exists w, In w ws /\ fst w = a) ->
  (forall w, In w ws -> fst w = a -> snd w = v) ->
  write_all ws m a = v.
Proof.
  revert m. induction ws as [|w ws IH] using rev_ind; intros m (w0 & Hin & Ha) Hv.
  - contradiction.
  - rewrite write_all_app. unfold write_all at 1. simpl. unfold upd.
    destruct (a =? fst w) eqn:E.
    + apply Z.eqb_eq in E. apply Hv; [apply in_or_app; right; left; reflexivity|congruence].
    + apply Z.eqb_neq in E. apply IH.
      * apply in_app_or in Hin. destruct Hin as [Hin|[<-|[]]].
        -- exists w0. auto.
        -- congruence.
      * intros w' Hw'. apply Hv. apply in_or_app. left. exact Hw'.
Qed.

Lemma row_col_of_offset (n r c : Z) :
  0 <= c < n -> (r * n + c) / n = r /\ (r * n + c) mod n = c.
Proof.
  intros Hc. split.
  - symmetry. apply (Z.div_unique_pos (r * n + c) n r c); lia.
  - symmetry. apply (Z.mod_unique_pos (r * n + c) n r c); lia.
Qed.

(** ** The footprint of a tile *)

(** The store of a tile inside the kernel is the store of the tile's
    record. *)
Lemma store_tile_is_tile_store (p : kernel_args) (d : out_desc) (g : nat)
    (off m_size tm tn : Z) (c : block) :
  m_size = nth g (m_sizes p) 0 ->
  (USE_TMA_STORE p = true ->
   d = tensormap_create2d (wrap32 (off * N p)) m_size (N p)) ->
  store_tile p d off m_size (N p) tm tn c
  = tile_store p {| t_group := g; t_row_offset := off; t_m_idx := tm; t_n_idx := tn |} c.
Proof.
  intros Hms Hd. unfold tile_store, tile_msize. simpl. rewrite <- Hms.
  unfold store_tile. destruct (USE_TMA_STORE p); [rewrite (Hd eq_refl)|]; reflexivity.
Qed.

(** With the descriptor the kernel creates for the group, and as long as
    the tile's offsets do not wrap, the bulk store and the masked pointer
    store both perform exactly the writes [tile_writes]. *)
Lemma store_tile_canon (p : kernel_args) (d : out_desc) (g : nat)
    (off m_size tm tn : Z) (c : block) :
  let t := {| t_group := g; t_row_offset := off; t_m_idx := tm; t_n_idx := tn |} in
  0 <= tm * BLOCK_SIZE_M p -> 0 <= tn * BLOCK_SIZE_N p ->
  m_size = nth g (m_sizes p) 0 ->
  (USE_TMA_STORE p = true ->
   d = tensormap_create2d (wrap32 (off * N p)) m_size (N p)) ->
  tile_fits p t ->
  store_tile p d off m_size (N p) tm tn c = tile_writes p c t.
Proof.
  intros t Htm Htn Hms Hd Hfit.
  unfold t, tile_fits, store_tile, tile_writes, tile_msize in *. simpl in *.
  rewrite <- Hms in *.
  destruct (USE_TMA_STORE p).
  - rewrite (Hd eq_refl). rewrite wrap32_small by lia.
    unfold descriptor_store, tl_store, store_mask. simpl.
    apply flat_map_ext_on. intros i Hi. apply in_arange in Hi.
    apply flat_map_ext_on. intros j Hj. apply in_arange in Hj.
    replace (0 <=? tm * BLOCK_SIZE_M p + i) with true by (symmetry; apply Z.leb_le; lia).
    replace (0 <=? tn * BLOCK_SIZE_N p + j) with true by (symmetry; apply Z.leb_le; lia).
    simpl. rewrite andb_true_r.
    destruct ((tm * BLOCK_SIZE_M p + i <? m_size) && (tn * BLOCK_SIZE_N p + j <? N p));
      [|reflexivity].
    f_equal. f_equal. lia.
  - unfold tl_store.
    apply flat_map_ext_on. intros i Hi. apply in_arange in Hi.
    apply flat_map_ext_on. intros j Hj. apply in_arange in Hj.
    destruct (store_mask p m_size (N p) tm tn i j) eqn:E; [|reflexivity].
    unfold store_mask in E. apply andb_true_iff in E. rewrite !Z.ltb_lt in E.
    rewrite wrap32_small by nia. reflexivity.
Qed.

Lemma tile_store_canon (p : kernel_args) (t : tile) (c : block) :
  0 <= t_m_idx t * BLOCK_SIZE_M p -> 0 <= t_n_idx t * BLOCK_SIZE_N p ->
  tile_fits p t ->
  tile_store p t c = tile_writes p c t.
Proof.
  intros Hm Hn Hfit. unfold tile_store.
  destruct t as [g off tm tn]. simpl in *.
  apply (store_tile_canon p _ g off _ tm tn c); try assumption; reflexivity.
Qed.

Lemma map_flat_map {A B C} (f : B -> C) (g : A -> list B) (l : list A) :
  map f (flat_map g l) = flat_map (fun x => map f (g x)) l.
Proof.
  induction l as [|a l IH]; simpl; [reflexivity|]. rewrite map_app, IH. reflexivity.
Qed.

(** Which offsets a tile's store writes does not depend on the block it
    stores. *)
Lemma tile_store_offsets (p : kernel_args) (t : tile) (c c' : block) :
  map fst (tile_store p t c) = map fst (tile_store p t c').
Proof.
  unfold tile_store, store_tile.
  destruct (USE_TMA_STORE p); unfold descriptor_store, tl_store;
    rewrite !map_flat_map; apply flat_map_ext_on; intros i _;
    rewrite !map_flat_map; apply flat_map_ext_on; intros j _; simpl;
    match goal with |- context [if ?b then _ else _] => destruct b end; reflexivity.
Qed.

(** An offset a tile's store writes is one [covers] names. *)
Lemma covers_written (p : kernel_args) (t : tile) (c : block) (a v : Z) :
  In (a, v) (tile_store p t c) -> covers p t a = true.
Proof.
  intros Hin. unfold covers. apply existsb_exists.
  assert (Ha : In a (map fst (tile_store p t tl_zeros))).
  { rewrite <- (tile_store_offsets p t c). apply in_map_iff. exists (a, v). auto. }
  apply in_map_iff in Ha. destruct Ha as (w & Hw & Hin').
  exists w. split; [exact Hin'|]. apply Z.eqb_eq. exact Hw.
Qed.

Lemma covers_store (p : kernel_args) (t : tile) (c : block) (a : Z) :
  covers p t a = true -> exists v, In (a, v) (tile_store p t c).
Proof.
  intros Hc. unfold covers in Hc. apply existsb_exists in Hc.
  destruct Hc as ([a' v'] & Hin & Ha). simpl in Ha. apply Z.eqb_eq in Ha. subst a'.
  assert (Hm : In a (map fst (tile_store p t c))).
  { rewrite (tile_store_offsets p t c tl_zeros). apply in_map_iff. exists (a, v'). auto. }
  apply in_map_iff in Hm. destruct Hm as ([a' v] & Hw & Hin'). simpl in Hw. subst a'.
  exists v. exact Hin'.
Qed.

Lemma in_tile_spec (p : kernel_args) (t : tile) (a : Z) :
  in_tile p t a = true <->
  0 < N p /\
  0 <= lane_row p t a < BLOCK_SIZE_M p /\
  t_m_idx t * BLOCK_SIZE_M p + lane_row p t a < tile_msize p t /\
  0 <= lane_col p t a < BLOCK_SIZE_N p.
Proof.
  unfold in_tile, lane_row, lane_col.
  rewrite !andb_true_iff, !Z.ltb_lt, !Z.leb_le. lia.
Qed.

(** Every write of a tile lands in its footprint and carries the value of
    the lane that owns the offset. *)
Lemma tile_writes_in (p : kernel_args) (c : block) (t : tile) (a v : Z) :
  0 <= t_n_idx t * BLOCK_SIZE_N p ->
  In (a, v) (tile_writes p c t) ->
  in_tile p t a = true /\ v = c (lane_row p t a) (lane_col p t a).
Proof.
  intros Htn Hin. unfold tile_writes in Hin. apply in_tl_store in Hin.
  destruct Hin as (i & j & Hi & Hj & Hm & Ha & Hv).
  unfold store_mask in Hm. apply andb_true_iff in Hm.
  rewrite !Z.ltb_lt in Hm. destruct Hm as [Hmi Hmj].
  destruct (row_col_of_offset (N p)
              (t_row_offset t + (t_m_idx t * BLOCK_SIZE_M p + i))
              (t_n_idx t * BLOCK_SIZE_N p + j) ltac:(lia)) as [Hr Hc].
  rewrite <- Ha in Hr, Hc.
  assert (Hlr : lane_row p t a = i) by (unfold lane_row; lia).
  assert (Hlc : lane_col p t a = j) by (unfold lane_col; lia).
  split.
  - apply in_tile_spec. rewrite Hlr, Hlc. lia.
  - rewrite Hlr, Hlc. exact Hv.
Qed.

(** Every offset of the footprint is written. *)
Lemma tile_writes_covered (p : kernel_args) (c : block) (t : tile) (a : Z) :
  0 <= t_n_idx t * BLOCK_SIZE_N p ->
  in_tile p t a = true ->
  In (a, c (lane_row p t a) (lane_col p t a)) (tile_writes p c t).
Proof.
  intros Htn Hc. apply in_tile_spec in Hc. destruct Hc as (HN & Hr & Hm & Hcl).
  unfold tile_writes. apply in_tl_store.
  exists (lane_row p t a), (lane_col p t a).
  pose proof (Z.mod_pos_bound a (N p) HN) as Hmod.
  repeat split; try lia.
  - unfold store_mask. apply andb_true_iff. rewrite !Z.ltb_lt.
    unfold lane_col in *. lia.
  - unfold lane_row, lane_col.
    pose proof (Z.div_mod a (N p) ltac:(lia)). lia.
Qed.

(** The effect of one tile's store on the output buffer. *)
Lemma tile_writes_effect (p : kernel_args) (c : block) (t : tile) (m : mem) (a : Z) :
  0 <= t_n_idx t * BLOCK_SIZE_N p ->
  write_all (tile_writes p c t) m a
  = if in_tile p t a then c (lane_row p t a) (lane_col p t a) else m a.
Proof.
  intros Htn. destruct (in_tile p t a) eqn:E.
  - apply write_all_val.
    + exists (a, c (lane_row p t a) (lane_col p t a)). split; [|reflexivity].
      apply tile_writes_covered; assumption.
    + intros [a' v'] Hin Ha. simpl in *. subst a'.
      apply tile_writes_in in Hin; [|assumption]. tauto.
  - apply write_all_frame. intros [a' v'] Hin Ha. simpl in Ha. subst a'.
    apply tile_writes_in in Hin; [|assumption]. destruct Hin as [Hc _]. congruence.
Qed.

(** As long as the offsets of a tile do not wrap, its store writes exactly
    the tile's part of the group's rows. *)
Lemma covers_in_tile (p : kernel_args) (t : tile) (a : Z) :
  0 <= t_m_idx t * BLOCK_SIZE_M p -> 0 <= t_n_idx t * BLOCK_SIZE_N p ->
  tile_fits p t ->
  covers p t a = in_tile p t a.
Proof.
  intros Hm Hn Hfit.
  destruct (in_tile p t a) eqn:E.
  - apply (covers_written p t tl_zeros a (tl_zeros (lane_row p t a) (lane_col p t a))).
    rewrite tile_store_canon by assumption.
    apply tile_writes_covered; assumption.
  - destruct (covers p t a) eqn:C; [exfalso|reflexivity].
    destruct (covers_store p t tl_zeros a C) as [v Hin].
    rewrite tile_store_canon in Hin by assumption.
    apply tile_writes_in in Hin; [|assumption]. destruct Hin as [Hc _]. congruence.
Qed.

Lemma tile_store_effect (p : kernel_args) (c : block) (t : tile) (m : mem) (a : Z) :
  0 <= t_m_idx t * BLOCK_SIZE_M p -> 0 <= t_n_idx t * BLOCK_SIZE_N p ->
  tile_fits p t ->
  write_all (tile_store p t c) m a
  = if in_tile p t a then c (lane_row p t a) (lane_col p t a) else m a.
Proof.
  intros Hm Hn Hfit. rewrite tile_store_canon by assumption.
  apply tile_writes_effect. assumption.
Qed.

(** ** A run as the replay of its tile log *)

Lemma extends_refl p blk st : extends p blk st st.
Proof.
  exists []. rewrite app_nil_r. repeat split. constructor.
Qed.

Lemma extends_set_desc p blk st0 st d :
  extends p blk st0 st -> extends p blk st0 (set_desc st d).
Proof. intros H. exact H. Qed.

Lemma replay_app p blk l1 l2 m :
  replay p blk (l1 ++ l2) m = replay p blk l2 (replay p blk l1 m).
Proof. unfold replay. apply fold_left_app. Qed.

Lemma extends_commit p blk st0 st g off m_size tm tn c :
  let t := {| t_group := g; t_row_offset := off; t_m_idx := tm; t_n_idx := tn |} in
  0 <= BLOCK_SIZE_M p -> 0 <= BLOCK_SIZE_N p ->
  tile_wf p t ->
  m_size = nth g (m_sizes p) 0 ->
  (USE_TMA_STORE p = true ->
   c_desc st = tensormap_create2d (wrap32 (off * N p)) m_size (N p)) ->
  c = blk t ->
  extends p blk st0 st ->
  extends p blk st0 (commit_tile p g off m_size (N p) tm tn c st).
Proof.
  intros t HBM HBN Hwf Hms Hd Hc (l & Hv & Hm & Hl).
  exists (l ++ [t]). unfold commit_tile. simpl. repeat split.
  - rewrite Hv, app_assoc. reflexivity.
  - rewrite replay_app. simpl. rewrite <- Hm, <- Hc.
    rewrite (store_tile_is_tile_store p (c_desc st) g off m_size tm tn c);
      try assumption.
    reflexivity.
  - apply Forall_app. split; [assumption|]. constructor; [assumption|constructor].
Qed.

(** ** Ranges, tile counts and group offsets *)

Lemma range_len_bound (start stop step : Z) (i : nat) :
  0 < step ->
  ((i < range_len start stop step)%nat <-> start + Z.of_nat i * step < stop).
Proof.
  intros Hs. unfold range_len.
  set (q := (stop - start + step - 1) / step).
  assert (Hq : step * q <= stop - start + step - 1 < step * (q + 1)).
  { unfold q.
    pose proof (Z.mul_div_le (stop - start + step - 1) step Hs).
    pose proof (Z.mul_succ_div_gt (stop - start + step - 1) step Hs).
    lia. }
  split; intros H.
  - assert (Z.of_nat i < q) by lia. nia.
  - assert (Z.of_nat i < q) by nia. lia.
Qed.

Lemma in_range3 (start stop step x : Z) :
  0 < step ->
  (In x (range3 start stop step) <->
   start <= x < stop /\ (x - start) mod step = 0).
Proof.
  intros Hs. unfold range3. rewrite in_map_iff. split.
  - intros (i & <- & Hi). apply in_seq in Hi.
    assert (Hlt : (i < range_len start stop step)%nat) by lia.
    apply range_len_bound in Hlt; [|assumption].
    split; [nia|].
    replace (start + Z.of_nat i * step - start) with (Z.of_nat i * step) by lia.
    apply Z.mod_mul. lia.
  - intros (Hx & Hmod).
    pose proof (Z.div_mod (x - start) step ltac:(lia)) as Hdm. rewrite Hmod in Hdm.
    assert (Hq : 0 <= (x - start) / step) by (apply Z.div_pos; lia).
    exists (Z.to_nat ((x - start) / step)). split.
    + rewrite Z2Nat.id by assumption. lia.
    + apply in_seq. split; [lia|]. simpl.
      apply range_len_bound; [assumption|].
      rewrite Z2Nat.id by assumption. lia.
Qed.

Lemma cdiv_pos (x d : Z) : 0 < x -> 0 < d -> 0 < cdiv x d.
Proof.
  intros Hx Hd. unfold cdiv.
  apply Z.div_str_pos. lia.
Qed.

(** [cdiv x d] tiles of width [d] cover [0, x). *)
Lemma cdiv_covers (x d r : Z) : 0 < d -> 0 <= r < x -> r / d < cdiv x d.
Proof.
  intros Hd Hr. unfold cdiv.
  apply Z.div_lt_upper_bound; [assumption|].
  pose proof (Z.mul_succ_div_gt (x + d - 1) d Hd).
  pose proof (Z.mul_div_le r d Hd).
  pose proof (Z.div_le_mono r (x + d - 1) d Hd ltac:(lia)).
  nia.
Qed.

Lemma tile_split (idx num_m num_n : Z) :
  0 < num_m -> 0 <= idx < num_m * num_n ->
  0 <= idx mod num_m < num_m /\ 0 <= idx / num_m < num_n.
Proof.
  intros Hm Hidx. split.
  - apply Z.mod_pos_bound. assumption.
  - split; [apply Z.div_pos; lia|].
    apply Z.div_lt_upper_bound; lia.
Qed.

Lemma group_offset_S (ms : list Z) (g : nat) :
  group_offset ms (S g) = group_offset ms g + nth g ms 0.
Proof.
  unfold group_offset. revert g. induction ms as [|m ms IH]; intros g.
  - destruct g; reflexivity.
  - destruct g as [|g].
    + simpl. lia.
    + rewrite !firstn_cons. cbn [fold_right nth]. rewrite IH. lia.
Qed.

(** ** The plain kernel replays its log *)

Lemma plain_tiles_extends (p : kernel_args) (st0 : kstate) (g : nat)
    (off m_size : Z) (l : list Z) :
  0 < BLOCK_SIZE_M p -> 0 < BLOCK_SIZE_N p ->
  (g < G p)%nat -> m_size = nth g (m_sizes p) 0 -> 0 < m_size ->
  off = group_offset (m_sizes p) g ->
  (forall idx, In idx l ->
     0 <= idx < cdiv m_size (BLOCK_SIZE_M p) * cdiv (N p) (BLOCK_SIZE_N p)) ->
  forall st,
    (USE_TMA_STORE p = true ->
     c_desc st = tensormap_create2d (wrap32 (off * N p)) m_size (N p)) ->
    extends p (plain_block p) st0 st ->
    extends p (plain_block p) st0
      (fold_left (plain_tile p g off m_size (N p) (cdiv m_size (BLOCK_SIZE_M p))) l st).
Proof.
  intros HBM HBN Hg Hms Hpos Hoff. induction l as [|idx l IH]; intros Hl st Hd He.
  - exact He.
  - simpl. apply IH.
    + intros i Hi. apply Hl. right. exact Hi.
    + exact Hd.
    + unfold plain_tile.
      destruct (tile_split idx (cdiv m_size (BLOCK_SIZE_M p)) (cdiv (N p) (BLOCK_SIZE_N p)))
        as [Hm Hn].
      * apply cdiv_pos; assumption.
      * apply Hl. left. reflexivity.
      * apply extends_commit; try assumption; try lia.
        -- unfold tile_wf, tile_msize. simpl. rewrite <- Hms. auto.
        -- unfold plain_block, tile_msize. simpl. rewrite <- Hms. reflexivity.
Qed.

Lemma plain_group_extends (p : kernel_args) (pid num_pid : Z) (st0 st : kstate) (g : nat) :
  0 < BLOCK_SIZE_M p -> 0 < BLOCK_SIZE_N p ->
  0 <= pid -> 0 < num_pid -> (g < G p)%nat ->
  extends p (plain_block p) st0 st ->
  let s' := plain_group p pid num_pid (group_offset (m_sizes p) g, st) g in
  fst s' = group_offset (m_sizes p) (S g) /\ extends p (plain_block p) st0 (snd s').
Proof.
  intros HBM HBN Hpid Hnum Hg He. unfold plain_group.
  rewrite group_offset_S.
  destruct (nth g (m_sizes p) 0 >? 0) eqn:E; simpl; split; try reflexivity; try assumption.
  apply Z.gtb_lt in E.
  apply plain_tiles_extends; try assumption; try reflexivity.
  - intros idx Hin. apply in_range3 in Hin; [|assumption]. lia.
  - intros Hs. rewrite Hs. reflexivity.
  - destruct (USE_TMA_STORE p); [apply extends_set_desc|]; assumption.
Qed.

Lemma plain_groups_extends (p : kernel_args) (pid num_pid : Z) (st0 st : kstate) (n : nat) :
  0 < BLOCK_SIZE_M p -> 0 < BLOCK_SIZE_N p ->
  0 <= pid -> 0 < num_pid -> (n <= G p)%nat ->
  extends p (plain_block p) st0 st ->
  let s' := fold_left (plain_group p pid num_pid) (seq 0 n) (0, st) in
  fst s' = group_offset (m_sizes p) n /\ extends p (plain_block p) st0 (snd s').
Proof.
  intros HBM HBN Hpid Hnum Hn He. induction n as [|n IH].
  - simpl. split; [reflexivity|assumption].
  - rewrite seq_S, fold_left_app. simpl.
    destruct IH as [Hoff He']; [lia|].
    destruct (fold_left (plain_group p pid num_pid) (seq 0 n) (0, st)) as [off st'].
    simpl in Hoff, He'. subst off.
    apply plain_group_extends; try assumption; try lia.
Qed.

Lemma kernel_plain_extends (p : kernel_args) (pid num_pid : Z) (st0 st : kstate) :
  0 < BLOCK_SIZE_M p -> 0 < BLOCK_SIZE_N p ->
  0 <= pid -> 0 < num_pid ->
  extends p (plain_block p) st0 st ->
  extends p (plain_block p) st0 (_kernel_grouped_gemm p pid num_pid st).
Proof.
  intros HBM HBN Hpid Hnum He. unfold _kernel_grouped_gemm.
  apply plain_groups_extends; try assumption; try lia.
  destruct (USE_TMA_STORE p); [apply extends_set_desc|]; assumption.
Qed.

Lemma launch_plain_extends (p : kernel_args) (grid : Z) (y : mem) (st : kstate) :
  0 < BLOCK_SIZE_M p -> 0 < BLOCK_SIZE_N p ->
  launch_plain p grid y = Done st ->
  extends p (plain_block p) (init_state p y) st.
Proof.
  intros HBM HBN. unfold launch_plain.
  destruct (K p mod BLOCK_SIZE_K p =? 0); [|discriminate].
  intros H. inversion H as [H']. clear H H'.
  assert (Hgen : forall l st1,
            (forall pid, In pid l -> 0 <= pid < grid) ->
            extends p (plain_block p) (init_state p y) st1 ->
            extends p (plain_block p) (init_state p y)
              (fold_left (fun st pid => _kernel_grouped_gemm p pid grid st) l st1)).
  { induction l as [|pid l IH]; intros st1 Hl He; simpl; [assumption|].
    apply IH; [intros q Hq; apply Hl; right; exact Hq|].
    pose proof (Hl pid (or_introl eq_refl)).
    apply kernel_plain_extends; try assumption; lia. }
  apply Hgen; [|apply extends_refl].
  intros pid Hin. apply in_arange in Hin. exact Hin.
Qed.

(** ** The fp8 kernel replays its log, and terminates *)

Lemma fp8_while_extends (p : kernel_args) (st0 : kstate) (g : nat)
    (off m_size it : Z) (fuel : nat) :
  0 < BLOCK_SIZE_M p -> 0 < BLOCK_SIZE_N p ->
  (g < G p)%nat -> m_size = nth g (m_sizes p) 0 -> 0 < m_size ->
  off = group_offset (m_sizes p) g ->
  forall tidx st r,
    (USE_TMA_STORE p = true ->
     c_desc st = tensormap_create2d (wrap32 (off * N p)) m_size (N p)) ->
    extends p (fp8_block p) st0 st ->
    fp8_while fuel p g off m_size (N p) (cdiv m_size (BLOCK_SIZE_M p))
      (cdiv m_size (BLOCK_SIZE_M p) * cdiv (N p) (BLOCK_SIZE_N p)) it tidx st = Some r ->
    extends p (fp8_block p) st0 (snd r).
Proof.
  intros HBM HBN Hg Hms Hpos Hoff.
  induction fuel as [|fuel IH]; intros tidx st r Hd He; simpl;
    destruct ((tidx >=? it)
              && (tidx <? it + cdiv m_size (BLOCK_SIZE_M p) * cdiv (N p) (BLOCK_SIZE_N p)))
      eqn:E; intros H; try discriminate;
    try (inversion H; subst; exact He).
  eapply IH; [| |exact H]; [exact Hd|].
  apply andb_true_iff in E. destruct E as [E1 E2].
  apply Z.geb_le in E1. apply Z.ltb_lt in E2.
  unfold fp8_tile.
  destruct (tile_split (tidx - it) (cdiv m_size (BLOCK_SIZE_M p))
              (cdiv (N p) (BLOCK_SIZE_N p))) as [Hm Hn].
  - apply cdiv_pos; assumption.
  - lia.
  - apply extends_commit; try assumption; try lia.
    + unfold tile_wf, tile_msize. simpl. rewrite <- Hms. auto.
    + unfold fp8_block, plain_block, tile_msize. simpl. rewrite <- Hms. reflexivity.
Qed.

Lemma fp8_while_total (p : kernel_args) (g : nat)
    (off m_size n_size num_m num_tiles it : Z) (fuel : nat) :
  0 < NUM_SMS p ->
  forall tidx st,
    tidx < it \/ it + num_tiles - tidx <= Z.of_nat fuel ->
    exists r, fp8_while fuel p g off m_size n_size num_m num_tiles it tidx st = Some r.
Proof.
  intros HS. induction fuel as [|fuel IH]; intros tidx st Hf; simpl;
    destruct ((tidx >=? it) && (tidx <? it + num_tiles)) eqn:E;
    try (eexists; reflexivity);
    apply andb_true_iff in E; destruct E as [E1 E2];
    apply Z.geb_le in E1; apply Z.ltb_lt in E2.
  - lia.
  - apply IH. lia.
Qed.

Lemma fp8_group_extends (p : kernel_args) (st0 : kstate) (s s' : fp8_loop) (g : nat) :
  0 < BLOCK_SIZE_M p -> 0 < BLOCK_SIZE_N p -> (g < G p)%nat ->
  f_M_end_offset s = group_offset (m_sizes p) g ->
  extends p (fp8_block p) st0 (f_st s) ->
  fp8_group p (Some s) g = Some s' ->
  f_M_end_offset s' = group_offset (m_sizes p) (S g) /\
  extends p (fp8_block p) st0 (f_st s').
Proof.
  intros HBM HBN Hg Hoff He. unfold fp8_group.
  rewrite group_offset_S, Hoff.
  destruct (nth g (m_sizes p) 0 >? 0) eqn:E.
  - apply Z.gtb_lt in E.
    match goal with
    | |- context [fp8_while ?f ?a ?b ?c ?d ?e ?h ?i ?j ?k ?l] =>
        destruct (fp8_while f a b c d e h i j k l) as [[tidx st1]|] eqn:W
    end; [|discriminate].
    intros H. inversion H; subst; clear H. simpl. split; [reflexivity|].
    apply (fp8_while_extends p st0) in W; try assumption; try reflexivity.
    + intros Hs. rewrite Hs. reflexivity.
    + destruct (USE_TMA_STORE p); [apply extends_set_desc|]; assumption.
  - intros H. inversion H; subst; clear H. simpl. split; [reflexivity|assumption].
Qed.

Lemma fp8_group_total (p : kernel_args) (s : fp8_loop) (g : nat) :
  0 < NUM_SMS p -> exists s', fp8_group p (Some s) g = Some s'.
Proof.
  intros HS. unfold fp8_group.
  destruct (nth g (m_sizes p) 0 >? 0); [|eexists; reflexivity].
  match goal with
  | |- context [fp8_while ?f ?a ?b ?c ?d ?e ?h ?i ?j ?k ?l] =>
      destruct (fp8_while_total a b c d e h i j f HS k l) as [[tidx st1] W]
  end.
  - destruct (Z_lt_dec (f_tidx s) (f_iterated_tiles s)); [left; assumption|right; lia].
  - rewrite W. eexists; reflexivity.
Qed.

Lemma fp8_groups_extends (p : kernel_args) (st0 : kstate) (s0 s' : fp8_loop) (n : nat) :
  0 < BLOCK_SIZE_M p -> 0 < BLOCK_SIZE_N p -> (n <= G p)%nat ->
  f_M_end_offset s0 = 0 ->
  extends p (fp8_block p) st0 (f_st s0) ->
  fold_left (fp8_group p) (seq 0 n) (Some s0) = Some s' ->
  f_M_end_offset s' = group_offset (m_sizes p) n /\
  extends p (fp8_block p) st0 (f_st s').
Proof.
  intros HBM HBN Hn H0 He. revert s'. induction n as [|n IH]; intros s'.
  - simpl. intros H. inversion H; subst. split; [exact H0|exact He].
  - rewrite seq_S, fold_left_app. simpl.
    destruct (fold_left (fp8_group p) (seq 0 n) (Some s0)) as [s1|] eqn:F;
      [|discriminate].
    destruct (IH ltac:(lia) s1 eq_refl) as [Hoff He1].
    apply fp8_group_extends; try assumption; lia.
Qed.

Lemma fp8_groups_total (p : kernel_args) (s0 : fp8_loop) (l : list nat) :
  0 < NUM_SMS p -> exists s', fold_left (fp8_group p) l (Some s0) = Some s'.
Proof.
  intros HS. revert s0. induction l as [|g l IH]; intros s0; cbn [fold_left].
  - eexists; reflexivity.
  - destruct (fp8_group_total p s0 g HS) as [s1 H1].
    rewrite H1. apply IH.
Qed.

Lemma kernel_fp8_extends (p : kernel_args) (pid : Z) (st0 st st' : kstate) :
  0 < BLOCK_SIZE_M p -> 0 < BLOCK_SIZE_N p ->
  extends p (fp8_block p) st0 st ->
  _kernel_grouped_gemm_fp8_rowwise p pid st = Some st' ->
  extends p (fp8_block p) st0 st'.
Proof.
  intros HBM HBN He. unfold _kernel_grouped_gemm_fp8_rowwise.
  match goal with
  | |- context [fold_left ?f ?l ?s] => destruct (fold_left f l s) as [s'|] eqn:F
  end; simpl; [|discriminate].
  intros H. inversion H; subst; clear H.
  apply fp8_groups_extends with (st0 := st0) in F; try assumption; try reflexivity.
  - tauto.
  - simpl. destruct (USE_TMA_STORE p); [apply extends_set_desc|]; assumption.
Qed.

Lemma kernel_fp8_total (p : kernel_args) (pid : Z) (st : kstate) :
  0 < NUM_SMS p -> exists st', _kernel_grouped_gemm_fp8_rowwise p pid st = Some st'.
Proof.
  intros HS. unfold _kernel_grouped_gemm_fp8_rowwise.
  match goal with
  | |- context [fold_left ?f ?l (Some ?s)] =>
      destruct (fp8_groups_total p s l HS) as [s' F]
  end.
  rewrite F. simpl. eexists; reflexivity.
Qed.

Lemma launch_fp8_extends (p : kernel_args) (grid : Z) (y : mem) (st : kstate) :
  0 < BLOCK_SIZE_M p -> 0 < BLOCK_SIZE_N p ->
  launch_fp8 p grid y = Done st ->
  extends p (fp8_block p) (init_state p y) st.
Proof.
  intros HBM HBN. unfold launch_fp8.
  destruct (K p mod BLOCK_SIZE_K p =? 0); [|discriminate].
  assert (Hgen : forall l st1 st2,
            extends p (fp8_block p) (init_state p y) st1 ->
            fold_left (fun st pid =>
                         match st with
                         | None => None
                         | Some st => _kernel_grouped_gemm_fp8_rowwise p pid st
                         end) l (Some st1) = Some st2 ->
            extends p (fp8_block p) (init_state p y) st2).
  { induction l as [|pid l IH]; intros st1 st2 He; simpl.
    - intros H. inversion H; subst. exact He.
    - destruct (_kernel_grouped_gemm_fp8_rowwise p pid st1) as [st1'|] eqn:Kp.
      + apply IH. eapply kernel_fp8_extends; eauto.
      + intros H. exfalso. revert H. clear. induction l; simpl; auto. discriminate. }
  match goal with
  | |- context [fold_left ?f ?l ?s] => destruct (fold_left f l s) as [s'|] eqn:F
  end; [|discriminate].
  intros H. inversion H; subst; clear H.
  eapply Hgen; [apply extends_refl|exact F].
Qed.

Lemma launch_fp8_total (p : kernel_args) (grid : Z) (y : mem) :
  0 < NUM_SMS p -> K p mod BLOCK_SIZE_K p = 0 ->
  exists st, launch_fp8 p grid y = Done st.
Proof.
  intros HS HK. unfold launch_fp8.
  replace (K p mod BLOCK_SIZE_K p =? 0) with true by (symmetry; apply Z.eqb_eq; exact HK).
  assert (Hgen : forall l st1, exists st2,
            fold_left (fun st pid =>
                         match st with
                         | None => None
                         | Some st => _kernel_grouped_gemm_fp8_rowwise p pid st
                         end) l (Some st1) = Some st2).
  { induction l as [|pid l IH]; intros st1; simpl.
    - eexists; reflexivity.
    - destruct (kernel_fp8_total p pid st1 HS) as [st1' Kp]. rewrite Kp. apply IH. }
  destruct (Hgen (arange grid) (init_state p y)) as [st2 F].
  rewrite F. eexists; reflexivity.
Qed.

(** ** What a replayed log leaves in the buffer *)

Lemma tile_wf_tn (p : kernel_args) (t : tile) :
  0 <= BLOCK_SIZE_N p -> tile_wf p t -> 0 <= t_n_idx t * BLOCK_SIZE_N p.
Proof.
  intros HBN (_ & _ & _ & _ & Hn). apply Z.mul_nonneg_nonneg; lia.
Qed.

Lemma tile_wf_tm (p : kernel_args) (t : tile) :
  0 <= BLOCK_SIZE_M p -> tile_wf p t -> 0 <= t_m_idx t * BLOCK_SIZE_M p.
Proof.
  intros HBM (_ & _ & _ & Hm & _). apply Z.mul_nonneg_nonneg; lia.
Qed.

(** Offsets no tile of the log stores to keep their contents. *)
Lemma replay_frame_covers (p : kernel_args) (blk : tile -> block) (l : list tile)
    (m : mem) (a : Z) :
  (forall t, In t l -> covers p t a = false) ->
  replay p blk l m a = m a.
Proof.
  revert m. induction l as [|t l IH]; intros m Hc; simpl; [reflexivity|].
  unfold replay in *. simpl. rewrite IH.
  - apply write_all_frame. intros [a' v] Hin Ha. simpl in Ha. subst a'.
    apply covers_written in Hin. rewrite (Hc t) in Hin by (left; reflexivity).
    discriminate.
  - intros t' Ht'. apply Hc. right. exact Ht'.
Qed.

(** Two replays of one log that store the same writes tile by tile leave
    the same buffer. *)
Lemma replay_ext (p1 p2 : kernel_args) (blk1 blk2 : tile -> block) (l : list tile) (m : mem) :
  (forall t, In t l -> tile_store p1 t (blk1 t) = tile_store p2 t (blk2 t)) ->
  replay p1 blk1 l m = replay p2 blk2 l m.
Proof.
  revert m. induction l as [|t l IH]; intros m H; simpl; [reflexivity|].
  unfold replay in *. simpl. rewrite (H t) by (left; reflexivity).
  apply IH. intros t' Ht'. apply H. right. exact Ht'.
Qed.

(** Offsets outside every tile of the log keep their contents. *)
Lemma replay_frame (p : kernel_args) (blk : tile -> block) (l : list tile) (m : mem) (a : Z) :
  0 <= BLOCK_SIZE_M p -> 0 <= BLOCK_SIZE_N p ->
  Forall (tile_wf p) l -> Forall (tile_fits p) l ->
  (forall t, In t l -> in_tile p t a = false) ->
  replay p blk l m a = m a.
Proof.
  intros HBM HBN Hwf Hfit Hc. apply replay_frame_covers.
  rewrite Forall_forall in Hwf, Hfit.
  intros t Ht. rewrite covers_in_tile.
  - apply Hc. exact Ht.
  - apply tile_wf_tm; auto.
  - apply tile_wf_tn; auto.
  - auto.
Qed.

(** If every tile stores [F a] at each offset [a] of its footprint, then
    every offset inside some tile of the log holds [F a]. *)
Lemma replay_val (p : kernel_args) (blk : tile -> block) (F : Z -> Z)
    (l : list tile) (m : mem) (a : Z) :
  0 <= BLOCK_SIZE_M p -> 0 <= BLOCK_SIZE_N p ->
  Forall (tile_wf p) l -> Forall (tile_fits p) l ->
  (forall t, tile_wf p t -> in_tile p t a = true ->
             blk t (lane_row p t a) (lane_col p t a) = F a) ->
  (exists t, In t l /\ in_tile p t a = true) ->
  replay p blk l m a = F a.
Proof.
  intros HBM HBN Hwf Hfit HF. revert m.
  induction l as [|t l IH] using rev_ind; intros m (t0 & Hin & Hc).
  - contradiction.
  - apply Forall_app in Hwf. destruct Hwf as [Hwl Hwt].
    apply Forall_app in Hfit. destruct Hfit as [Hfl Hft].
    inversion Hwt as [|? ? Ht _]; subst.
    inversion Hft as [|? ? Hf _]; subst.
    rewrite replay_app. unfold replay at 1. simpl.
    rewrite tile_store_effect
      by (first [assumption | apply tile_wf_tm; assumption | apply tile_wf_tn; assumption]).
    destruct (in_tile p t a) eqn:E.
    + apply HF; assumption.
    + apply IH; try assumption.
      apply in_app_or in Hin. destruct Hin as [Hin|[<-|[]]].
      * exists t0. auto.
      * congruence.
Qed.

(** ** Valid invocations *)

Lemma sum_nonneg (ms : list Z) :
  Forall (fun m => 0 <= m) ms -> 0 <= fold_right Z.add 0 ms.
Proof. induction 1; simpl; lia. Qed.

Lemma group_offset_bounds (ms : list Z) (g : nat) :
  Forall (fun m => 0 <= m) ms ->
  0 <= group_offset ms g /\
  group_offset ms g + nth g ms 0 <= fold_right Z.add 0 ms.
Proof.
  intros H. revert g. unfold group_offset.
  induction H as [|m ms Hm Hms IH]; intros g.
  - destruct g; simpl; lia.
  - destruct g as [|g]; simpl.
    + pose proof (sum_nonneg ms Hms). lia.
    + destruct (IH g). lia.
Qed.

Lemma tile_wf_N_pos (p : kernel_args) (t : tile) :
  0 < BLOCK_SIZE_N p -> tile_wf p t -> 0 < N p.
Proof.
  intros HBN (_ & _ & _ & _ & Htn).
  destruct (Z_lt_dec 0 (N p)) as [|Hn]; [assumption|exfalso].
  assert (cdiv (N p) (BLOCK_SIZE_N p) <= 0).
  { unfold cdiv. apply Z.lt_succ_r. apply Z.div_lt_upper_bound; lia. }
  lia.
Qed.

(** When no store of the launch wraps, no store of a well-formed tile
    does. *)
Lemma tile_wf_fits (p : kernel_args) (t : tile) :
  0 < BLOCK_SIZE_N p -> Forall (fun m => 0 <= m) (m_sizes p) ->
  stores_fit p -> tile_wf p t -> tile_fits p t.
Proof.
  intros HBN Hnn Hsf Hwf. pose proof (tile_wf_N_pos p t HBN Hwf) as HN.
  destruct Hwf as (Hg & Hm & Hoff & _).
  destruct (group_offset_bounds (m_sizes p) (t_group t) Hnn) as [Ho1 Ho2].
  unfold tile_fits, stores_fit, tile_msize in *. destruct (USE_TMA_STORE p).
  - rewrite Hoff. split; [nia|]. apply Hsf. exact Hm.
  - rewrite Hoff. split; [lia|]. nia.
Qed.

Lemma log_fits (p : kernel_args) (l : list tile) :
  0 < BLOCK_SIZE_N p -> Forall (fun m => 0 <= m) (m_sizes p) ->
  stores_fit p -> Forall (tile_wf p) l -> Forall (tile_fits p) l.
Proof.
  intros HBN Hnn Hsf Hwf. rewrite Forall_forall in Hwf. apply Forall_forall.
  intros t Ht. apply tile_wf_fits; auto.
Qed.

(** Element counts within the reach of a 32-bit offset make every offset
    fit, whichever paths are compiled in. *)
Lemma fits_int32_offsets (p : kernel_args) :
  Forall (fun m => 0 <= m) (m_sizes p) -> fits_int32 p -> offsets_fit p.
Proof.
  intros Hnn (HMN & HMK & HNK). split.
  - unfold stores_fit. destruct (USE_TMA_STORE p); [|exact HMN].
    intros g Hg.
    destruct (group_offset_bounds (m_sizes p) g Hnn) as [Ho1 Ho2].
    destruct (Z_le_dec (N p) 0); nia.
  - intros _. split; assumption.
Qed.

(** For the tiles of a launch whose stores fit, the offsets stored are the
    tile's part of the group's rows. *)
Lemma wf_covers_in_tile (p : kernel_args) (t : tile) (a : Z) :
  valid_args p -> stores_fit p -> tile_wf p t -> covers p t a = in_tile p t a.
Proof.
  intros (HBM & HBN & _ & _ & _ & Hnn & _) Hsf Hwf.
  apply covers_in_tile.
  - apply tile_wf_tm; [lia|assumption].
  - apply tile_wf_tn; [lia|assumption].
  - apply tile_wf_fits; assumption.
Qed.

Lemma covered_in_tiles (p : kernel_args) (l : list tile) (a : Z) :
  valid_args p -> stores_fit p -> Forall (tile_wf p) l ->
  covered p l a = in_tiles p l a.
Proof.
  intros Hv Hsf Hwf. unfold covered, in_tiles.
  induction Hwf as [|t l Ht _ IH]; simpl; [reflexivity|].
  rewrite IH, (wf_covers_in_tile p t a Hv Hsf Ht). reflexivity.
Qed.

(** Row and column of an offset inside a well-formed tile. *)
Lemma in_tile_row_col (p : kernel_args) (t : tile) (a : Z) :
  in_tile p t a = true ->
  a / N p = t_row_offset t + (t_m_idx t * BLOCK_SIZE_M p + lane_row p t a) /\
  a mod N p = t_n_idx t * BLOCK_SIZE_N p + lane_col p t a /\
  0 <= a mod N p < N p.
Proof.
  intros Hc. apply in_tile_spec in Hc. destruct Hc as (HN & _).
  pose proof (Z.mod_pos_bound a (N p) HN).
  unfold lane_row, lane_col. lia.
Qed.

(** The block the plain kernel stores holds, at every offset of the tile's
    footprint, the dot product of that row of [x] with that row of [w]. *)
Lemma plain_block_val (p : kernel_args) (t : tile) (a : Z) :
  valid_args p -> loads_fit p -> tile_wf p t -> in_tile p t a = true ->
  plain_block p t (lane_row p t a) (lane_col p t a)
  = dot_row (desc_mem (a_desc_ptr p)) (desc_mem (b_desc_ptr p)) (K p)
            (a / N p) (a mod N p).
Proof.
  intros (HBM & HBN & HBK & HK & Hmod & Hnn & HG & Hca & Hcb & Hra & Hrb) Hlf
         (Hg & Hms & Hoff & Htm & Htn) Hc.
  destruct (in_tile_row_col p t a Hc) as (Hr & Hcl & Hcb').
  apply in_tile_spec in Hc. destruct Hc as (HN & Hlr & Hlm & Hlc).
  destruct (group_offset_bounds (m_sizes p) (t_group t) Hnn) as [Ho1 Ho2].
  unfold plain_block. rewrite accumulate_val; try assumption.
  - rewrite Hr, Hcl. reflexivity.
  - rewrite Hra, Hoff. exact Ho2.
  - lia.
  - intros Hl. rewrite Hra, Hrb. apply Hlf. exact Hl.
  - rewrite Hoff. exact Ho1.
  - split; [|exact Hlm]. assert (0 <= t_m_idx t * BLOCK_SIZE_M p) by nia. lia.
  - lia.
Qed.

(** The fp8 kernel's block holds the same dot product times the scale of
    the row of [x] and the scale of the row of [w]. *)
Lemma fp8_block_val (p : kernel_args) (t : tile) (a : Z) :
  valid_args p -> loads_fit p -> tile_wf p t -> in_tile p t a = true ->
  fp8_block p t (lane_row p t a) (lane_col p t a)
  = dot_row (desc_mem (a_desc_ptr p)) (desc_mem (b_desc_ptr p)) (K p)
            (a / N p) (a mod N p)
    * a_scale_ptr p (a / N p) * b_scale_ptr p (a mod N p).
Proof.
  intros Hv Hlf Hwf Hc. unfold fp8_block, scaled.
  rewrite plain_block_val by assumption.
  destruct (in_tile_row_col p t a Hc) as (Hr & Hcl & Hcb').
  apply in_tile_spec in Hc. destruct Hc as (HN & Hlr & Hlm & Hlc).
  unfold tl_load.
  replace (t_m_idx t * BLOCK_SIZE_M p + lane_row p t a <? tile_msize p t) with true
    by (symmetry; apply Z.ltb_lt; lia).
  replace (t_n_idx t * BLOCK_SIZE_N p + lane_col p t a <? N p) with true
    by (symmetry; apply Z.ltb_lt; lia).
  rewrite Hr, Hcl. reflexivity.
Qed.

(** ** Coverage by the plain kernel *)

Lemma plain_tiles_visited (p : kernel_args) (g : nat) (off m_size n_size num_m : Z)
    (l : list Z) (st : kstate) :
  visited (fold_left (plain_tile p g off m_size n_size num_m) l st)
  = visited st ++ map (mk_tile g off num_m) l.
Proof.
  revert st. induction l as [|idx l IH]; intros st; simpl.
  - rewrite app_nil_r. reflexivity.
  - rewrite IH. unfold plain_tile, commit_tile. simpl.
    rewrite <- app_assoc. reflexivity.
Qed.

Lemma plain_group_visited (p : kernel_args) (pid num_pid off : Z) (st : kstate) (g : nat) :
  let s' := plain_group p pid num_pid (off, st) g in
  fst s' = off + nth g (m_sizes p) 0 /\
  visited (snd s') = visited st ++ plain_group_tiles p pid num_pid off g.
Proof.
  unfold plain_group, plain_group_tiles.
  destruct (nth g (m_sizes p) 0 >? 0); simpl; split; try reflexivity.
  - rewrite plain_tiles_visited. destruct (USE_TMA_STORE p); reflexivity.
  - rewrite app_nil_r. reflexivity.
Qed.

(** The log of one program of the plain kernel, group by group. *)
Lemma plain_groups_visited (p : kernel_args) (pid num_pid : Z) (st : kstate) (n : nat) :
  let s' := fold_left (plain_group p pid num_pid) (seq 0 n) (0, st) in
  fst s' = group_offset (m_sizes p) n /\
  visited (snd s')
  = visited st ++
    flat_map (fun g => plain_group_tiles p pid num_pid (group_offset (m_sizes p) g) g)
             (seq 0 n).
Proof.
  induction n as [|n IH].
  - simpl. rewrite app_nil_r. split; reflexivity.
  - rewrite seq_S, fold_left_app, flat_map_app. simpl.
    destruct (fold_left (plain_group p pid num_pid) (seq 0 n) (0, st)) as [off st'].
    simpl in IH. destruct IH as [Hoff Hv]. subst off.
    destruct (plain_group_visited p pid num_pid (group_offset (m_sizes p) n) st' n)
      as [H1 H2].
    split.
    + rewrite H1, group_offset_S. reflexivity.
    + rewrite H2, Hv, app_nil_r, app_assoc. reflexivity.
Qed.

Lemma kernel_plain_visited (p : kernel_args) (pid num_pid : Z) (st : kstate) :
  visited (_kernel_grouped_gemm p pid num_pid st)
  = visited st ++ plain_program_tiles p pid num_pid.
Proof.
  unfold _kernel_grouped_gemm.
  match goal with
  | |- context [fold_left _ _ (0, ?s)] =>
      destruct (plain_groups_visited p pid num_pid s (G p)) as [_ H]
  end.
  rewrite H. destruct (USE_TMA_STORE p); reflexivity.
Qed.

(** The log of a whole launch of the plain kernel. *)
Lemma launch_plain_visited (p : kernel_args) (grid : Z) (y : mem) (st : kstate) :
  launch_plain p grid y = Done st ->
  visited st = flat_map (fun pid => plain_program_tiles p pid grid) (arange grid).
Proof.
  unfold launch_plain.
  destruct (K p mod BLOCK_SIZE_K p =? 0); [|discriminate].
  intros H. inversion H as [H']. clear H H'.
  assert (Hgen : forall l st1,
            visited (fold_left (fun st pid => _kernel_grouped_gemm p pid grid st) l st1)
            = visited st1 ++ flat_map (fun pid => plain_program_tiles p pid grid) l).
  { induction l as [|pid l IH]; intros st1; simpl.
    - rewrite app_nil_r. reflexivity.
    - rewrite IH, kernel_plain_visited, app_assoc. reflexivity. }
  rewrite Hgen. reflexivity.
Qed.

(** Every tile index of every non-empty group is in the log of the launch. *)
Lemma launch_plain_tiles_complete (p : kernel_args) (grid : Z) (g : nat) (idx : Z) :
  0 < grid -> (g < G p)%nat -> 0 < nth g (m_sizes p) 0 ->
  0 <= idx < cdiv (nth g (m_sizes p) 0) (BLOCK_SIZE_M p) * cdiv (N p) (BLOCK_SIZE_N p) ->
  In (mk_tile g (group_offset (m_sizes p) g)
              (cdiv (nth g (m_sizes p) 0) (BLOCK_SIZE_M p)) idx)
     (flat_map (fun pid => plain_program_tiles p pid grid) (arange grid)).
Proof.
  intros Hgrid Hg Hms Hidx.
  apply in_flat_map. exists (idx mod grid). split.
  - apply in_arange. apply Z.mod_pos_bound. assumption.
  - unfold plain_program_tiles. apply in_flat_map. exists g. split.
    + apply in_seq. lia.
    + unfold plain_group_tiles.
      replace (nth g (m_sizes p) 0 >? 0) with true by (symmetry; apply Z.gtb_lt; lia).
      apply in_map. apply in_range3; [assumption|].
      pose proof (Z.mod_pos_bound idx grid Hgrid).
      pose proof (Z.mod_le idx grid ltac:(lia) Hgrid).
      split; [lia|].
      rewrite Zminus_mod, Zmod_mod, Z.sub_diag. apply Zmod_0_l.
Qed.

(** Every row below the total belongs to exactly the group whose offset
    range contains it. *)
Lemma find_group (ms : list Z) (r : Z) :
  Forall (fun m => 0 <= m) ms -> 0 <= r < fold_right Z.add 0 ms ->
  exists g, (g < length ms)%nat /\
            group_offset ms g <= r < group_offset ms g + nth g ms 0.
Proof.
  intros H. revert r. induction H as [|m ms Hm Hms IH]; intros r Hr; simpl in Hr.
  - lia.
  - destruct (Z_lt_dec r m) as [Hlt|Hge].
    + exists O. unfold group_offset. simpl. split; lia.
    + destruct (IH (r - m) ltac:(lia)) as (g & Hg & Hb).
      exists (S g). unfold group_offset in *. simpl. split; lia.
Qed.

(** Every entry of the [sum m_sizes x N] output lies in the footprint of a
    tile of the launch. *)
Lemma launch_plain_reaches (p : kernel_args) (grid : Z) (y : mem) (st : kstate) (r c : Z) :
  valid_args p -> 0 < grid ->
  launch_plain p grid y = Done st ->
  0 <= r < fold_right Z.add 0 (m_sizes p) -> 0 <= c < N p ->
  exists t, In t (visited st) /\ in_tile p t (r * N p + c) = true.
Proof.
  intros (HBM & HBN & HBK & HK & Hmod & Hnn & HG & _) Hgrid HL Hr Hc.
  destruct (find_group (m_sizes p) r Hnn Hr) as (g & Hg & Hb).
  set (off := group_offset (m_sizes p) g) in *.
  set (m_size := nth g (m_sizes p) 0) in *.
  set (num_m := cdiv m_size (BLOCK_SIZE_M p)).
  set (tm := (r - off) / BLOCK_SIZE_M p).
  set (tn := c / BLOCK_SIZE_N p).
  assert (Hnum : 0 < num_m) by (apply cdiv_pos; lia).
  assert (Htm : 0 <= tm < num_m).
  { split; [apply Z.div_pos; lia|]. apply cdiv_covers; lia. }
  assert (Htn : 0 <= tn < cdiv (N p) (BLOCK_SIZE_N p)).
  { split; [apply Z.div_pos; lia|]. apply cdiv_covers; lia. }
  assert (Hsplit : (tn * num_m + tm) mod num_m = tm /\ (tn * num_m + tm) / num_m = tn).
  { destruct (row_col_of_offset num_m tn tm Htm). auto. }
  exists (mk_tile g off num_m (tn * num_m + tm)). split.
  - rewrite (launch_plain_visited p grid y st HL).
    apply launch_plain_tiles_complete; try assumption; try lia.
    fold m_size. fold num_m. nia.
  - destruct (row_col_of_offset (N p) r c Hc) as [Hrow Hcol].
    apply in_tile_spec. unfold lane_row, lane_col, tile_msize, mk_tile. simpl.
    destruct Hsplit as [-> ->]. rewrite Hrow, Hcol. fold off. fold m_size.
    unfold tm, tn.
    pose proof (Z.div_mod (r - off) (BLOCK_SIZE_M p) ltac:(lia)).
    pose proof (Z.mod_pos_bound (r - off) (BLOCK_SIZE_M p) HBM).
    pose proof (Z.div_mod c (BLOCK_SIZE_N p) ltac:(lia)).
    pose proof (Z.mod_pos_bound c (BLOCK_SIZE_N p) HBN).
    lia.
Qed.

(** ** Contents of the buffer after a launch *)

Lemma replay_char (p : kernel_args) (blk : tile -> block) (F : Z -> Z)
    (l : list tile) (m : mem) (a : Z) :
  0 <= BLOCK_SIZE_M p -> 0 <= BLOCK_SIZE_N p ->
  Forall (tile_wf p) l -> Forall (tile_fits p) l ->
  (forall t, tile_wf p t -> in_tile p t a = true ->
             blk t (lane_row p t a) (lane_col p t a) = F a) ->
  replay p blk l m a = if in_tiles p l a then F a else m a.
Proof.
  intros HBM HBN Hwf Hfit HF. unfold in_tiles. destruct (existsb _ l) eqn:E.
  - apply existsb_exists in E. apply replay_val; assumption.
  - apply replay_frame; try assumption.
    intros t Ht. destruct (in_tile p t a) eqn:C; [|reflexivity].
    assert (existsb (fun t => in_tile p t a) l = true)
      by (apply existsb_exists; exists t; auto).
    congruence.
Qed.

(** After a launch of the plain kernel whose offsets fit, every offset
    inside a logged tile holds its entry of [x @ w.T]; all others are
    untouched. *)
Lemma launch_plain_char (p : kernel_args) (grid : Z) (y : mem) (st : kstate) (a : Z) :
  valid_args p -> offsets_fit p -> launch_plain p grid y = Done st ->
  c_mem st a = if in_tiles p (visited st) a then plain_entry p a else y a.
Proof.
  intros Hv [Hsf Hlf] HL.
  pose proof Hv as (HBM & HBN & _ & _ & _ & Hnn & _).
  destruct (launch_plain_extends p grid y st HBM HBN HL) as (l & Hl & Hm & Hwf).
  simpl in Hl, Hm. subst l. rewrite Hm.
  apply replay_char; try assumption; try lia.
  - apply log_fits; assumption.
  - intros t Ht Hc. apply plain_block_val; assumption.
Qed.

Lemma launch_fp8_char (p : kernel_args) (grid : Z) (y : mem) (st : kstate) (a : Z) :
  valid_args p -> offsets_fit p -> launch_fp8 p grid y = Done st ->
  c_mem st a = if in_tiles p (visited st) a then fp8_entry p a else y a.
Proof.
  intros Hv [Hsf Hlf] HL.
  pose proof Hv as (HBM & HBN & _ & _ & _ & Hnn & _).
  destruct (launch_fp8_extends p grid y st HBM HBN HL) as (l & Hl & Hm & Hwf).
  simpl in Hl, Hm. subst l. rewrite Hm.
  apply replay_char; try assumption; try lia.
  - apply log_fits; assumption.
  - intros t Ht Hc. apply fp8_block_val; assumption.
Qed.

Lemma launch_plain_total (p : kernel_args) (grid : Z) (y : mem) :
  K p mod BLOCK_SIZE_K p = 0 -> exists st, launch_plain p grid y = Done st.
Proof.
  intros HK. unfold launch_plain.
  replace (K p mod BLOCK_SIZE_K p =? 0) with true by (symmetry; apply Z.eqb_eq; exact HK).
  eexists; reflexivity.
Qed.

(** A launch of the plain kernel on a grid of at least one program, with
    offsets that fit, fills the whole [sum m_sizes x N] output with
    [x @ w.T]. *)
Lemma launch_plain_correct (p : kernel_args) (grid : Z) (y : mem) :
  valid_args p -> offsets_fit p -> 0 < grid ->
  exists st, launch_plain p grid y = Done st /\
    forall r c, 0 <= r < fold_right Z.add 0 (m_sizes p) -> 0 <= c < N p ->
      c_mem st (r * N p + c)
      = dot_row (desc_mem (a_desc_ptr p)) (desc_mem (b_desc_ptr p)) (K p) r c.
Proof.
  intros Hv Hof Hgrid.
  pose proof Hv as (_ & _ & _ & _ & HK & _).
  destruct (launch_plain_total p grid y HK) as [st HL].
  exists st. split; [exact HL|]. intros r c Hr Hc.
  rewrite (launch_plain_char p grid y st _ Hv Hof HL).
  destruct (launch_plain_reaches p grid y st r c Hv Hgrid HL Hr Hc) as (t & Hin & Hcov).
  assert (Hcv : in_tiles p (visited st) (r * N p + c) = true).
  { unfold in_tiles. apply existsb_exists. exists t. auto. }
  rewrite Hcv. unfold plain_entry.
  destruct (row_col_of_offset (N p) r c Hc) as [-> ->]. reflexivity.
Qed.

(** ** The host entry point on valid calls *)

Lemma host_args_valid (dev : device) (x w : tensor) (ms : sizes_tensor)
    (xs ws : mem) (l s : bool) :
  valid_call dev x w ms ->
  valid_args
    (host_args dev
       (fill_2d_tma_descriptor x (shape0 x) (shape1 x))
       (fill_2d_tma_descriptor w (shape0 w) (shape1 x))
       xs ws ms (length (sizes ms)) (shape0 w) (shape1 x)
       (multi_processor_count dev) l s).
Proof.
  intros (_ & _ & _ & _ & HK & Hsum & Hnn & HK0 & Hmod & _).
  unfold valid_args, host_args. simpl.
  repeat split; try assumption; try lia; reflexivity.
Qed.

(** The entry point compiles both bulk paths in, so that its offsets fit as
    soon as the output has at most [2^31] elements. *)
Lemma host_args_fit (dev : device) (x w : tensor) (ms : sizes_tensor)
    (xs ws : mem) :
  valid_call dev x w ms -> shape0 x * shape0 w <= 2147483648 ->
  offsets_fit
    (host_args dev
       (fill_2d_tma_descriptor x (shape0 x) (shape1 x))
       (fill_2d_tma_descriptor w (shape0 w) (shape1 x))
       xs ws ms (length (sizes ms)) (shape0 w) (shape1 x)
       (multi_processor_count dev) true true).
Proof.
  intros (_ & _ & _ & _ & _ & Hsum & Hnn & _) Hsz. split.
  - unfold stores_fit. simpl. intros g Hg.
    destruct (group_offset_bounds (sizes ms) g Hnn) as [Ho1 Ho2].
    destruct (Z_le_dec (shape0 w) 0); nia.
  - intros Hl. discriminate Hl.
Qed.

Lemma grouped_gemm_plain_unfold (dev : device) (x w : tensor) (ms : sizes_tensor) :
  valid_call dev x w ms -> no_fault dev ->
  _grouped_gemm dev x w ms None None
  = (after_launch
       {| shape0 := shape0 x; shape1 := shape0 w; is_contiguous := true;
          data := empty_contents dev; elem_dtype := bfloat16 |}
       (launch_plain
          (host_args dev
             (fill_2d_tma_descriptor x (shape0 x) (shape1 x))
             (fill_2d_tma_descriptor w (shape0 w) (shape1 x))
             (fun _ => 0) (fun _ => 0) ms (length (sizes ms)) (shape0 w) (shape1 x)
             (multi_processor_count dev) true true)
          (Z.min (multi_processor_count dev) 4) (empty_contents dev)),
     [Launched_plain (Z.min (multi_processor_count dev) 4)]).
Proof.
  intros (Htma & Hx & Hw & Hm & HK & Hsum & _) ((He & Hq & Hh & Hws) & Hfx & Hfw).
  unfold _grouped_gemm, tma_setup.
  rewrite Htma, Hx, Hw, Hm, He, Hq, Hh, Hws, Hfx, Hfw. simpl.
  replace (shape1 x =? shape1 w) with true by (symmetry; apply Z.eqb_eq; exact HK).
  replace (shape0 x =? fold_right Z.add 0 (sizes ms)) with true
    by (symmetry; apply Z.eqb_eq; exact Hsum).
  reflexivity.
Qed.

Lemma grouped_gemm_fp8_unfold (dev : device) (x w : tensor) (ms : sizes_tensor)
    (xs ws : scale_tensor) :
  valid_call dev x w ms -> no_fault dev ->
  scale_contiguous xs = true -> scale_contiguous ws = true ->
  _grouped_gemm dev x w ms (Some xs) (Some ws)
  = (after_launch
       {| shape0 := shape0 x; shape1 := shape0 w; is_contiguous := true;
          data := empty_contents dev; elem_dtype := bfloat16 |}
       (launch_fp8
          (host_args dev
             (fill_2d_tma_descriptor x (shape0 x) (shape1 x))
             (fill_2d_tma_descriptor w (shape0 w) (shape1 x))
             (scale_data xs) (scale_data ws) ms (length (sizes ms)) (shape0 w)
             (shape1 x) (multi_processor_count dev) true true)
          (Z.min (multi_processor_count dev) 4) (empty_contents dev)),
     [Launched_fp8 (Z.min (multi_processor_count dev) 4)]).
Proof.
  intros (Htma & Hx & Hw & Hm & HK & Hsum & _) ((He & Hq & Hh & Hwk) & Hfx & Hfw) Hxs Hws.
  unfold _grouped_gemm, tma_setup.
  rewrite Htma, Hx, Hw, Hm, He, Hq, Hh, Hwk, Hfx, Hfw, Hxs, Hws. simpl.
  replace (shape1 x =? shape1 w) with true by (symmetry; apply Z.eqb_eq; exact HK).
  replace (shape0 x =? fold_right Z.add 0 (sizes ms)) with true
    by (symmetry; apply Z.eqb_eq; exact Hsum).
  reflexivity.
Qed.

(** ** Concrete calls *)

Lemma valid_call_2x32 : valid_call dev132 x_2x32 w_2x32 sizes_1_1.
Proof.
  unfold valid_call. simpl. repeat split; try reflexivity; try lia.
  repeat constructor; lia.
Qed.

Lemma no_fault_dev132 : no_fault dev132.
Proof. repeat split. Qed.

(** ** C1: which weight rows a group's rows are multiplied by *)

(** C1, as the code has it: on every valid call of the plain entry point
    whose output has at most [2^31] elements, so that the 32-bit base offset
    of every group's output descriptor is exact, the result has
    [w.shape[0]] columns, and the entry at row [r] and column [c] is
    [sum_k x[r,k] * w[c,k]] with [c] ranging over all rows of [w]: every
    group's rows are multiplied by the whole weight matrix. *)
Theorem grouped_gemm_multiplies_whole_weight
    (dev : device) (x w : tensor) (ms : sizes_tensor) :
  valid_call dev x w ms -> no_fault dev ->
  shape0 x * shape0 w <= 2147483648 ->
  exists y,
    fst (group_gemm_forward dev x w ms) = Return y /\
    shape0 y = shape0 x /\ shape1 y = shape0 w /\
    forall r c, 0 <= r < shape0 x -> 0 <= c < shape0 w ->
      data y (r * shape0 w + c) = dot_row (data x) (data w) (shape1 x) r c.
Proof.
  intros Hv Hf Hsz. unfold group_gemm_forward.
  rewrite (grouped_gemm_plain_unfold dev x w ms Hv Hf). simpl.
  pose proof (host_args_valid dev x w ms (fun _ => 0) (fun _ => 0) true true Hv) as Hva.
  pose proof (host_args_fit dev x w ms (fun _ => 0) (fun _ => 0) Hv Hsz) as Hfit.
  destruct Hv as (_ & _ & _ & _ & _ & Hsum & _ & _ & _ & Hsm).
  destruct (launch_plain_correct _ (Z.min (multi_processor_count dev) 4)
              (empty_contents dev) Hva Hfit ltac:(lia)) as (st & HL & Hval).
  unfold after_launch. rewrite HL. simpl.
  eexists. split; [reflexivity|]. simpl. repeat split.
  intros r c Hr Hc. apply (Hval r c); simpl; lia.
Qed.

Lemma grouped_gemm_multiplies_whole_weight_witness :
  exists y,
    fst (group_gemm_forward dev132 x_2x32 w_2x32 sizes_1_1) = Return y /\
    shape0 y = shape0 x_2x32 /\ shape1 y = shape0 w_2x32 /\
    forall r c, 0 <= r < shape0 x_2x32 -> 0 <= c < shape0 w_2x32 ->
      data y (r * shape0 w_2x32 + c)
      = dot_row (data x_2x32) (data w_2x32) (shape1 x_2x32) r c.
Proof.
  apply (grouped_gemm_multiplies_whole_weight dev132 x_2x32 w_2x32 sizes_1_1).
  - exact valid_call_2x32.
  - exact no_fault_dev132.
  - simpl. lia.
Defined.

(** C1 as stated fails: with two groups of one weight row each, the entry at
    row 1 (group 1), column 0 is [x[1] . w[0] = 20], not [x[1] . w[1] = 30],
    and the result has two columns, not one. *)
Lemma grouped_gemm_not_per_group_weight :
  match fst (group_gemm_forward dev132 x_2x32 w_2x32 sizes_1_1) with
  | Return y =>
      shape1 y = 2 /\
      data y (1 * shape1 y + 0) = 20 /\
      grouped_entry (data x_2x32) (data w_2x32) (sizes sizes_1_1) 1 32 1 0 = 30 /\
      data y (1 * shape1 y + 0)
      <> grouped_entry (data x_2x32) (data w_2x32) (sizes sizes_1_1) 1 32 1 0
  | _ => False
  end.
Proof. vm_compute. repeat split; discriminate. Qed.

(** ** The tile log does not depend on the load/store path *)

Lemma fp8_while_same_log (p1 p2 : kernel_args) (g : nat)
    (off m_size n_size num_m num_tiles it : Z) (fuel : nat) :
  NUM_SMS p1 = NUM_SMS p2 ->
  forall tidx st1 st2,
    visited st1 = visited st2 ->
    same_log
      (fp8_while fuel p1 g off m_size n_size num_m num_tiles it tidx st1)
      (fp8_while fuel p2 g off m_size n_size num_m num_tiles it tidx st2).
Proof.
  intros HS. induction fuel as [|fuel IH]; intros tidx st1 st2 Hv; simpl;
    destruct ((tidx >=? it) && (tidx <? it + num_tiles)); simpl; auto.
  rewrite HS. apply IH. unfold fp8_tile, commit_tile. simpl. rewrite Hv. reflexivity.
Qed.

Lemma fp8_group_same_log (p1 p2 : kernel_args) (s1 s2 : option fp8_loop) (g : nat) :
  same_sched p1 p2 -> same_loop s1 s2 ->
  same_loop (fp8_group p1 s1 g) (fp8_group p2 s2 g).
Proof.
  intros (Hms & HG & HN & HS & HBM & HBN) Hs.
  destruct s1 as [s1|], s2 as [s2|]; simpl in Hs; try contradiction; [|exact I].
  destruct Hs as (Ho & Hi & Ht & Hv).
  unfold fp8_group. rewrite <- Hms, <- HN, <- HBM, <- HBN, <- Ho, <- Hi, <- Ht.
  destruct (nth g (m_sizes p1) 0 >? 0); [|simpl; auto].
  match goal with
  | |- same_loop (match fp8_while ?f _ ?a ?b ?c ?d ?e ?h ?i ?j ?k1 with _ => _ end)
                 (match fp8_while _ _ _ _ _ _ _ _ _ _ ?k2 with _ => _ end) =>
      pose proof (fp8_while_same_log p1 p2 a b c d e h i f HS j k1 k2) as HW;
      destruct (fp8_while f p1 a b c d e h i j k1) as [[t1 q1]|];
      destruct (fp8_while f p2 a b c d e h i j k2) as [[t2 q2]|]
  end.
  - simpl in HW. destruct HW as [-> HW].
    + destruct (USE_TMA_STORE p1), (USE_TMA_STORE p2); simpl; exact Hv.
    + simpl. auto.
  - simpl in HW. contradiction HW.
    destruct (USE_TMA_STORE p1), (USE_TMA_STORE p2); simpl; exact Hv.
  - simpl in HW. contradiction HW.
    destruct (USE_TMA_STORE p1), (USE_TMA_STORE p2); simpl; exact Hv.
  - exact I.
Qed.

Lemma fp8_groups_same_log (p1 p2 : kernel_args) (l : list nat) (s1 s2 : option fp8_loop) :
  same_sched p1 p2 -> same_loop s1 s2 ->
  same_loop (fold_left (fp8_group p1) l s1) (fold_left (fp8_group p2) l s2).
Proof.
  intros Hp. revert s1 s2. induction l as [|g l IH]; intros s1 s2 Hs; simpl.
  - exact Hs.
  - apply IH. apply fp8_group_same_log; assumption.
Qed.

Lemma kernel_fp8_same_log (p1 p2 : kernel_args) (pid : Z) (st1 st2 : kstate) :
  same_sched p1 p2 -> visited st1 = visited st2 ->
  same_visited (_kernel_grouped_gemm_fp8_rowwise p1 pid st1)
               (_kernel_grouped_gemm_fp8_rowwise p2 pid st2).
Proof.
  intros Hp Hv. unfold _kernel_grouped_gemm_fp8_rowwise.
  pose proof Hp as (_ & HG & _).
  rewrite <- HG.
  match goal with
  | |- same_visited (option_map _ (fold_left _ ?l ?a)) (option_map _ (fold_left _ _ ?b)) =>
      pose proof (fp8_groups_same_log p1 p2 l a b Hp) as H;
      destruct (fold_left (fp8_group p1) l a) as [r1|];
      destruct (fold_left (fp8_group p2) l b) as [r2|]; simpl in *
  end; try apply H; try tauto; repeat split;
    destruct (USE_TMA_STORE p1), (USE_TMA_STORE p2); simpl; exact Hv.
Qed.

(** Launches of the fp8 kernel that agree on what the resolver reads end
    the same way and log the same tiles. *)
Lemma launch_fp8_same_log (p1 p2 : kernel_args) (grid : Z) (y1 y2 : mem) :
  same_sched p1 p2 -> K p1 = K p2 -> BLOCK_SIZE_K p1 = BLOCK_SIZE_K p2 ->
  match launch_fp8 p1 grid y1, launch_fp8 p2 grid y2 with
  | Done s1, Done s2 => visited s1 = visited s2
  | Hang, Hang => True
  | CompileError, CompileError => True
  | _, _ => False
  end.
Proof.
  intros Hp HK HBK. unfold launch_fp8. rewrite <- HK, <- HBK.
  destruct (K p1 mod BLOCK_SIZE_K p1 =? 0); [|exact I].
  assert (Hgen : forall l r1 r2, same_visited r1 r2 ->
            same_visited
              (fold_left (fun st pid =>
                            match st with
                            | None => None
                            | Some st => _kernel_grouped_gemm_fp8_rowwise p1 pid st
                            end) l r1)
              (fold_left (fun st pid =>
                            match st with
                            | None => None
                            | Some st => _kernel_grouped_gemm_fp8_rowwise p2 pid st
                            end) l r2)).
  { induction l as [|pid l IH]; intros r1 r2 Hr; simpl; [exact Hr|].
    apply IH. destruct r1 as [s1|], r2 as [s2|]; simpl in Hr; try contradiction.
    - apply kernel_fp8_same_log; assumption.
    - exact I. }
  specialize (Hgen (arange grid) (Some (init_state p1 y1)) (Some (init_state p2 y2))
                   eq_refl).
  destruct (fold_left _ (arange grid) (Some (init_state p1 y1)));
    destruct (fold_left _ (arange grid) (Some (init_state p2 y2)));
    simpl in Hgen; try contradiction; auto.
Qed.

Lemma with_paths_same_sched (p : kernel_args) l1 s1 u1 l2 s2 u2 :
  same_sched (with_paths p l1 s1 u1) (with_paths p l2 s2 u2).
Proof. repeat split. Qed.



(** ** What the unspecified lanes can reach *)

(** The writes of a tile depend on the block it stores only at the lanes
    inside the group's rows and inside the [n_size] columns. *)
Lemma store_tile_ext (p : kernel_args) (d : out_desc)
    (off m_size n_size tm tn : Z) (c1 c2 : block) :
  (USE_TMA_STORE p = true -> global_rows d = m_size /\ global_cols d = n_size) ->
  (forall i j, tm * BLOCK_SIZE_M p + i < m_size -> tn * BLOCK_SIZE_N p + j < n_size ->
               c1 i j = c2 i j) ->
  store_tile p d off m_size n_size tm tn c1 = store_tile p d off m_size n_size tm tn c2.
Proof.
  intros Hd Hc. unfold store_tile. destruct (USE_TMA_STORE p).
  - destruct (Hd eq_refl) as [Hr Hcl]. unfold descriptor_store.
    apply flat_map_ext_on. intros i _. apply flat_map_ext_on. intros j _. cbv zeta.
    destruct ((0 <=? tm * BLOCK_SIZE_M p + i) && (tm * BLOCK_SIZE_M p + i <? global_rows d)
              && (0 <=? tn * BLOCK_SIZE_N p + j)
              && (tn * BLOCK_SIZE_N p + j <? global_cols d)) eqn:E; [|reflexivity].
    rewrite !andb_true_iff, !Z.ltb_lt in E. rewrite Hc by lia. reflexivity.
  - unfold tl_store.
    apply flat_map_ext_on. intros i _. apply flat_map_ext_on. intros j _.
    destruct (store_mask p m_size n_size tm tn i j) eqn:E; [|reflexivity].
    unfold store_mask in E. rewrite andb_true_iff, !Z.ltb_lt in E.
    rewrite Hc by lia. reflexivity.
Qed.

Lemma tile_store_ext (p : kernel_args) (t : tile) (c1 c2 : block) :
  (forall i j, t_m_idx t * BLOCK_SIZE_M p + i < tile_msize p t ->
               t_n_idx t * BLOCK_SIZE_N p + j < N p -> c1 i j = c2 i j) ->
  tile_store p t c1 = tile_store p t c2.
Proof.
  intros Hc. unfold tile_store. apply store_tile_ext; [|exact Hc].
  intros _. split; reflexivity.
Qed.

(** With manual loads, the lanes of a tile's block that are stored do not
    depend on what the masked-out lanes of the loads hold. *)
Lemma plain_block_undef (p : kernel_args) (s : bool) (u1 u2 : Z -> Z) (t : tile) (i j : Z) :
  t_m_idx t * BLOCK_SIZE_M p + i < tile_msize p t ->
  t_n_idx t * BLOCK_SIZE_N p + j < N p ->
  plain_block (with_paths p false s u1) t i j = plain_block (with_paths p false s u2) t i j.
Proof.
  intros Hi Hj. unfold plain_block, accumulate. cbn [USE_TMA_LOAD with_paths].
  rewrite !acc_manual_lane by assumption. reflexivity.
Qed.

Lemma fp8_block_undef (p : kernel_args) (s : bool) (u1 u2 : Z -> Z) (t : tile) (i j : Z) :
  t_m_idx t * BLOCK_SIZE_M p + i < tile_msize p t ->
  t_n_idx t * BLOCK_SIZE_N p + j < N p ->
  fp8_block (with_paths p false s u1) t i j = fp8_block (with_paths p false s u2) t i j.
Proof.
  intros Hi Hj. unfold fp8_block, scaled.
  rewrite (plain_block_undef p s u1 u2 t i j Hi Hj). reflexivity.
Qed.

(** With manual loads the output of a launch of the plain kernel does not
    depend on the unspecified lanes, whatever the sizes. *)
Lemma launch_plain_undef_agree (p : kernel_args) (grid : Z) (y : mem)
    (s : bool) (u1 u2 : Z -> Z) :
  valid_args p ->
  exists st1 st2,
    launch_plain (with_paths p false s u1) grid y = Done st1 /\
    launch_plain (with_paths p false s u2) grid y = Done st2 /\
    forall a, c_mem st1 a = c_mem st2 a.
Proof.
  intros Hv. pose proof Hv as (HBM & HBN & _ & _ & HK & _).
  destruct (launch_plain_total (with_paths p false s u1) grid y HK) as [st1 H1].
  destruct (launch_plain_total (with_paths p false s u2) grid y HK) as [st2 H2].
  exists st1, st2. repeat split; try assumption. intros a.
  destruct (launch_plain_extends (with_paths p false s u1) grid y st1 HBM HBN H1) as (l1 & Hl1 & Hm1 & _).
  destruct (launch_plain_extends (with_paths p false s u2) grid y st2 HBM HBN H2) as (l2 & Hl2 & Hm2 & _).
  simpl in Hl1, Hl2, Hm1, Hm2. subst l1 l2. rewrite Hm1, Hm2.
  rewrite (launch_plain_visited _ grid y st1 H1).
  rewrite (launch_plain_visited _ grid y st2 H2).
  apply (f_equal (fun m : mem => m a)). apply replay_ext. intros t _.
  apply (tile_store_ext (with_paths p false s u1) t). intros i j Hi Hj.
  apply plain_block_undef; assumption.
Qed.

Lemma launch_fp8_undef_agree (p : kernel_args) (grid : Z) (y : mem)
    (s : bool) (u1 u2 : Z -> Z) :
  valid_args p -> 0 < NUM_SMS p ->
  exists st1 st2,
    launch_fp8 (with_paths p false s u1) grid y = Done st1 /\
    launch_fp8 (with_paths p false s u2) grid y = Done st2 /\
    forall a, c_mem st1 a = c_mem st2 a.
Proof.
  intros Hv HS. pose proof Hv as (HBM & HBN & _ & _ & HK & _).
  destruct (launch_fp8_total (with_paths p false s u1) grid y HS HK) as [st1 H1].
  destruct (launch_fp8_total (with_paths p false s u2) grid y HS HK) as [st2 H2].
  exists st1, st2. repeat split; try assumption. intros a.
  destruct (launch_fp8_extends (with_paths p false s u1) grid y st1 HBM HBN H1) as (l1 & Hl1 & Hm1 & _).
  destruct (launch_fp8_extends (with_paths p false s u2) grid y st2 HBM HBN H2) as (l2 & Hl2 & Hm2 & _).
  simpl in Hl1, Hl2, Hm1, Hm2. subst l1 l2. rewrite Hm1, Hm2.
  pose proof (launch_fp8_same_log (with_paths p false s u1) (with_paths p false s u2)
                grid y y (with_paths_same_sched p false s u1 false s u2) eq_refl eq_refl)
    as HL.
  rewrite H1, H2 in HL. rewrite HL.
  apply (f_equal (fun m : mem => m a)). apply replay_ext. intros t _.
  apply (tile_store_ext (with_paths p false s u1) t). intros i j Hi Hj.
  apply fp8_block_undef; assumption.
Qed.

Lemma valid_args_1x1 : valid_args args_1x1.
Proof.
  unfold valid_args. simpl. repeat split; try reflexivity; try lia.
  repeat constructor; lia.
Qed.

(** ** C4: the two load/store strategies *)


Lemma fits_int32_1x1 : fits_int32 args_1x1.
Proof. unfold fits_int32. simpl. lia. Qed.






(** ** C6: masked lanes of the manual loads *)

(** C6 as stated fails: the manual loads of [a] and [b] pass a mask but no
    fill value, so a masked-out lane holds whatever the hardware leaves
    there; with [7] in such lanes, lane 1 of the [a] block of a one-row
    group reads 7 and the accumulator row it feeds is 7, not 0. *)
Lemma manual_load_masked_lane_not_zero :
  let p := args_1x1 in
  let offs_am := fun i => 0 * BLOCK_SIZE_M p + i in
  tl_load (desc_mem (a_desc_ptr p)) (undef p)
          (fun i k => wrap32 ((0 + offs_am i) * K p) + k)
          (fun i _ => offs_am i <? 1) None 1 0 = 7 /\
  acc_manual p 0 1 1 0 0 1 0 = 7 /\
  acc_manual p 0 1 1 0 0 1 0 <> 0.
Proof. vm_compute. repeat split; discriminate. Qed.

(** C6, as the code has it: with manual loads, the accumulator lanes inside
    the group and inside the matrix do not depend on what the masked-out
    lanes hold, and neither does the output of a launch of either kernel;
    the scale loads of the fp8 kernel do fill their masked-out lanes with
    zero, so a rescaled lane outside the masks is zero. *)
Theorem masked_lanes_never_reach_output (p : kernel_args) (grid : Z) (y : mem)
    (s : bool) (u1 u2 : Z -> Z) :
  valid_args p -> 0 < NUM_SMS p ->
  (forall off m_size n_size tm tn i j,
     tm * BLOCK_SIZE_M p + i < m_size -> tn * BLOCK_SIZE_N p + j < n_size ->
     acc_manual (with_paths p false s u1) off m_size n_size tm tn i j
     = acc_manual (with_paths p false s u2) off m_size n_size tm tn i j) /\
  (exists st1 st2,
     launch_plain (with_paths p false s u1) grid y = Done st1 /\
     launch_plain (with_paths p false s u2) grid y = Done st2 /\
     forall a, c_mem st1 a = c_mem st2 a) /\
  (exists st1 st2,
     launch_fp8 (with_paths p false s u1) grid y = Done st1 /\
     launch_fp8 (with_paths p false s u2) grid y = Done st2 /\
     forall a, c_mem st1 a = c_mem st2 a) /\
  (forall acc off m_size n_size tm tn i j,
     m_size <= tm * BLOCK_SIZE_M p + i \/ n_size <= tn * BLOCK_SIZE_N p + j ->
     scaled p acc off m_size n_size tm tn i j = 0).
Proof.
  intros Hv HS. pose proof Hv as (_ & _ & HBK & HK & Hmod & _).
  split; [|split; [|split]].
  - intros off m_size n_size tm tn i j Hi Hj.
    rewrite !acc_manual_lane by assumption. reflexivity.
  - apply launch_plain_undef_agree. exact Hv.
  - apply launch_fp8_undef_agree; assumption.
  - intros acc off m_size n_size tm tn i j [H|H]; unfold scaled, tl_load.
    + replace (tm * BLOCK_SIZE_M p + i <? m_size) with false
        by (symmetry; apply Z.ltb_ge; lia). lia.
    + replace (tn * BLOCK_SIZE_N p + j <? n_size) with false
        by (symmetry; apply Z.ltb_ge; lia). lia.
Qed.

Lemma masked_lanes_never_reach_output_witness :
  let p := args_1x1 in
  let y : mem := fun _ => -1 in
  let u1 : Z -> Z := fun _ => 0 in
  let u2 : Z -> Z := fun _ => 7 in
  (forall off m_size n_size tm tn i j,
     tm * BLOCK_SIZE_M p + i < m_size -> tn * BLOCK_SIZE_N p + j < n_size ->
     acc_manual (with_paths p false false u1) off m_size n_size tm tn i j
     = acc_manual (with_paths p false false u2) off m_size n_size tm tn i j) /\
  (exists st1 st2,
     launch_plain (with_paths p false false u1) 4 y = Done st1 /\
     launch_plain (with_paths p false false u2) 4 y = Done st2 /\
     forall a, c_mem st1 a = c_mem st2 a) /\
  (exists st1 st2,
     launch_fp8 (with_paths p false false u1) 4 y = Done st1 /\
     launch_fp8 (with_paths p false false u2) 4 y = Done st2 /\
     forall a, c_mem st1 a = c_mem st2 a) /\
  (forall acc off m_size n_size tm tn i j,
     m_size <= tm * BLOCK_SIZE_M p + i \/ n_size <= tn * BLOCK_SIZE_N p + j ->
     scaled p acc off m_size n_size tm tn i j = 0).
Proof.
  apply (masked_lanes_never_reach_output args_1x1 4 (fun _ => -1) false
           (fun _ => 0) (fun _ => 7)).
  - exact valid_args_1x1.
  - simpl. lia.
Defined.

(** ** C3: the fp8 kernel *)

Lemma in_tile_in_range (p : kernel_args) (t : tile) (a : Z) :
  valid_args p -> tile_wf p t -> in_tile p t a = true ->
  0 <= a / N p < fold_right Z.add 0 (m_sizes p) /\
  0 <= a mod N p < N p /\
  a = a / N p * N p + a mod N p.
Proof.
  intros (HBM & HBN & _ & _ & _ & Hnn & _) (Hg & Hms & Hoff & Htm & Htn) Hc.
  destruct (in_tile_row_col p t a Hc) as (Hr & Hcl & Hcb).
  apply in_tile_spec in Hc. destruct Hc as (HN & Hlr & Hlm & Hlc).
  destruct (group_offset_bounds (m_sizes p) (t_group t) Hnn) as [Ho1 Ho2].
  fold (tile_msize p t) in Ho2. rewrite <- Hoff in Ho1, Ho2.
  assert (0 <= t_m_idx t * BLOCK_SIZE_M p) by nia.
  pose proof (Z.div_mod a (N p) ltac:(lia)).
  repeat split; lia.
Qed.

(** Kernel level: every entry a tile of the launch stored holds the dot
    product with row [c] of the whole weight matrix, times the scale of row
    [r] of [x] and the scale of row [c] of [w]; with unit scales this is the
    entry the plain kernel stores. *)
Lemma launch_fp8_correct_on_log (p : kernel_args) (grid : Z) (y : mem) :
  valid_args p -> offsets_fit p -> 0 < NUM_SMS p -> 0 < grid ->
  exists st, launch_fp8 p grid y = Done st /\
    (forall t a, In t (visited st) -> covers p t a = true ->
       c_mem st a
       = dot_row (desc_mem (a_desc_ptr p)) (desc_mem (b_desc_ptr p)) (K p)
                 (a / N p) (a mod N p)
         * a_scale_ptr p (a / N p) * b_scale_ptr p (a mod N p)) /\
    ((forall i, a_scale_ptr p i = 1) -> (forall i, b_scale_ptr p i = 1) ->
     exists stp, launch_plain p grid y = Done stp /\
       forall t a, In t (visited st) -> covers p t a = true ->
         c_mem st a = c_mem stp a).
Proof.
  intros Hv Hof HS Hgrid.
  pose proof Hv as (HBM & HBN & _ & _ & HK & _).
  pose proof Hof as [Hsf _].
  destruct (launch_fp8_total p grid y HS HK) as [st HL].
  exists st. split; [exact HL|].
  destruct (launch_fp8_extends p grid y st HBM HBN HL) as (l & Hl & _ & Hwf).
  simpl in Hl. subst l. rewrite Forall_forall in Hwf.
  assert (Hval : forall t a, In t (visited st) -> covers p t a = true ->
                   c_mem st a = fp8_entry p a).
  { intros t a Hin Hc. rewrite (launch_fp8_char p grid y st a Hv Hof HL).
    rewrite (wf_covers_in_tile p t a Hv Hsf (Hwf t Hin)) in Hc.
    assert (Hcv : in_tiles p (visited st) a = true)
      by (unfold in_tiles; apply existsb_exists; exists t; auto).
    rewrite Hcv. reflexivity. }
  split.
  - intros t a Hin Hc. rewrite (Hval t a Hin Hc). reflexivity.
  - intros Hxs Hws.
    destruct (launch_plain_correct p grid y Hv Hof Hgrid) as (stp & HP & Hpv).
    exists stp. split; [exact HP|]. intros t a Hin Hc.
    rewrite (Hval t a Hin Hc). unfold fp8_entry, plain_entry. rewrite Hxs, Hws.
    rewrite (wf_covers_in_tile p t a Hv Hsf (Hwf t Hin)) in Hc.
    destruct (in_tile_in_range p t a Hv (Hwf t Hin) Hc) as (Hr & Hcl & Ha).
    rewrite Ha at 3. rewrite (Hpv _ _ Hr Hcl). lia.
Qed.

(** C3, as the code has it: on every valid quantized call whose output has
    at most [2^31] elements, so that the 32-bit base offset of every
    group's output descriptor is exact, the result has [w.shape[0]]
    columns and is the buffer the fp8 launch leaves, and every entry a tile
    of that launch stored, at row [r = a / w.shape[0]] and column
    [c = a mod w.shape[0]], is
    [(sum_k x[r,k] * w[c,k]) * x_scale[r] * w_scale[c]]: weight row and
    weight scale are both read at row [c] of the whole weight matrix, for
    every group.  With all scales 1 these entries are those of the plain
    entry point. *)
Theorem fp8_entries_scaled_whole_weight
    (dev : device) (x w : tensor) (ms : sizes_tensor) (xs ws : scale_tensor) :
  valid_call dev x w ms -> no_fault dev ->
  scale_contiguous xs = true -> scale_contiguous ws = true ->
  shape0 x * shape0 w <= 2147483648 ->
  let args :=
    host_args dev
      (fill_2d_tma_descriptor x (shape0 x) (shape1 x))
      (fill_2d_tma_descriptor w (shape0 w) (shape1 x))
      (scale_data xs) (scale_data ws) ms (length (sizes ms)) (shape0 w) (shape1 x)
      (multi_processor_count dev) true true in
  exists y st,
    fst (group_gemm_fp8_rowwise dev x w ms xs ws) = Return y /\
    shape0 y = shape0 x /\ shape1 y = shape0 w /\
    launch_fp8 args (Z.min (multi_processor_count dev) 4) (empty_contents dev) = Done st /\
    data y = c_mem st /\
    (forall t a, In t (visited st) -> covers args t a = true ->
       data y a
       = dot_row (data x) (data w) (shape1 x) (a / shape0 w) (a mod shape0 w)
         * scale_data xs (a / shape0 w) * scale_data ws (a mod shape0 w)) /\
    ((forall i, scale_data xs i = 1) -> (forall i, scale_data ws i = 1) ->
     exists y',
       fst (group_gemm_forward dev x w ms) = Return y' /\
       forall t a, In t (visited st) -> covers args t a = true ->
         data y a = data y' a).
Proof.
  intros Hv Hf Hxs Hws Hsz args.
  unfold group_gemm_fp8_rowwise, group_gemm_forward.
  rewrite (grouped_gemm_fp8_unfold dev x w ms xs ws Hv Hf Hxs Hws).
  rewrite (grouped_gemm_plain_unfold dev x w ms Hv Hf).
  pose proof (host_args_valid dev x w ms (scale_data xs) (scale_data ws) true true Hv)
    as Hva.
  pose proof (host_args_valid dev x w ms (fun _ => 0) (fun _ => 0) true true Hv)
    as Hvp.
  pose proof (host_args_fit dev x w ms (scale_data xs) (scale_data ws) Hv Hsz) as Hfa.
  pose proof (host_args_fit dev x w ms (fun _ => 0) (fun _ => 0) Hv Hsz) as Hfp.
  pose proof Hv as (_ & _ & _ & _ & _ & Hsum & _ & _ & _ & Hsm).
  fold args in Hva, Hfa |- *.
  destruct (launch_fp8_correct_on_log args (Z.min (multi_processor_count dev) 4)
              (empty_contents dev) Hva Hfa Hsm ltac:(lia)) as (st & HL & Hval & _).
  destruct (launch_plain_correct _ (Z.min (multi_processor_count dev) 4)
              (empty_contents dev) Hvp Hfp ltac:(lia)) as (stp & HP & Hpv).
  pose proof Hva as (HBM & HBN & _).
  destruct (launch_fp8_extends args _ _ st HBM HBN HL) as (l & Hl & _ & Hwf).
  simpl in Hl. subst l. rewrite Forall_forall in Hwf.
  unfold after_launch. rewrite HL, HP. simpl.
  eexists. exists st. repeat split.
  - intros t a Hin Hc. simpl. apply (Hval t a Hin Hc).
  - intros H1 H2. eexists. split; [reflexivity|]. intros t a Hin Hc. simpl.
    rewrite (Hval t a Hin Hc). simpl. rewrite H1, H2.
    rewrite (wf_covers_in_tile args t a Hva (proj1 Hfa) (Hwf t Hin)) in Hc.
    destruct (in_tile_in_range args t a Hva (Hwf t Hin) Hc) as (Hr & Hcl & Ha).
    simpl in Hr, Hcl, Ha.
    pose proof (Hpv _ _ Hr Hcl) as Hp. simpl in Hp. rewrite <- Ha in Hp.
    rewrite Hp. lia.
Qed.

Lemma fp8_entries_scaled_whole_weight_witness :
  let dev := dev132 in
  let x := x_2x32 in
  let w := w_2x32 in
  let ms := sizes_1_1 in
  let xs := unit_scales in
  let ws := unit_scales in
  let args :=
    host_args dev
      (fill_2d_tma_descriptor x (shape0 x) (shape1 x))
      (fill_2d_tma_descriptor w (shape0 w) (shape1 x))
      (scale_data xs) (scale_data ws) ms (length (sizes ms)) (shape0 w) (shape1 x)
      (multi_processor_count dev) true true in
  exists y st,
    fst (group_gemm_fp8_rowwise dev x w ms xs ws) = Return y /\
    shape0 y = shape0 x /\ shape1 y = shape0 w /\
    launch_fp8 args (Z.min (multi_processor_count dev) 4) (empty_contents dev) = Done st /\
    data y = c_mem st /\
    (forall t a, In t (visited st) -> covers args t a = true ->
       data y a
       = dot_row (data x) (data w) (shape1 x) (a / shape0 w) (a mod shape0 w)
         * scale_data xs (a / shape0 w) * scale_data ws (a mod shape0 w)) /\
    exists y',
      fst (group_gemm_forward dev x w ms) = Return y' /\
      forall t a, In t (visited st) -> covers args t a = true ->
        data y a = data y' a.
Proof.
  destruct (fp8_entries_scaled_whole_weight dev132 x_2x32 w_2x32 sizes_1_1
              unit_scales unit_scales valid_call_2x32 no_fault_dev132
              eq_refl eq_refl ltac:(simpl; lia))
    as (y & st & Hy & Hs0 & Hs1 & HL & Hd & Hval & Hunit).
  exists y, st. repeat split; try assumption.
  apply Hunit; intros i; reflexivity.
Defined.

(** C3 as stated fails: with two groups of one weight row each and weight
    scales [5, 7], the entry at row 1 (group 1), column 0 is
    [(x[1] . w[0]) * 1 * 5 = 100], not [(x[1] . w[1]) * 1 * 7 = 210]. *)
Lemma fp8_not_per_group_weight_scale :
  match fst (group_gemm_fp8_rowwise dev132 x_2x32 w_2x32 sizes_1_1
               unit_scales scales_5_7) with
  | Return y =>
      data y (1 * shape1 y + 0) = 100 /\
      grouped_scaled_entry (data x_2x32) (data w_2x32)
        (scale_data unit_scales) (scale_data scales_5_7)
        (sizes sizes_1_1) 1 32 1 0 = 210 /\
      data y (1 * shape1 y + 0)
      <> grouped_scaled_entry (data x_2x32) (data w_2x32)
           (scale_data unit_scales) (scale_data scales_5_7)
           (sizes sizes_1_1) 1 32 1 0
  | _ => False
  end.
Proof. vm_compute. repeat split; discriminate. Qed.

(** ** C2: every tile exactly once *)

(** C2 fails on the code for the fp8 kernel.  On a device with 132
    multiprocessors the host launches [min(132, 4) = 4] programs but the
    kernel advances its cursor by [NUM_SMS = 132]: of the five tiles of a
    320-row group the launch computes four, tile 4 is computed by no program,
    and rows 256..319 of the result keep the contents of the uninitialised
    buffer.  The plain kernel, which strides by the number of launched
    programs, computes all five tiles once on the same input. *)
Theorem fp8_launch_skips_tiles :
  tile_wf args_320 tile_4 /\
  match launch_fp8 args_320 (Z.min 132 4) (empty_contents dev132) with
  | Done st =>
      count_occ tile_eq_dec (visited st) tile_4 = 0%nat /\
      length (visited st) = 4%nat
  | _ => False
  end /\
  match launch_plain args_320 (Z.min 132 4) (empty_contents dev132) with
  | Done st =>
      count_occ tile_eq_dec (visited st) tile_4 = 1%nat /\
      length (visited st) = 5%nat
  | _ => False
  end /\
  match fst (group_gemm_fp8_rowwise dev132 x_320x32 w_64x32 sizes_320
               unit_scales unit_scales) with
  | Return y => data y (256 * 64 + 0) = -1 /\ data y (255 * 64 + 0) = 32
  | _ => False
  end /\
  match fst (group_gemm_forward dev132 x_320x32 w_64x32 sizes_320) with
  | Return y => data y (256 * 64 + 0) = 32
  | _ => False
  end.
Proof.
  split; [|vm_compute; repeat split].
  unfold tile_wf. vm_compute. repeat split; try discriminate. lia.
Qed.

(** ** C9: assertions at the boundary and dispatch *)

(** Case analysis along the checks of [_grouped_gemm]. *)
Ltac host_cases :=
  unfold _grouped_gemm;
  repeat match goal with
         | |- context [if negb ?b then _ else _] =>
             destruct b eqn:?; cbn [negb fst snd]
         | |- context [if empty_raises ?d then _ else _] =>
             destruct (empty_raises d) eqn:?; cbn [fst snd]
         | |- context [if device_query_raises ?d then _ else _] =>
             destruct (device_query_raises d) eqn:?; cbn [fst snd]
         | |- context [if tma_helper_raises ?d then _ else _] =>
             destruct (tma_helper_raises d) eqn:?; cbn [fst snd]
         | |- context [if workspace_raises ?d then _ else _] =>
             destruct (workspace_raises d) eqn:?; cbn [fst snd]
         | |- context [if is_some ?o then _ else _] =>
             destruct o eqn:?; cbn [is_some fst snd]
         | |- context [match ?o with Some _ => _ | None => _ end] =>
             destruct o eqn:?; cbn [fst snd]
         | |- context [tma_setup ?a ?b ?c ?d ?e ?f] =>
             destruct (tma_setup a b c d e f) as [[? ?] ?] eqn:?; cbn [fst snd]
         end.

Lemma tma_setup_events (dev : device) (x w : tensor) (M_total N K : Z) :
  snd (tma_setup dev x w M_total N K) = []
  \/ snd (tma_setup dev x w M_total N K) = [Printed_tma_setup_error].
Proof.
  unfold tma_setup. destruct (fill_x_raises dev), (fill_w_raises dev); simpl; auto.
Qed.

Lemma not_launches_printed (l : list event) :
  l = [] \/ l = [Printed_tma_setup_error] -> ~ launches l.
Proof.
  intros [-> | ->] (g & [H|H]); simpl in H; intuition discriminate.
Qed.

Lemma not_launches_nil : ~ launches [].
Proof. apply not_launches_printed. left. reflexivity. Qed.

Ltac host_leaf :=
  repeat match goal with
         | H : (_ =? _) = true |- _ => apply Z.eqb_eq in H
         | H : (_ =? _) = false |- _ => apply Z.eqb_neq in H
         | H : tma_setup ?d ?x ?w ?a ?b ?c = (_, _, ?l) |- _ =>
             let E := fresh "Hev" in
             pose proof (tma_setup_events d x w a b c) as E;
             rewrite H in E; clear H; cbn [snd] in E
         end;
  try congruence; try discriminate.

(** Once the checks and the library calls have passed, a call with both
    scale vectors is the launch of the fp8 kernel on the descriptors the
    set-up left, and what it returns is what that launch leaves. *)
Lemma dispatch_fp8 (dev : device) (x w : tensor) (ms : sizes_tensor)
    (sx sw : scale_tensor) :
  passes_checks dev x w ms -> allocations_succeed dev ->
  scale_contiguous sx = true -> scale_contiguous sw = true ->
  _grouped_gemm dev x w ms (Some sx) (Some sw)
  = (after_launch (fresh_output dev x w)
       (launch_fp8 (call_args dev x w ms (scale_data sx) (scale_data sw))
                   (Z.min (multi_processor_count dev) 4) (empty_contents dev)),
     snd (tma_setup dev x w (shape0 x) (shape0 w) (shape1 x))
     ++ [Launched_fp8 (Z.min (multi_processor_count dev) 4)]).
Proof.
  intros (H1 & H2 & H3 & H4 & H5 & H6) (He & Hq & Hh & Hk) Hsx Hsw.
  unfold _grouped_gemm, call_args, fresh_output.
  rewrite H1, H2, H3, H4, He, Hq, Hh, Hk, Hsx, Hsw. cbn [negb].
  replace (shape1 x =? shape1 w) with true by (symmetry; apply Z.eqb_eq; exact H5).
  replace (shape0 x =? fold_right Z.add 0 (sizes ms)) with true
    by (symmetry; apply Z.eqb_eq; exact H6).
  cbn [negb].
  destruct (tma_setup dev x w (shape0 x) (shape0 w) (shape1 x)) as [[dx dw] pr].
  reflexivity.
Qed.

(** The same with no scale vector, for the plain kernel. *)
Lemma dispatch_plain (dev : device) (x w : tensor) (ms : sizes_tensor) :
  passes_checks dev x w ms -> allocations_succeed dev ->
  _grouped_gemm dev x w ms None None
  = (after_launch (fresh_output dev x w)
       (launch_plain (call_args dev x w ms (fun _ => 0) (fun _ => 0))
                     (Z.min (multi_processor_count dev) 4) (empty_contents dev)),
     snd (tma_setup dev x w (shape0 x) (shape0 w) (shape1 x))
     ++ [Launched_plain (Z.min (multi_processor_count dev) 4)]).
Proof.
  intros (H1 & H2 & H3 & H4 & H5 & H6) (He & Hq & Hh & Hk).
  unfold _grouped_gemm, call_args, fresh_output.
  rewrite H1, H2, H3, H4, He, Hq, Hh, Hk. cbn [negb].
  replace (shape1 x =? shape1 w) with true by (symmetry; apply Z.eqb_eq; exact H5).
  replace (shape0 x =? fold_right Z.add 0 (sizes ms)) with true
    by (symmetry; apply Z.eqb_eq; exact H6).
  cbn [negb].
  destruct (tma_setup dev x w (shape0 x) (shape0 w) (shape1 x)) as [[dx dw] pr].
  reflexivity.
Qed.

(** C9: the entry point fails, having launched nothing, when exactly one
    scale vector is given or when the group sizes do not sum to the row
    count of [x] (with an assertion error as soon as the checks and library
    calls that come first have passed); a quantized launch happens only
    with both scale vectors and a plain launch only with none; and when the
    checks and the library calls pass, a call with both (contiguous) scale
    vectors is the launch of the fp8 kernel, and a call with no scale
    vector is the launch of the plain kernel: the whole result of the call,
    outcome and events, is that of launching that kernel on the arguments
    of the call. *)
Theorem boundary_assertions_and_dispatch
    (dev : device) (x w : tensor) (ms : sizes_tensor) (xs ws : option scale_tensor) :
  let r := _grouped_gemm dev x w ms xs ws in
  let grid := Z.min (multi_processor_count dev) 4 in
  (is_some xs <> is_some ws ->
   (exists e, fst r = Raise e /\
              (passes_checks dev x w ms -> allocations_succeed dev ->
               e = AssertionError)) /\
   ~ launches (snd r)) /\
  (shape0 x <> fold_right Z.add 0 (sizes ms) ->
   (exists e, fst r = Raise e /\ (HAS_TMA_DESC dev = true -> e = AssertionError)) /\
   ~ launches (snd r)) /\
  (forall g, In (Launched_fp8 g) (snd r) -> is_some xs = true /\ is_some ws = true) /\
  (forall g, In (Launched_plain g) (snd r) -> xs = None /\ ws = None) /\
  (passes_checks dev x w ms -> allocations_succeed dev ->
   forall sx sw, xs = Some sx -> ws = Some sw ->
     scale_contiguous sx = true -> scale_contiguous sw = true ->
     r = (after_launch (fresh_output dev x w)
            (launch_fp8 (call_args dev x w ms (scale_data sx) (scale_data sw))
                        grid (empty_contents dev)),
          snd (tma_setup dev x w (shape0 x) (shape0 w) (shape1 x))
          ++ [Launched_fp8 grid])) /\
  (passes_checks dev x w ms -> allocations_succeed dev ->
   xs = None -> ws = None ->
   r = (after_launch (fresh_output dev x w)
          (launch_plain (call_args dev x w ms (fun _ => 0) (fun _ => 0))
                        grid (empty_contents dev)),
        snd (tma_setup dev x w (shape0 x) (shape0 w) (shape1 x))
        ++ [Launched_plain grid])).
Proof.
  cbv zeta. split; [|split; [|split; [|split; [|split]]]].
  - intros H. destruct xs, ws; simpl in H; try congruence; host_cases; host_leaf.
    all: split;
      [eexists; split;
       [reflexivity
       |intros (? & ? & ? & ? & ? & ?) (? & ? & ? & ?); host_leaf]|].
    all: try (apply not_launches_printed; auto).
  - intros H. host_cases; host_leaf.
    all: split; [eexists; split; [reflexivity|congruence]|].
    all: try (apply not_launches_printed; auto).
  - intros g. destruct xs, ws; simpl; auto; host_cases; host_leaf; intros Hin.
    all: try contradiction.
    all: try (destruct Hev as [-> | ->]; simpl in Hin; intuition discriminate).
  - intros g. destruct xs, ws; simpl; auto; host_cases; host_leaf; intros Hin.
    all: try contradiction.
    all: try (destruct Hev as [-> | ->]; simpl in Hin; intuition discriminate).
  - intros Hp Ha sx sw -> -> Hsx Hsw. apply dispatch_fp8; assumption.
  - intros Hp Ha -> ->. apply dispatch_plain; assumption.
Qed.

Lemma passes_checks_2x32 : passes_checks dev132 x_2x32 w_2x32 sizes_1_1.
Proof. repeat split. Qed.

Lemma allocations_succeed_dev132 : allocations_succeed dev132.
Proof. repeat split. Qed.

Lemma boundary_assertions_and_dispatch_witness :
  _grouped_gemm dev132 x_2x32 w_2x32 sizes_1_1 (Some unit_scales) (Some scales_5_7)
  = (after_launch (fresh_output dev132 x_2x32 w_2x32)
       (launch_fp8
          (call_args dev132 x_2x32 w_2x32 sizes_1_1
                     (scale_data unit_scales) (scale_data scales_5_7))
          (Z.min (multi_processor_count dev132) 4) (empty_contents dev132)),
     snd (tma_setup dev132 x_2x32 w_2x32 (shape0 x_2x32) (shape0 w_2x32) (shape1 x_2x32))
     ++ [Launched_fp8 (Z.min (multi_processor_count dev132) 4)]).
Proof.
  apply (proj1 (proj2 (proj2 (proj2 (proj2
           (boundary_assertions_and_dispatch dev132 x_2x32 w_2x32 sizes_1_1
              (Some unit_scales) (Some scales_5_7))))))
           passes_checks_2x32 allocations_succeed_dev132
           unit_scales scales_5_7 eq_refl eq_refl eq_refl eq_refl).
Defined.

(** ** C5: faults *)

(** C5 as stated fails: when configuring the descriptor of [x] raises, the
    entry point prints a message, goes on to launch the kernel and returns a
    tensor. *)
Lemma descriptor_failure_still_launches :
  snd (group_gemm_forward dev_fill_fails x_2x32 w_2x32 sizes_1_1)
  = [Printed_tma_setup_error; Launched_plain 4] /\
  match fst (group_gemm_forward dev_fill_fails x_2x32 w_2x32 sizes_1_1) with
  | Return _ => True
  | _ => False
  end.
Proof. vm_compute. split; [reflexivity|exact I]. Qed.

Lemma tma_setup_failure (dev : device) (x w : tensor) (M_total N K : Z) :
  fill_x_raises dev = true \/ fill_w_raises dev = true ->
  snd (tma_setup dev x w M_total N K) = [Printed_tma_setup_error] /\
  snd (fst (tma_setup dev x w M_total N K)) = unfilled_desc dev.
Proof.
  unfold tma_setup. destruct (fill_x_raises dev), (fill_w_raises dev);
    simpl; intros [H|H]; split; congruence.
Qed.

Lemma call_args_b_desc (dev : device) (x w : tensor) (ms : sizes_tensor) (sx sw : mem) :
  b_desc_ptr (call_args dev x w ms sx sw)
  = snd (fst (tma_setup dev x w (shape0 x) (shape0 w) (shape1 x))).
Proof.
  unfold call_args.
  destruct (tma_setup dev x w (shape0 x) (shape0 w) (shape1 x)) as [[dx dw] pr].
  reflexivity.
Qed.

(** A library call that raises between the assertions and the launch ends
    the call there. *)
Lemma allocation_failure_raises (dev : device) (x w : tensor) (ms : sizes_tensor)
    (xs ws : option scale_tensor) :
  passes_checks dev x w ms -> allocation_fails dev ->
  _grouped_gemm dev x w ms xs ws = (Raise LibraryError, []).
Proof.
  intros (H1 & H2 & H3 & H4 & H5 & H6) Hf. unfold allocation_fails in Hf.
  unfold _grouped_gemm. rewrite H1, H2, H3, H4. cbn [negb].
  replace (shape1 x =? shape1 w) with true by (symmetry; apply Z.eqb_eq; exact H5).
  replace (shape0 x =? fold_right Z.add 0 (sizes ms)) with true
    by (symmetry; apply Z.eqb_eq; exact H6).
  cbn [negb].
  destruct (empty_raises dev); [reflexivity|].
  destruct (device_query_raises dev); [reflexivity|].
  destruct (tma_helper_raises dev); [reflexivity|].
  destruct (workspace_raises dev); [reflexivity|].
  destruct Hf as [Hf|[Hf|[Hf|Hf]]]; discriminate Hf.
Qed.

(** C5, as the code has it.  A library call of the entry point that fails
    before the launch (allocating the output, querying the device, creating
    the descriptor helper, allocating the descriptor workspace) aborts the
    call: its error reaches the caller, nothing has been printed and no
    kernel is launched.  A failure while filling a bulk-transfer descriptor
    is caught instead: the entry point prints a message and goes on to
    launch the kernel on a weight descriptor that was never filled, and the
    outcome of the call is the outcome of that launch.  What happens while
    the kernel runs is not observed by the entry point, which returns
    without synchronising. *)
Theorem library_failure_propagates_descriptor_failure_does_not
    (dev : device) (x w : tensor) (ms : sizes_tensor) (xs ws : option scale_tensor) :
  let r := _grouped_gemm dev x w ms xs ws in
  let grid := Z.min (multi_processor_count dev) 4 in
  (passes_checks dev x w ms -> allocation_fails dev ->
   r = (Raise LibraryError, []) /\ ~ launches (snd r)) /\
  (passes_checks dev x w ms -> allocations_succeed dev ->
   fill_x_raises dev = true \/ fill_w_raises dev = true ->
   (xs = None -> ws = None ->
    b_desc_ptr (call_args dev x w ms (fun _ => 0) (fun _ => 0)) = unfilled_desc dev /\
    r = (after_launch (fresh_output dev x w)
           (launch_plain (call_args dev x w ms (fun _ => 0) (fun _ => 0))
                         grid (empty_contents dev)),
         [Printed_tma_setup_error; Launched_plain grid])) /\
   (forall sx sw, xs = Some sx -> ws = Some sw ->
      scale_contiguous sx = true -> scale_contiguous sw = true ->
      b_desc_ptr (call_args dev x w ms (scale_data sx) (scale_data sw))
      = unfilled_desc dev /\
      r = (after_launch (fresh_output dev x w)
             (launch_fp8 (call_args dev x w ms (scale_data sx) (scale_data sw))
                         grid (empty_contents dev)),
           [Printed_tma_setup_error; Launched_fp8 grid]))).
Proof.
  cbv zeta. split.
  - intros Hp Hf. rewrite (allocation_failure_raises dev x w ms xs ws Hp Hf).
    split; [reflexivity|exact not_launches_nil].
  - intros Hp Ha Hfill.
    destruct (tma_setup_failure dev x w (shape0 x) (shape0 w) (shape1 x) Hfill)
      as [Hev Hdesc].
    split.
    + intros -> ->. split.
      * rewrite call_args_b_desc. exact Hdesc.
      * rewrite dispatch_plain by assumption. rewrite Hev. reflexivity.
    + intros sx sw -> -> Hsx Hsw. split.
      * rewrite call_args_b_desc. exact Hdesc.
      * rewrite dispatch_fp8 by assumption. rewrite Hev. reflexivity.
Qed.

Lemma library_failure_propagates_descriptor_failure_does_not_witness :
  b_desc_ptr (call_args dev_fill_fails x_2x32 w_2x32 sizes_1_1 (fun _ => 0) (fun _ => 0))
  = unfilled_desc dev_fill_fails /\
  _grouped_gemm dev_fill_fails x_2x32 w_2x32 sizes_1_1 None None
  = (after_launch (fresh_output dev_fill_fails x_2x32 w_2x32)
       (launch_plain
          (call_args dev_fill_fails x_2x32 w_2x32 sizes_1_1 (fun _ => 0) (fun _ => 0))
          (Z.min (multi_processor_count dev_fill_fails) 4)
          (empty_contents dev_fill_fails)),
     [Printed_tma_setup_error;
      Launched_plain (Z.min (multi_processor_count dev_fill_fails) 4)]).
Proof.
  apply (proj1 (proj2 (library_failure_propagates_descriptor_failure_does_not
                         dev_fill_fails x_2x32 w_2x32 sizes_1_1 None None)
                  ltac:(repeat split) ltac:(repeat split)
                  (or_introl eq_refl))
           eq_refl eq_refl).
Defined.

(** ** C7: group offsets and zero-sized groups *)

Lemma fp8_group_offset (p : kernel_args) (s s' : fp8_loop) (g : nat) :
  fp8_group p (Some s) g = Some s' ->
  f_M_end_offset s' = f_M_end_offset s + nth g (m_sizes p) 0.
Proof.
  unfold fp8_group. destruct (nth g (m_sizes p) 0 >? 0).
  - match goal with
    | |- context [fp8_while ?f ?a ?b ?c ?d ?e ?h ?i ?j ?k ?l] =>
        destruct (fp8_while f a b c d e h i j k l) as [[tidx st1]|]
    end; [|discriminate].
    intros H. inversion H; subst. reflexivity.
  - intros H. inversion H; subst. reflexivity.
Qed.

Lemma fp8_groups_offset (p : kernel_args) (s0 s' : fp8_loop) (n : nat) :
  fold_left (fp8_group p) (seq 0 n) (Some s0) = Some s' ->
  f_M_end_offset s' = f_M_end_offset s0 + group_offset (m_sizes p) n.
Proof.
  revert s'. induction n as [|n IH]; intros s'.
  - simpl. intros H. inversion H; subst. unfold group_offset. simpl. lia.
  - rewrite seq_S, fold_left_app. simpl.
    destruct (fold_left (fp8_group p) (seq 0 n) (Some s0)) as [s1|]; [|discriminate].
    intros H. apply fp8_group_offset in H. rewrite H, (IH s1 eq_refl), group_offset_S. lia.
Qed.

Lemma extends_log_wf (p : kernel_args) (blk : tile -> block) (y : mem) (st : kstate) :
  extends p blk (init_state p y) st -> Forall (tile_wf p) (visited st).
Proof.
  intros (l & Hl & _ & Hwf). simpl in Hl. subst l. exact Hwf.
Qed.

(** C7: while either kernel scans the groups in index order, the running
    total it keeps is the exclusive prefix sum of the group sizes, so the
    rows of group [g] start at [sum_{i<g} m_sizes[i]]: the plain kernel's
    scan always gets there, the fp8 kernel's scan gets there whenever its
    cursor stride [NUM_SMS] is positive, and whenever it gets there at all;
    a zero-sized group leaves the whole loop state as it is (no tile is
    computed, the row offset is not shifted, and the fp8 kernel's tile
    counter and cursor are not advanced); both launches return (the fp8
    launch for a positive stride), and every tile a launch computes belongs
    to a non-empty group and starts at that group's prefix sum. *)
Theorem group_offsets_are_prefix_sums
    (p : kernel_args) (pid num_pid : Z) (st : kstate) (s0 : fp8_loop) (g : nat) :
  fst (fold_left (plain_group p pid num_pid) (seq 0 g) (0, st))
  = group_offset (m_sizes p) g /\
  (0 < NUM_SMS p -> f_M_end_offset s0 = 0 ->
   exists s', fold_left (fp8_group p) (seq 0 g) (Some s0) = Some s' /\
              f_M_end_offset s' = group_offset (m_sizes p) g) /\
  (forall s', f_M_end_offset s0 = 0 ->
     fold_left (fp8_group p) (seq 0 g) (Some s0) = Some s' ->
     f_M_end_offset s' = group_offset (m_sizes p) g) /\
  group_offset (m_sizes p) (S g) = group_offset (m_sizes p) g + nth g (m_sizes p) 0 /\
  (nth g (m_sizes p) 0 = 0 ->
     (forall off, plain_group p pid num_pid (off, st) g = (off, st)) /\
     fp8_group p (Some s0) g = Some s0) /\
  (0 < BLOCK_SIZE_M p -> 0 < BLOCK_SIZE_N p -> K p mod BLOCK_SIZE_K p = 0 ->
   forall grid y,
     (exists stf, launch_plain p grid y = Done stf) /\
     (0 < NUM_SMS p -> exists stf, launch_fp8 p grid y = Done stf) /\
     forall stf,
       launch_plain p grid y = Done stf \/ launch_fp8 p grid y = Done stf ->
       forall t, In t (visited stf) ->
         0 < nth (t_group t) (m_sizes p) 0 /\
         t_row_offset t = group_offset (m_sizes p) (t_group t)).
Proof.
  split; [|split; [|split; [|split; [|split]]]].
  - apply plain_groups_visited.
  - intros HS H0. destruct (fp8_groups_total p s0 (seq 0 g) HS) as [s' H].
    exists s'. split; [exact H|].
    rewrite (fp8_groups_offset p s0 s' g H), H0. lia.
  - intros s' H0 H. rewrite (fp8_groups_offset p s0 s' g H), H0. lia.
  - apply group_offset_S.
  - intros Hz. split.
    + intros off. unfold plain_group. rewrite Hz. simpl. rewrite Z.add_0_r. reflexivity.
    + unfold fp8_group. rewrite Hz. simpl. rewrite Z.add_0_r. destruct s0; reflexivity.
  - intros HBM HBN HK grid y. split; [|split].
    + apply launch_plain_total. exact HK.
    + intros HS. apply launch_fp8_total; assumption.
    + intros stf HL t Hin.
      assert (Hwf : Forall (tile_wf p) (visited stf)).
      { destruct HL as [HL|HL].
        - eapply extends_log_wf. eapply launch_plain_extends; eassumption.
        - eapply extends_log_wf. eapply launch_fp8_extends; eassumption. }
      rewrite Forall_forall in Hwf. destruct (Hwf t Hin) as (_ & Hms & Hoff & _).
      split; assumption.
Qed.

Lemma group_offsets_are_prefix_sums_witness :
  let s0 := {| f_M_end_offset := 0; f_iterated_tiles := 0; f_tidx := 0;
               f_st := init_state args_1x1 (fun _ => -1) |} in
  (exists s', fold_left (fp8_group args_1x1) (seq 0 1) (Some s0) = Some s' /\
              f_M_end_offset s' = group_offset (m_sizes args_1x1) 1) /\
  (exists stf, launch_fp8 args_1x1 4 (fun _ => -1) = Done stf).
Proof.
  pose proof (group_offsets_are_prefix_sums args_1x1 0 4
                (init_state args_1x1 (fun _ => -1))
                {| f_M_end_offset := 0; f_iterated_tiles := 0; f_tidx := 0;
                   f_st := init_state args_1x1 (fun _ => -1) |} 1)
    as (_ & Hfp8 & _ & _ & _ & Hlaunch).
  split.
  - apply Hfp8; [simpl; lia|reflexivity].
  - apply (Hlaunch ltac:(simpl; lia) ltac:(simpl; lia) eq_refl 4 (fun _ => -1)).
    simpl. lia.
Defined.

(** ** C8: what a tile's store writes *)



Lemma stores_fit_1x1 : stores_fit args_1x1.
Proof. unfold stores_fit. simpl. lia. Qed.



(** ** C10: the returned tensor *)

Lemma launch_frame (p : kernel_args) (blk : tile -> block) (y : mem) (st : kstate) (a : Z) :
  extends p blk (init_state p y) st ->
  covered p (visited st) a = false ->
  c_mem st a = y a.
Proof.
  intros (l & Hl & Hm & Hwf) Hc. simpl in Hl, Hm. subst l. rewrite Hm.
  apply replay_frame_covers.
  intros t Ht. destruct (covers p t a) eqn:E; [|reflexivity].
  assert (covered p (visited st) a = true)
    by (unfold covered; apply existsb_exists; exists t; auto).
  congruence.
Qed.

Lemma after_launch_return (y0 y : tensor) (r : launch_result) :
  after_launch y0 r = Return y ->
  exists st, r = Done st /\
    y = {| shape0 := shape0 y0; shape1 := shape1 y0; is_contiguous := is_contiguous y0;
           data := c_mem st; elem_dtype := elem_dtype y0 |}.
Proof.
  unfold after_launch. destruct r; try discriminate.
  intros H. inversion H. eexists. split; reflexivity.
Qed.

(** C10: whenever the entry point returns, plain or quantized and whatever
    the element types of its inputs, the result has shape
    [(x.shape[0], w.shape[0])] and element type bfloat16, and it is the
    buffer [torch.empty] handed out as the kernel launch left it: every
    element outside the footprint of the tiles the launch computed still
    holds the unspecified contents the buffer was allocated with. *)
Theorem returned_tensor_is_fresh_bfloat16
    (dev : device) (x w : tensor) (ms : sizes_tensor) (xs ws : option scale_tensor)
    (y : tensor) :
  fst (_grouped_gemm dev x w ms xs ws) = Return y ->
  shape0 y = shape0 x /\ shape1 y = shape0 w /\ elem_dtype y = bfloat16 /\
  exists p st,
    (launch_plain p (Z.min (multi_processor_count dev) 4) (empty_contents dev) = Done st
     \/ launch_fp8 p (Z.min (multi_processor_count dev) 4) (empty_contents dev) = Done st) /\
    m_sizes p = sizes ms /\ N p = shape0 w /\
    BLOCK_SIZE_M p = 64 /\ BLOCK_SIZE_N p = 64 /\
    data y = c_mem st /\
    forall a, covered p (visited st) a = false -> data y a = empty_contents dev a.
Proof.
  host_cases; host_leaf; intros H; apply after_launch_return in H;
    destruct H as (st & HL & ->); cbn [shape0 shape1 elem_dtype data];
    repeat split; cbn [data] in HL.
  - eexists. exists st. split; [right; exact HL|]. repeat split.
    intros a Hc. eapply launch_frame; [eapply launch_fp8_extends; [| |exact HL]|exact Hc];
      simpl; lia.
  - eexists. exists st. split; [left; exact HL|]. repeat split.
    intros a Hc. eapply launch_frame; [eapply launch_plain_extends; [| |exact HL]|exact Hc];
      simpl; lia.
Qed.

Lemma returned_tensor_is_fresh_bfloat16_witness :
  let dev := dev132 in
  let y := y_fp8_2x32 in
  shape0 y = shape0 x8_2x32 /\ shape1 y = shape0 w8_2x32 /\ elem_dtype y = bfloat16 /\
  exists p st,
    (launch_plain p (Z.min (multi_processor_count dev) 4) (empty_contents dev) = Done st
     \/ launch_fp8 p (Z.min (multi_processor_count dev) 4) (empty_contents dev) = Done st) /\
    m_sizes p = sizes sizes_1_1 /\ N p = shape0 w8_2x32 /\
    BLOCK_SIZE_M p = 64 /\ BLOCK_SIZE_N p = 64 /\
    data y = c_mem st /\
    forall a, covered p (visited st) a = false -> data y a = empty_contents dev a.
Proof.
  apply (returned_tensor_is_fresh_bfloat16 dev132 x8_2x32 w8_2x32 sizes_1_1
           (Some unit_scales) (Some scales_5_7) y_fp8_2x32).
  vm_compute. reflexivity.
Defined.

(** ** The plain launch computes every tile exactly once *)

Lemma count_occ_flat_map {A B} (dec : forall x y : B, {x = y} + {x <> y})
    (f : A -> list B) (l : list A) (x : B) :
  count_occ dec (flat_map f l) x
  = fold_right Nat.add O (map (fun a => count_occ dec (f a) x) l).
Proof.
  induction l as [|a l IH]; simpl; [reflexivity|].
  rewrite count_occ_app, IH. reflexivity.
Qed.

Lemma sum_none {A} (f : A -> nat) (l : list A) :
  (forall a, In a l -> f a = O) -> fold_right Nat.add O (map f l) = O.
Proof.
  induction l as [|a l IH]; intros H; simpl; [reflexivity|].
  rewrite (H a) by (left; reflexivity). apply IH.
  intros b Hb. apply H. right. exact Hb.
Qed.

Lemma sum_single {A} (f : A -> nat) (l : list A) (a0 : A) :
  NoDup l -> In a0 l -> f a0 = 1%nat ->
  (forall a, In a l -> a <> a0 -> f a = O) ->
  fold_right Nat.add O (map f l) = 1%nat.
Proof.
  induction l as [|a l IH]; intros Hnd Hin H1 H0; [contradiction|].
  inversion Hnd as [|? ? Hnotin Hnd']; subst. simpl.
  destruct Hin as [->|Hin].
  - rewrite H1, sum_none; [reflexivity|].
    intros b Hb. apply H0; [right; exact Hb|].
    intros ->. contradiction.
  - rewrite (H0 a); [|left; reflexivity|intros ->; contradiction].
    simpl. apply IH; try assumption.
    intros b Hb. apply H0. right. exact Hb.
Qed.

Lemma NoDup_map_inj {A B} (f : A -> B) (l : list A) :
  (forall a b, f a = f b -> a = b) -> NoDup l -> NoDup (map f l).
Proof.
  intros Hinj Hnd. induction Hnd as [|a l Hnotin Hnd IH]; simpl; constructor.
  - intros Hin. apply in_map_iff in Hin. destruct Hin as (b & Hb & Hin).
    apply Hinj in Hb. subst b. contradiction.
  - exact IH.
Qed.

Lemma NoDup_arange (n : Z) : NoDup (arange n).
Proof.
  unfold arange. apply NoDup_map_inj; [|apply seq_NoDup].
  intros a b H. lia.
Qed.

Lemma NoDup_range3 (start stop step : Z) : 0 < step -> NoDup (range3 start stop step).
Proof.
  intros Hs. unfold range3. apply NoDup_map_inj; [|apply seq_NoDup].
  intros a b H. nia.
Qed.

Lemma count_occ_NoDup_In {A} (dec : forall x y : A, {x = y} + {x <> y}) (l : list A) (x : A) :
  NoDup l -> In x l -> count_occ dec l x = 1%nat.
Proof.
  intros Hnd Hin. apply NoDup_count_occ with (decA := dec) (x := x) in Hnd.
  apply (count_occ_In dec) in Hin. lia.
Qed.

Lemma mk_tile_inj (g : nat) (off num_m i j : Z) :
  0 < num_m -> mk_tile g off num_m i = mk_tile g off num_m j -> i = j.
Proof.
  intros Hm H. unfold mk_tile in H. inversion H as [[H1 H2]].
  rewrite (Z.div_mod i num_m), (Z.div_mod j num_m) by lia. congruence.
Qed.

Lemma count_occ_map_inj {A B} (decA : forall x y : A, {x = y} + {x <> y})
    (decB : forall x y : B, {x = y} + {x <> y}) (f : A -> B) (l : list A) (x : A) :
  (forall a b, f a = f b -> a = b) ->
  count_occ decB (map f l) (f x) = count_occ decA l x.
Proof.
  intros Hinj. induction l as [|a l IH]; simpl; [reflexivity|].
  destruct (decB (f a) (f x)) as [E|E], (decA a x) as [E'|E']; try congruence.
  exfalso. apply E'. apply Hinj. exact E.
Qed.

Lemma tile_wf_index (p : kernel_args) (t : tile) :
  0 < BLOCK_SIZE_M p -> tile_wf p t ->
  t = mk_tile (t_group t) (group_offset (m_sizes p) (t_group t))
              (cdiv (tile_msize p t) (BLOCK_SIZE_M p)) (tile_index p t) /\
  0 <= tile_index p t
    < cdiv (tile_msize p t) (BLOCK_SIZE_M p) * cdiv (N p) (BLOCK_SIZE_N p).
Proof.
  intros HBM (Hg & Hms & Hoff & Htm & Htn). unfold tile_index.
  destruct (row_col_of_offset (cdiv (tile_msize p t) (BLOCK_SIZE_M p))
              (t_n_idx t) (t_m_idx t) Htm) as [Hd Hm].
  split.
  - unfold mk_tile. rewrite Hd, Hm, <- Hoff. destruct t; reflexivity.
  - nia.
Qed.

Lemma plain_group_tiles_group (p : kernel_args) (pid num_pid off : Z) (g : nat) (t : tile) :
  In t (plain_group_tiles p pid num_pid off g) -> t_group t = g.
Proof.
  unfold plain_group_tiles. destruct (nth g (m_sizes p) 0 >? 0); [|contradiction].
  intros Hin. apply in_map_iff in Hin. destruct Hin as (idx & <- & _). reflexivity.
Qed.

(** Program [pid] of a grid of [grid] programs logs tile [t] once if
    [pid] is the residue of the tile's flat index, and never otherwise. *)
Lemma plain_program_tiles_count (p : kernel_args) (pid grid : Z) (t : tile) :
  0 < BLOCK_SIZE_M p -> 0 <= pid < grid -> tile_wf p t ->
  count_occ tile_eq_dec (plain_program_tiles p pid grid) t
  = if tile_index p t mod grid =? pid then 1%nat else O.
Proof.
  intros HBM Hpid Hwf.
  destruct (tile_wf_index p t HBM Hwf) as [Ht Hidx].
  pose proof Hwf as (Hg & Hms & Hoff & Htm & Htn).
  set (g0 := t_group t) in *. set (num_m := cdiv (tile_msize p t) (BLOCK_SIZE_M p)) in *.
  set (idx := tile_index p t) in *.
  assert (Hnum : 0 < num_m) by (apply cdiv_pos; assumption).
  unfold plain_program_tiles. rewrite count_occ_flat_map.
  assert (Hother : forall g, g <> g0 ->
            count_occ tile_eq_dec
              (plain_group_tiles p pid grid (group_offset (m_sizes p) g) g) t = O).
  { intros g Hne. apply count_occ_not_In. intros Hin.
    apply plain_group_tiles_group in Hin. fold g0 in Hin. congruence. }
  assert (Hown : count_occ tile_eq_dec
            (plain_group_tiles p pid grid (group_offset (m_sizes p) g0) g0) t
            = count_occ Z.eq_dec
                (range3 pid (num_m * cdiv (N p) (BLOCK_SIZE_N p)) grid) idx).
  { unfold plain_group_tiles.
    change (nth g0 (m_sizes p) 0) with (tile_msize p t). fold num_m.
    replace (tile_msize p t >? 0) with true by (symmetry; apply Z.gtb_lt; lia).
    rewrite Ht at 1. apply count_occ_map_inj.
    intros a b. apply mk_tile_inj. exact Hnum. }
  pose proof (Z.mod_pos_bound idx grid ltac:(lia)) as Hmod.
  destruct (idx mod grid =? pid) eqn:E.
  - apply Z.eqb_eq in E.
    apply (sum_single _ _ g0).
    + apply seq_NoDup.
    + apply in_seq. lia.
    + rewrite Hown. apply count_occ_NoDup_In; [apply NoDup_range3; lia|].
      apply in_range3; [lia|]. subst pid.
      pose proof (Z.mod_le idx grid ltac:(lia) ltac:(lia)).
      split; [lia|]. rewrite Zminus_mod, Zmod_mod, Z.sub_diag. apply Zmod_0_l.
    + intros g _ Hne. apply Hother. exact Hne.
  - apply Z.eqb_neq in E. apply sum_none. intros g _.
    destruct (Nat.eq_dec g g0) as [->|Hne]; [|apply Hother; exact Hne].
    rewrite Hown. apply count_occ_not_In. intros Hin.
    apply in_range3 in Hin; [|lia]. destruct Hin as [Hr Hm]. apply E.
    replace idx with ((idx - pid) + pid) by lia.
    rewrite Zplus_mod, Hm. simpl. rewrite Zmod_mod. apply Z.mod_small. lia.
Qed.

(** X1: across all programs of a launch of the plain kernel, on any grid of
    at least one program, every well-formed tile is computed exactly once,
    and nothing else is computed. *)
Lemma launch_plain_exactly_once (p : kernel_args) (grid : Z) (y : mem) (st : kstate) :
  0 < BLOCK_SIZE_M p -> 0 < BLOCK_SIZE_N p -> 0 < grid ->
  launch_plain p grid y = Done st ->
  (forall t, tile_wf p t -> count_occ tile_eq_dec (visited st) t = 1%nat) /\
  (forall t, In t (visited st) -> tile_wf p t).
Proof.
  intros HBM HBN Hgrid HL. split.
  - intros t Hwf. rewrite (launch_plain_visited p grid y st HL), count_occ_flat_map.
    destruct (tile_wf_index p t HBM Hwf) as [_ Hidx].
    pose proof (Z.mod_pos_bound (tile_index p t) grid Hgrid) as Hmod.
    apply (sum_single _ _ (tile_index p t mod grid)).
    + apply NoDup_arange.
    + apply in_arange. exact Hmod.
    + rewrite plain_program_tiles_count by (try assumption; lia).
      rewrite Z.eqb_refl. reflexivity.
    + intros pid Hin Hne. apply in_arange in Hin.
      rewrite plain_program_tiles_count by assumption.
      replace (tile_index p t mod grid =? pid) with false
        by (symmetry; apply Z.eqb_neq; congruence).
      reflexivity.
  - intros t Hin.
    pose proof (launch_plain_extends p grid y st HBM HBN HL) as He.
    apply extends_log_wf in He. rewrite Forall_forall in He. apply He. exact Hin.
Qed.

(** ** Which tiles the fp8 launch computes *)

Lemma range_len_nil (start stop step : Z) :
  0 < step -> stop <= start -> range_len start stop step = O.
Proof.
  intros Hs Hge. unfold range_len.
  assert ((stop - start + step - 1) / step <= 0).
  { apply Z.lt_succ_r. apply Z.div_lt_upper_bound; lia. }
  lia.
Qed.

Lemma range_len_cons (start stop step : Z) :
  0 < step -> start < stop ->
  range_len start stop step = S (range_len (start + step) stop step).
Proof.
  intros Hs Hlt. unfold range_len.
  replace (stop - start + step - 1) with ((stop - (start + step) + step - 1) + 1 * step)
    by lia.
  rewrite Z.div_add by lia.
  assert (0 <= (stop - (start + step) + step - 1) / step)
    by (apply Z.div_pos; lia).
  lia.
Qed.

Lemma range3_nil (start stop step : Z) :
  0 < step -> stop <= start -> range3 start stop step = [].
Proof.
  intros Hs Hge. unfold range3. rewrite range_len_nil by assumption. reflexivity.
Qed.

Lemma range3_cons (start stop step : Z) :
  0 < step -> start < stop ->
  range3 start stop step = start :: range3 (start + step) stop step.
Proof.
  intros Hs Hlt. unfold range3. rewrite range_len_cons by assumption.
  simpl. f_equal; [lia|].
  rewrite <- seq_shift, map_map. apply map_ext. intros i. lia.
Qed.

Lemma fp8_while_log (p : kernel_args) (g : nat)
    (off m_size n_size num_m num_tiles it : Z) (fuel : nat) :
  0 < NUM_SMS p ->
  forall tidx st,
    it <= tidx ->
    it + num_tiles - tidx <= Z.of_nat fuel ->
    exists st',
      fp8_while fuel p g off m_size n_size num_m num_tiles it tidx st
      = Some (tidx + Z.of_nat (range_len tidx (it + num_tiles) (NUM_SMS p)) * NUM_SMS p, st')
      /\ visited st' = visited st ++ fp8_while_tiles p g off num_m num_tiles it tidx.
Proof.
  intros HS. unfold fp8_while_tiles.
  induction fuel as [|fuel IH]; intros tidx st Hit Hf; simpl;
    destruct ((tidx >=? it) && (tidx <? it + num_tiles)) eqn:E.
  - apply andb_true_iff in E. destruct E as [_ E]. apply Z.ltb_lt in E. lia.
  - assert (it + num_tiles <= tidx).
    { apply andb_false_iff in E. destruct E as [E|E];
        [rewrite Z.geb_leb in E; apply Z.leb_gt in E|apply Z.ltb_ge in E]; lia. }
    rewrite range3_nil, range_len_nil by assumption.
    exists st. simpl. rewrite app_nil_r, Z.add_0_r. auto.
  - apply andb_true_iff in E. destruct E as [_ E]. apply Z.ltb_lt in E.
    destruct (IH (tidx + NUM_SMS p)
                 (fp8_tile p g off m_size n_size num_m st (tidx - it))
                 ltac:(lia) ltac:(lia)) as (st' & Hw & Hv).
    exists st'. rewrite Hw. split.
    + f_equal. f_equal. rewrite (range_len_cons tidx) by assumption. lia.
    + rewrite Hv, (range3_cons tidx) by assumption. simpl.
      unfold fp8_tile, commit_tile. simpl. rewrite <- app_assoc. reflexivity.
  - assert (it + num_tiles <= tidx).
    { apply andb_false_iff in E. destruct E as [E|E];
        [rewrite Z.geb_leb in E; apply Z.leb_gt in E|apply Z.ltb_ge in E]; lia. }
    rewrite range3_nil, range_len_nil by assumption.
    exists st. simpl. rewrite app_nil_r, Z.add_0_r. auto.
Qed.

Lemma mod0_multiple (a s : Z) : 0 < s -> (a mod s = 0 <-> exists k, a = s * k).
Proof.
  intros Hs. split.
  - intros H. exists (a / s). pose proof (Z.div_mod a s ltac:(lia)). lia.
  - intros (k & ->). rewrite Z.mul_comm. apply Z.mod_mul. lia.
Qed.

(** Inside a group, the cursor values the [while] loop stops at are exactly
    those the program owns. *)
Lemma in_while_range (p : kernel_args) (pid : Z) (n : nat) (tidx nt c : Z) :
  0 < NUM_SMS p -> cursor_inv p pid n tidx ->
  tiles_before p n <= c < tiles_before p n + nt ->
  (In c (range3 tidx (tiles_before p n + nt) (NUM_SMS p))
   <-> owned pid (NUM_SMS p) c = true).
Proof.
  intros HS (H1 & H2 & H3 & H4) Hc.
  rewrite in_range3 by assumption. unfold owned.
  rewrite andb_true_iff, Z.leb_le, Z.eqb_eq.
  apply mod0_multiple in H3; [|assumption]. destruct H3 as (k3 & H3).
  rewrite !mod0_multiple by assumption.
  split.
  - intros ((Hlo & Hhi) & (k & Hk)). split; [lia|]. exists (k + k3). lia.
  - intros (Hp & (k & Hk)).
    assert (Hd : c - tidx = NUM_SMS p * (k - k3)) by lia.
    assert (tidx <= c).
    { destruct (Z_le_dec tidx c) as [|Hn]; [assumption|exfalso].
      assert (k - k3 <= -1) by nia.
      assert (c <= tidx - NUM_SMS p) by nia.
      destruct H4 as [H4|H4]; lia. }
    split; [lia|]. exists (k - k3). exact Hd.
Qed.

Lemma while_exit_inv (p : kernel_args) (pid : Z) (n : nat) (tidx nt : Z) :
  0 < NUM_SMS p -> 0 <= nt -> cursor_inv p pid n tidx ->
  let tidx' :=
    tidx + Z.of_nat (range_len tidx (tiles_before p n + nt) (NUM_SMS p)) * NUM_SMS p in
  tiles_before p n + nt <= tidx' /\ pid <= tidx' /\
  (tidx' - pid) mod NUM_SMS p = 0 /\
  (tidx' = pid \/ tidx' - NUM_SMS p < tiles_before p n + nt).
Proof.
  intros HS Hnt (H1 & H2 & H3 & H4) tidx'.
  set (len := range_len tidx (tiles_before p n + nt) (NUM_SMS p)) in *.
  pose proof (range_len_bound tidx (tiles_before p n + nt) (NUM_SMS p) len HS) as Hlen.
  assert (Hge : tiles_before p n + nt <= tidx').
  { unfold tidx'. destruct (Z_lt_dec (tidx + Z.of_nat len * NUM_SMS p)
                               (tiles_before p n + nt)) as [Hlt|]; [|lia].
    apply Hlen in Hlt. lia. }
  split; [exact Hge|]. split; [unfold tidx'; nia|]. split.
  - apply mod0_multiple; [assumption|].
    apply mod0_multiple in H3; [|assumption]. destruct H3 as (k & Hk).
    exists (k + Z.of_nat len). unfold tidx'. lia.
  - destruct len as [|len'] eqn:El.
    + unfold tidx'. simpl. destruct H4; [left|right]; lia.
    + right.
      pose proof (range_len_bound tidx (tiles_before p n + nt) (NUM_SMS p) len' HS)
        as Hl'.
      assert (tidx + Z.of_nat len' * NUM_SMS p < tiles_before p n + nt)
        by (apply Hl'; fold len; lia).
      unfold tidx'. lia.
Qed.

(** What group [n] adds to the log of program [pid]: tile [t] once if it is
    a tile of this group whose global index the program owns. *)
Lemma fp8_group_count (p : kernel_args) (pid : Z) (s : fp8_loop) (n : nat) (t : tile) :
  0 < BLOCK_SIZE_M p -> 0 < BLOCK_SIZE_N p -> 0 <= N p -> 0 < NUM_SMS p ->
  tile_wf p t ->
  f_M_end_offset s = group_offset (m_sizes p) n ->
  f_iterated_tiles s = tiles_before p n ->
  cursor_inv p pid n (f_tidx s) ->
  exists s',
    fp8_group p (Some s) n = Some s' /\
    f_M_end_offset s' = group_offset (m_sizes p) (S n) /\
    f_iterated_tiles s' = tiles_before p (S n) /\
    cursor_inv p pid (S n) (f_tidx s') /\
    count_occ tile_eq_dec (visited (f_st s')) t
    = (count_occ tile_eq_dec (visited (f_st s)) t
       + tally ((t_group t =? n)%nat && owned pid (NUM_SMS p) (global_index p t)))%nat.
Proof.
  intros HBM HBN HN HS Hwf Hoff Hit Hinv.
  unfold fp8_group. rewrite group_offset_S, Hoff, Hit.
  simpl tiles_before. unfold group_num_tiles.
  destruct (nth n (m_sizes p) 0 >? 0) eqn:Em.
  - apply Z.gtb_lt in Em.
    set (m_size := nth n (m_sizes p) 0) in *.
    set (num_m := cdiv m_size (BLOCK_SIZE_M p)).
    set (nt := num_m * cdiv (N p) (BLOCK_SIZE_N p)).
    assert (Hnum : 0 < num_m) by (apply cdiv_pos; assumption).
    assert (Hnt : 0 <= nt).
    { unfold nt. apply Z.mul_nonneg_nonneg; [lia|]. unfold cdiv.
      apply Z.div_pos; lia. }
    pose proof Hinv as (Hi1 & _).
    match goal with
    | |- context [fp8_while ?f _ _ ?a ?b ?c ?d ?e ?h ?i ?st] =>
        destruct (fp8_while_log p n a b c d e h (Z.to_nat nt) HS i st
                    ltac:(lia) ltac:(lia)) as (st' & Hw & Hv);
        destruct (fp8_while_total p n a b c d e h f HS i st ltac:(right; lia))
          as ([tidx1 st1] & Hw1)
    end.
    (* the loop run with one more unit of fuel ends in the same way *)
    assert (Hsame : forall fuel tidx st r,
              fp8_while fuel p n (group_offset (m_sizes p) n) m_size (N p) num_m nt
                        (tiles_before p n) tidx st = Some r ->
              fp8_while (S fuel) p n (group_offset (m_sizes p) n) m_size (N p) num_m nt
                        (tiles_before p n) tidx st = Some r).
    { induction fuel as [|fuel IH]; intros tidx st r; simpl;
        destruct ((tidx >=? tiles_before p n) && (tidx <? tiles_before p n + nt));
        try discriminate; auto.
      intros H. apply IH in H. simpl in H. exact H. }
    apply Hsame in Hw. fold m_size num_m nt in Hw1. rewrite Hw in Hw1.
    inversion Hw1; subst tidx1 st1. clear Hw1.
    fold m_size num_m nt. rewrite Hw.
    eexists. split; [reflexivity|]. cbn [f_M_end_offset f_iterated_tiles f_tidx f_st].
    split; [reflexivity|]. split; [reflexivity|]. split.
    + unfold cursor_inv. simpl tiles_before. unfold group_num_tiles.
      fold m_size. replace (m_size >? 0) with true by (symmetry; apply Z.gtb_lt; lia).
      fold num_m nt. apply (while_exit_inv p pid n (f_tidx s) nt HS Hnt Hinv).
    + rewrite Hv, count_occ_app. f_equal.
      * destruct (USE_TMA_STORE p); reflexivity.
      * unfold fp8_while_tiles.
        destruct (Nat.eqb_spec (t_group t) n) as [Eg|Eg].
        -- destruct (tile_wf_index p t HBM Hwf) as [Ht Hidx].
           unfold tile_msize in Ht, Hidx. rewrite Eg in Ht, Hidx.
           fold m_size num_m in Ht, Hidx. fold nt in Hidx.
           assert (Hgi : global_index p t = tiles_before p n + tile_index p t)
             by (unfold global_index; rewrite Eg; reflexivity).
           assert (Hte : t = (fun c => mk_tile n (group_offset (m_sizes p) n) num_m
                                               (c - tiles_before p n))
                              (global_index p t)).
           { rewrite Hgi. cbv beta.
             replace (tiles_before p n + tile_index p t - tiles_before p n)
               with (tile_index p t) by lia. exact Ht. }
           rewrite Hte at 1.
           rewrite (count_occ_map_inj Z.eq_dec tile_eq_dec
                      (fun c => mk_tile n (group_offset (m_sizes p) n) num_m
                                        (c - tiles_before p n))
                      _ (global_index p t)).
           ++ simpl andb. unfold tally.
              destruct (owned pid (NUM_SMS p) (global_index p t)) eqn:Eo.
              ** apply count_occ_NoDup_In; [apply NoDup_range3; assumption|].
                 apply (in_while_range p pid n); try assumption. lia.
              ** apply count_occ_not_In. intros Hin.
                 apply (in_while_range p pid n) in Hin; try assumption; [congruence|lia].
           ++ intros a b Hab. apply mk_tile_inj in Hab; [lia|assumption].
        -- simpl. apply count_occ_not_In. intros Hin.
           apply in_map_iff in Hin. destruct Hin as (c & <- & _). simpl in Eg. congruence.
  - eexists. split; [reflexivity|]. cbn [f_M_end_offset f_iterated_tiles f_tidx f_st].
    split; [reflexivity|]. split; [lia|]. split.
    + destruct Hinv as (H1 & H2 & H3 & H4). unfold cursor_inv. simpl tiles_before.
      unfold group_num_tiles. rewrite Em. rewrite Z.add_0_r. auto.
    + destruct (Nat.eqb_spec (t_group t) n) as [Eg|Eg]; simpl; [|lia].
      exfalso. destruct Hwf as (_ & Hms & _). unfold tile_msize in Hms.
      rewrite Eg in Hms. rewrite Z.gtb_ltb in Em.
      apply Z.ltb_ge in Em. lia.
Qed.

Lemma tally_split (g n : nat) (o : bool) :
  tally ((g <? S n)%nat && o)
  = (tally ((g <? n)%nat && o) + tally ((g =? n)%nat && o))%nat.
Proof.
  destruct (Nat.ltb_spec g (S n)), (Nat.ltb_spec g n), (Nat.eqb_spec g n), o;
    simpl; try reflexivity; lia.
Qed.

Lemma fp8_groups_count (p : kernel_args) (pid : Z) (s0 : fp8_loop) (t : tile) (n : nat) :
  0 < BLOCK_SIZE_M p -> 0 < BLOCK_SIZE_N p -> 0 <= N p -> 0 < NUM_SMS p ->
  tile_wf p t -> 0 <= pid ->
  f_M_end_offset s0 = 0 -> f_iterated_tiles s0 = 0 -> f_tidx s0 = pid ->
  exists s',
    fold_left (fp8_group p) (seq 0 n) (Some s0) = Some s' /\
    f_M_end_offset s' = group_offset (m_sizes p) n /\
    f_iterated_tiles s' = tiles_before p n /\
    cursor_inv p pid n (f_tidx s') /\
    count_occ tile_eq_dec (visited (f_st s')) t
    = (count_occ tile_eq_dec (visited (f_st s0)) t
       + tally ((t_group t <? n)%nat && owned pid (NUM_SMS p) (global_index p t)))%nat.
Proof.
  intros HBM HBN HN HS Hwf Hpid H1 H2 H3. induction n as [|n IH].
  - exists s0. simpl. split; [reflexivity|]. split; [exact H1|]. split; [exact H2|].
    split; [|lia].
    rewrite H3. unfold cursor_inv. simpl. rewrite Z.sub_diag, Zmod_0_l.
    repeat split; try lia.
  - destruct IH as (s1 & Hf & Ho & Hi & Hc & Hn).
    destruct (fp8_group_count p pid s1 n t HBM HBN HN HS Hwf Ho Hi Hc)
      as (s2 & Hg & Ho2 & Hi2 & Hc2 & Hn2).
    exists s2. rewrite seq_S, fold_left_app, Hf. simpl fold_left.
    split; [exact Hg|]. split; [exact Ho2|]. split; [exact Hi2|]. split; [exact Hc2|].
    rewrite Hn2, Hn, tally_split. lia.
Qed.

(** One program of the fp8 kernel logs a well-formed tile once if it owns
    the tile's global index, and never otherwise. *)
Lemma kernel_fp8_count (p : kernel_args) (pid : Z) (st : kstate) (t : tile) :
  0 < BLOCK_SIZE_M p -> 0 < BLOCK_SIZE_N p -> 0 <= N p -> 0 < NUM_SMS p ->
  tile_wf p t -> 0 <= pid ->
  exists st',
    _kernel_grouped_gemm_fp8_rowwise p pid st = Some st' /\
    count_occ tile_eq_dec (visited st') t
    = (count_occ tile_eq_dec (visited st) t
       + tally (owned pid (NUM_SMS p) (global_index p t)))%nat.
Proof.
  intros HBM HBN HN HS Hwf Hpid. unfold _kernel_grouped_gemm_fp8_rowwise.
  match goal with
  | |- context [fold_left _ _ (Some ?s)] =>
      destruct (fp8_groups_count p pid s t (G p) HBM HBN HN HS Hwf Hpid
                  eq_refl eq_refl eq_refl) as (s' & Hf & _ & _ & _ & Hn)
  end.
  rewrite Hf. simpl. eexists. split; [reflexivity|].
  rewrite Hn. simpl.
  destruct Hwf as (Hg & _).
  replace (t_group t <? G p)%nat with true by (symmetry; apply Nat.ltb_lt; exact Hg).
  simpl. destruct (USE_TMA_STORE p); reflexivity.
Qed.

Lemma tiles_before_nonneg (p : kernel_args) (n : nat) :
  0 < BLOCK_SIZE_M p -> 0 < BLOCK_SIZE_N p -> 0 <= N p -> 0 <= tiles_before p n.
Proof.
  intros HBM HBN HN. induction n as [|n IH]; simpl; [lia|].
  unfold group_num_tiles. destruct (nth n (m_sizes p) 0 >? 0) eqn:E; [|lia].
  apply Z.gtb_lt in E.
  pose proof (cdiv_pos _ _ E HBM).
  assert (0 <= cdiv (N p) (BLOCK_SIZE_N p)) by (unfold cdiv; apply Z.div_pos; lia).
  nia.
Qed.

(** Among the program ids [0 .. grid-1] of a grid no larger than [step],
    index [c] is owned by the program whose id is [c mod step], if that
    program was launched, and by no other. *)
Lemma owners_in_grid (grid step c : Z) :
  0 < step -> 0 <= grid <= step -> 0 <= c ->
  fold_right Nat.add O (map (fun pid => tally (owned pid step c)) (arange grid))
  = tally (c mod step <? grid).
Proof.
  intros Hs Hg Hc.
  pose proof (Z.mod_pos_bound c step Hs) as Hm.
  assert (Hown : forall pid, 0 <= pid < step ->
            (owned pid step c = true <-> pid = c mod step)).
  { intros pid Hp. unfold owned. rewrite andb_true_iff, Z.leb_le, Z.eqb_eq.
    rewrite mod0_multiple by assumption. split.
    - intros (Hle & (k & Hk)). replace c with (pid + k * step) by lia.
      rewrite Z.mod_add by lia. rewrite Z.mod_small; lia.
    - intros ->. pose proof (Z.mod_le c step Hc Hs).
      split; [lia|]. exists (c / step).
      pose proof (Z.div_mod c step ltac:(lia)). lia. }
  destruct (c mod step <? grid) eqn:E; simpl.
  - apply Z.ltb_lt in E. apply (sum_single _ _ (c mod step)).
    + apply NoDup_arange.
    + apply in_arange. lia.
    + replace (owned (c mod step) step c) with true; [reflexivity|].
      symmetry. apply Hown; [lia|reflexivity].
    + intros pid Hin Hne. apply in_arange in Hin.
      destruct (owned pid step c) eqn:Eo; [|reflexivity].
      exfalso. apply Hne. apply Hown; [lia|exact Eo].
  - apply Z.ltb_ge in E. apply sum_none. intros pid Hin. apply in_arange in Hin.
    destruct (owned pid step c) eqn:Eo; [|reflexivity].
    exfalso. apply Hown in Eo; lia.
Qed.

(** A launch of the fp8 kernel on [grid <= NUM_SMS] programs computes the
    tile with global index [c] once if [c mod NUM_SMS < grid], and never
    otherwise. *)
Lemma launch_fp8_count (p : kernel_args) (grid : Z) (y : mem) (t : tile) :
  0 < BLOCK_SIZE_M p -> 0 < BLOCK_SIZE_N p -> 0 <= N p -> 0 < NUM_SMS p ->
  K p mod BLOCK_SIZE_K p = 0 -> 0 <= grid <= NUM_SMS p ->
  tile_wf p t ->
  exists st,
    launch_fp8 p grid y = Done st /\
    count_occ tile_eq_dec (visited st) t
    = tally (global_index p t mod NUM_SMS p <? grid).
Proof.
  intros HBM HBN HN HS HK Hgrid Hwf. unfold launch_fp8.
  replace (K p mod BLOCK_SIZE_K p =? 0) with true by (symmetry; apply Z.eqb_eq; exact HK).
  assert (Hgen : forall l st1, (forall pid, In pid l -> 0 <= pid) ->
            exists st2,
              fold_left (fun st pid =>
                           match st with
                           | None => None
                           | Some st => _kernel_grouped_gemm_fp8_rowwise p pid st
                           end) l (Some st1) = Some st2 /\
              count_occ tile_eq_dec (visited st2) t
              = (count_occ tile_eq_dec (visited st1) t
                 + fold_right Nat.add O
                     (map (fun pid => tally (owned pid (NUM_SMS p) (global_index p t))) l))%nat).
  { induction l as [|pid l IH]; intros st1 Hl; simpl.
    - exists st1. split; [reflexivity|lia].
    - destruct (kernel_fp8_count p pid st1 t HBM HBN HN HS Hwf
                  (Hl pid (or_introl eq_refl))) as (st1' & Hk & Hc).
      rewrite Hk.
      destruct (IH st1' (fun q Hq => Hl q (or_intror Hq))) as (st2 & Hf & Hc2).
      exists st2. split; [exact Hf|]. rewrite Hc2, Hc. lia. }
  destruct (Hgen (arange grid) (init_state p y)) as (st & Hf & Hc).
  { intros pid Hin. apply in_arange in Hin. lia. }
  rewrite Hf. exists st. split; [reflexivity|].
  rewrite Hc. simpl. apply owners_in_grid; try assumption.
  destruct (tile_wf_index p t HBM Hwf) as [_ Hidx].
  pose proof (tiles_before_nonneg p (t_group t) HBM HBN HN).
  unfold global_index. lia.
Qed.

(** X2: launched on as many programs as its stride [NUM_SMS], the fp8 kernel
    returns, having computed every well-formed tile exactly once and
    nothing else. *)
Lemma launch_fp8_exactly_once (p : kernel_args) (y : mem) :
  0 < BLOCK_SIZE_M p -> 0 < BLOCK_SIZE_N p -> 0 <= N p -> 0 < NUM_SMS p ->
  K p mod BLOCK_SIZE_K p = 0 ->
  exists st,
    launch_fp8 p (NUM_SMS p) y = Done st /\
    (forall t, tile_wf p t -> count_occ tile_eq_dec (visited st) t = 1%nat) /\
    (forall t, In t (visited st) -> tile_wf p t).
Proof.
  intros HBM HBN HN HS HK.
  destruct (launch_fp8_total p (NUM_SMS p) y HS HK) as [st HL].
  exists st. split; [exact HL|]. split.
  - intros t Hwf.
    destruct (launch_fp8_count p (NUM_SMS p) y t HBM HBN HN HS HK ltac:(lia) Hwf)
      as (st' & HL' & Hc).
    rewrite HL in HL'. inversion HL'; subst st'. rewrite Hc.
    pose proof (Z.mod_pos_bound (global_index p t) (NUM_SMS p) HS).
    replace (global_index p t mod NUM_SMS p <? NUM_SMS p) with true
      by (symmetry; apply Z.ltb_lt; lia).
    reflexivity.
  - intros t Hin.
    pose proof (launch_fp8_extends p (NUM_SMS p) y st HBM HBN HL) as He.
    apply extends_log_wf in He. rewrite Forall_forall in He. apply He. exact Hin.
Qed.

(** X3: on the grid the host launches, [min(NUM_SMS, 4)] programs, the fp8
    kernel computes the tile with global index [c] exactly when
    [c mod NUM_SMS < min(NUM_SMS, 4)]: on a device with more than four
    multiprocessors every tile whose index has a residue of four or more is
    left out. *)
Lemma launch_fp8_host_grid (p : kernel_args) (y : mem) (t : tile) :
  0 < BLOCK_SIZE_M p -> 0 < BLOCK_SIZE_N p -> 0 <= N p -> 0 < NUM_SMS p ->
  K p mod BLOCK_SIZE_K p = 0 -> tile_wf p t ->
  exists st,
    launch_fp8 p (Z.min (NUM_SMS p) 4) y = Done st /\
    count_occ tile_eq_dec (visited st) t
    = tally (global_index p t mod NUM_SMS p <? Z.min (NUM_SMS p) 4).
Proof.
  intros HBM HBN HN HS HK Hwf.
  apply launch_fp8_count; try assumption. lia.
Qed.

(** ** Witnesses of the counting results *)

Lemma launch_plain_exactly_once_witness :
  exists st,
    launch_plain args_1x1 4 (fun _ => -1) = Done st /\
    (forall t, tile_wf args_1x1 t -> count_occ tile_eq_dec (visited st) t = 1%nat) /\
    (forall t, In t (visited st) -> tile_wf args_1x1 t).
Proof.
  eexists. split; [reflexivity|].
  apply (launch_plain_exactly_once args_1x1 4 (fun _ => -1)).
  - reflexivity.
  - reflexivity.
  - reflexivity.
  - reflexivity.
Defined.

Lemma launch_fp8_exactly_once_witness :
  exists st,
    launch_fp8 args_1x1 (NUM_SMS args_1x1) (fun _ => -1) = Done st /\
    (forall t, tile_wf args_1x1 t -> count_occ tile_eq_dec (visited st) t = 1%nat) /\
    (forall t, In t (visited st) -> tile_wf args_1x1 t).
Proof.
  apply (launch_fp8_exactly_once args_1x1 (fun _ => -1)).
  - reflexivity.
  - reflexivity.
  - discriminate.
  - reflexivity.
  - reflexivity.
Defined.

Lemma tile_wf_args_320 : tile_wf args_320 tile_4.
Proof. unfold tile_wf. vm_compute. repeat split; try discriminate. lia. Qed.

Lemma launch_fp8_host_grid_witness :
  exists st,
    launch_fp8 args_320 (Z.min (NUM_SMS args_320) 4) (fun _ => -1) = Done st /\
    count_occ tile_eq_dec (visited st) tile_4
    = tally (global_index args_320 tile_4 mod NUM_SMS args_320 <? Z.min (NUM_SMS args_320) 4).
Proof.
  apply (launch_fp8_host_grid args_320 (fun _ => -1) tile_4).
  - reflexivity.
  - reflexivity.
  - discriminate.
  - reflexivity.
  - reflexivity.
  - exact tile_wf_args_320.
Defined.

(** ** Stores of different tiles, and the extent of the output *)

Lemma nth_nonneg (ms : list Z) (g : nat) :
  Forall (fun m => 0 <= m) ms -> 0 <= nth g ms 0.
Proof.
  intros H. revert g. induction H; intros [|g]; simpl; try lia. apply IHForall.
Qed.

Lemma group_offset_mono (ms : list Z) (g1 g2 : nat) :
  Forall (fun m => 0 <= m) ms -> (g1 <= g2)%nat ->
  group_offset ms g1 <= group_offset ms g2.
Proof.
  intros H. induction 1 as [|g2 _ IH]; [lia|].
  rewrite group_offset_S. pose proof (nth_nonneg ms g2 H). lia.
Qed.

(** A row belongs to at most one group. *)
Lemma group_unique (ms : list Z) (g1 g2 : nat) (r : Z) :
  Forall (fun m => 0 <= m) ms ->
  group_offset ms g1 <= r < group_offset ms g1 + nth g1 ms 0 ->
  group_offset ms g2 <= r < group_offset ms g2 + nth g2 ms 0 ->
  g1 = g2.
Proof.
  intros H H1 H2.
  destruct (Nat.lt_trichotomy g1 g2) as [L|[E|L]]; [|exact E|]; exfalso.
  - pose proof (group_offset_mono ms (S g1) g2 H L) as M.
    rewrite group_offset_S in M. lia.
  - pose proof (group_offset_mono ms (S g2) g1 H L) as M.
    rewrite group_offset_S in M. lia.
Qed.

Lemma tile_index_unique (B i1 i2 x : Z) :
  0 < B -> i1 * B <= x < i1 * B + B -> i2 * B <= x < i2 * B + B -> i1 = i2.
Proof. intros. nia. Qed.

Lemma in_tile_unique (p : kernel_args) (t1 t2 : tile) (a : Z) :
  0 < BLOCK_SIZE_M p -> 0 < BLOCK_SIZE_N p ->
  Forall (fun m => 0 <= m) (m_sizes p) ->
  tile_wf p t1 -> tile_wf p t2 ->
  in_tile p t1 a = true -> in_tile p t2 a = true -> t1 = t2.
Proof.
  intros HBM HBN Hnn (Hg1 & Hm1 & Ho1 & Htm1 & Htn1) (Hg2 & Hm2 & Ho2 & Htm2 & Htn2) C1 C2.
  apply in_tile_spec in C1. apply in_tile_spec in C2.
  unfold lane_row, lane_col, tile_msize in *.
  destruct C1 as (_ & R1 & M1 & L1). destruct C2 as (_ & R2 & M2 & L2).
  assert (0 <= t_m_idx t1 * BLOCK_SIZE_M p) by nia.
  assert (0 <= t_m_idx t2 * BLOCK_SIZE_M p) by nia.
  assert (Hg : t_group t1 = t_group t2).
  { apply (group_unique (m_sizes p) _ _ (a / N p) Hnn); rewrite <- ?Ho1, <- ?Ho2; lia. }
  assert (Ho : t_row_offset t1 = t_row_offset t2) by congruence.
  assert (Hm : t_m_idx t1 = t_m_idx t2).
  { apply (tile_index_unique (BLOCK_SIZE_M p) _ _ (a / N p - t_row_offset t1) HBM); lia. }
  assert (Hn : t_n_idx t1 = t_n_idx t2).
  { apply (tile_index_unique (BLOCK_SIZE_N p) _ _ (a mod N p) HBN); lia. }
  destruct t1, t2; simpl in *; congruence.
Qed.

(** X4: in a launch of either kernel whose store offsets fit 32 bits, two
    different tiles the launch computes never store to the same output
    element, whatever blocks they hold and whichever store path is compiled
    in: the launch has no write conflicts between tiles, hence none between
    programs. *)
Theorem tiles_store_to_disjoint_elements
    (p : kernel_args) (grid : Z) (y : mem) (st : kstate)
    (t1 t2 : tile) (c1 c2 : block) (a v1 v2 : Z) :
  0 < BLOCK_SIZE_M p -> 0 < BLOCK_SIZE_N p ->
  Forall (fun m => 0 <= m) (m_sizes p) -> stores_fit p ->
  launch_plain p grid y = Done st \/ launch_fp8 p grid y = Done st ->
  In t1 (visited st) -> In t2 (visited st) -> t1 <> t2 ->
  In (a, v1) (tile_store p t1 c1) -> ~ In (a, v2) (tile_store p t2 c2).
Proof.
  intros HBM HBN Hnn Hsf HL Hin1 Hin2 Hne I1 I2.
  assert (Hwf : Forall (tile_wf p) (visited st)).
  { destruct HL as [HL|HL].
    - eapply extends_log_wf. eapply launch_plain_extends; eassumption.
    - eapply extends_log_wf. eapply launch_fp8_extends; eassumption. }
  rewrite Forall_forall in Hwf.
  pose proof (Hwf t1 Hin1) as W1. pose proof (Hwf t2 Hin2) as W2.
  rewrite tile_store_canon in I1
    by (first [apply tile_wf_tm; [lia|assumption] | apply tile_wf_tn; [lia|assumption]
              | apply tile_wf_fits; assumption]).
  rewrite tile_store_canon in I2
    by (first [apply tile_wf_tm; [lia|assumption] | apply tile_wf_tn; [lia|assumption]
              | apply tile_wf_fits; assumption]).
  apply tile_writes_in in I1; [|apply tile_wf_tn; [lia|assumption]].
  apply tile_writes_in in I2; [|apply tile_wf_tn; [lia|assumption]].
  apply Hne. apply (in_tile_unique p t1 t2 a); tauto.
Qed.

Lemma tiles_store_to_disjoint_elements_witness :
  exists st,
    launch_plain args_two_rows 1 (fun _ => -1) = Done st /\
    In tile_0 (visited st) /\ In tile_1 (visited st) /\
    In (0, 5) (tile_store args_two_rows tile_0 (fun _ _ => 5)) /\
    ~ In (0, 6) (tile_store args_two_rows tile_1 (fun _ _ => 6)).
Proof.
  set (st := fold_left (fun st pid => _kernel_grouped_gemm args_two_rows pid 1 st)
                       (arange 1) (init_state args_two_rows (fun _ => -1))).
  exists st. split; [reflexivity|].
  assert (H0 : In tile_0 (visited st)) by (vm_compute; left; reflexivity).
  assert (H1 : In tile_1 (visited st)) by (vm_compute; right; left; reflexivity).
  assert (H : In (0, 5) (tile_store args_two_rows tile_0 (fun _ _ => 5)))
    by (vm_compute; left; reflexivity).
  split; [exact H0|]. split; [exact H1|]. split; [exact H|].
  apply (tiles_store_to_disjoint_elements args_two_rows 1 (fun _ => -1) st
           tile_0 tile_1 (fun _ _ => 5) (fun _ _ => 6) 0 5 6).
  - reflexivity.
  - reflexivity.
  - repeat constructor; discriminate.
  - unfold stores_fit. simpl. lia.
  - left. reflexivity.
  - exact H0.
  - exact H1.
  - discriminate.
  - exact H.
Defined.

(** X5: a launch of either kernel on valid arguments whose store offsets fit
    32 bits leaves every offset outside the [sum m_sizes x N] output buffer
    as it was. *)
Theorem launch_writes_stay_in_output
    (p : kernel_args) (grid : Z) (y : mem) (st : kstate) :
  valid_args p -> stores_fit p ->
  launch_plain p grid y = Done st \/ launch_fp8 p grid y = Done st ->
  forall a, ~ (0 <= a < fold_right Z.add 0 (m_sizes p) * N p) -> c_mem st a = y a.
Proof.
  intros Hv Hsf HL a Ha.
  pose proof Hv as (HBM & HBN & _).
  assert (Hframe : forall blk, extends p blk (init_state p y) st -> c_mem st a = y a).
  { intros blk He. apply (launch_frame p blk); [exact He|].
    pose proof (extends_log_wf p blk y st He) as Hwf.
    rewrite (covered_in_tiles p (visited st) a Hv Hsf Hwf).
    destruct (in_tiles p (visited st) a) eqn:E; [exfalso|reflexivity].
    apply existsb_exists in E. destruct E as (t & Hin & Hc).
    rewrite Forall_forall in Hwf.
    destruct (in_tile_in_range p t a Hv (Hwf t Hin) Hc) as (Hr & Hcl & Hdec).
    apply Ha. nia. }
  destruct HL as [HL|HL].
  - apply (Hframe (plain_block p)). eapply launch_plain_extends; eassumption.
  - apply (Hframe (fp8_block p)). eapply launch_fp8_extends; eassumption.
Qed.

Lemma launch_writes_stay_in_output_witness :
  exists st,
    launch_plain args_1x1 4 (fun _ => -1) = Done st /\
    forall a, ~ (0 <= a < fold_right Z.add 0 (m_sizes args_1x1) * N args_1x1) ->
              c_mem st a = -1.
Proof.
  eexists. split; [reflexivity|].
  apply (launch_writes_stay_in_output args_1x1 4 (fun _ => -1)).
  - exact valid_args_1x1.
  - exact stores_fit_1x1.
  - left. reflexivity.
Defined.

(** ** Negative group sizes *)

Lemma cdiv_last (m B : Z) : 0 < m -> 0 < B -> cdiv m B = (m - 1) / B + 1.
Proof.
  intros Hm HB. unfold cdiv.
  replace (m + B - 1) with ((m - 1) + 1 * B) by lia.
  rewrite Z.div_add by lia. reflexivity.
Qed.

(** X6: the kernel trusts the group sizes.  The output buffer has
    [sum m_sizes] rows, the sum being all the entry point checks; when
    negative sizes let a non-empty group reach beyond that sum, the launch
    stores into the group's last row, at or past the end of the buffer
    (the group's own offsets fitting 32 bits). *)
Theorem negative_sizes_store_past_the_buffer
    (p : kernel_args) (grid : Z) (y : mem) (st : kstate) (g : nat) :
  0 < BLOCK_SIZE_M p -> 0 < BLOCK_SIZE_N p -> 0 < N p -> 0 < grid ->
  (g < G p)%nat -> 0 < nth g (m_sizes p) 0 ->
  fold_right Z.add 0 (m_sizes p) < group_offset (m_sizes p) g + nth g (m_sizes p) 0 ->
  0 <= group_offset (m_sizes p) g ->
  (group_offset (m_sizes p) g + nth g (m_sizes p) 0) * N p <= 2147483648 ->
  launch_plain p grid y = Done st ->
  exists t a v,
    In t (visited st) /\
    In (a, v) (tile_store p t (plain_block p t)) /\
    fold_right Z.add 0 (m_sizes p) * N p <= a.
Proof.
  intros HBM HBN HN Hgrid Hg Hm Hover Hoff0 Hfit32 HL.
  set (m := nth g (m_sizes p) 0) in *.
  set (off := group_offset (m_sizes p) g) in *.
  set (num_m := cdiv m (BLOCK_SIZE_M p)).
  assert (Hnum : num_m = (m - 1) / BLOCK_SIZE_M p + 1) by (apply cdiv_last; lia).
  assert (Hq : 0 <= (m - 1) / BLOCK_SIZE_M p) by (apply Z.div_pos; lia).
  assert (Hnn : 0 < cdiv (N p) (BLOCK_SIZE_N p)) by (apply cdiv_pos; lia).
  set (t := mk_tile g off num_m (num_m - 1)).
  assert (Htm : t_m_idx t = num_m - 1).
  { unfold t, mk_tile. simpl. apply Z.mod_small. lia. }
  assert (Htn : t_n_idx t = 0).
  { unfold t, mk_tile. simpl. apply Z.div_small. lia. }
  set (a := (off + m - 1) * N p + 0).
  destruct (row_col_of_offset (N p) (off + m - 1) 0 ltac:(lia)) as [Hrow Hcol].
  fold a in Hrow, Hcol.
  assert (Hcov : in_tile p t a = true).
  { apply in_tile_spec. unfold lane_row, lane_col, tile_msize.
    rewrite Hrow, Hcol, Htm, Htn. unfold t, mk_tile. cbn [t_row_offset t_group].
    fold m.
    pose proof (Z.div_mod (m - 1) (BLOCK_SIZE_M p) ltac:(lia)).
    pose proof (Z.mod_pos_bound (m - 1) (BLOCK_SIZE_M p) HBM).
    nia. }
  exists t, a, (plain_block p t (lane_row p t a) (lane_col p t a)).
  split; [|split].
  - rewrite (launch_plain_visited p grid y st HL).
    apply launch_plain_tiles_complete; try assumption. fold m. fold num_m. nia.
  - assert (Hfit : tile_fits p t).
    { unfold tile_fits, tile_msize, t, mk_tile. cbn [t_row_offset t_group].
      fold m. fold off. destruct (USE_TMA_STORE p); nia. }
    rewrite tile_store_canon by (first [exact Hfit | rewrite ?Htm, ?Htn; nia]).
    apply tile_writes_covered; [rewrite Htn; lia|exact Hcov].
  - unfold a. nia.
Qed.

Lemma negative_sizes_store_past_the_buffer_witness :
  exists st,
    launch_plain args_negative 1 (fun _ => -1) = Done st /\
    exists t a v,
      In t (visited st) /\
      In (a, v) (tile_store args_negative t (plain_block args_negative t)) /\
      fold_right Z.add 0 (m_sizes args_negative) * N args_negative <= a.
Proof.
  eexists. split; [reflexivity|].
  apply (negative_sizes_store_past_the_buffer args_negative 1 (fun _ => -1) _ 0%nat).
  - reflexivity.
  - reflexivity.
  - reflexivity.
  - reflexivity.
  - apply Nat.lt_0_succ.
  - reflexivity.
  - reflexivity.
  - discriminate.
  - discriminate.
  - reflexivity.
Defined.

(** ** Leaving the [while] loop *)

Lemma fp8_while_total_neg (p : kernel_args) (g : nat)
    (off m_size n_size num_m num_tiles it : Z) (fuel : nat) :
  NUM_SMS p < 0 ->
  forall tidx st,
    tidx < it \/ tidx - it < Z.of_nat fuel ->
    exists r, fp8_while fuel p g off m_size n_size num_m num_tiles it tidx st = Some r.
Proof.
  intros HS. induction fuel as [|fuel IH]; intros tidx st Hf; simpl;
    destruct ((tidx >=? it) && (tidx <? it + num_tiles)) eqn:E;
    try (eexists; reflexivity);
    apply andb_true_iff in E; destruct E as [E1 E2];
    apply Z.geb_le in E1; apply Z.ltb_lt in E2.
  - lia.
  - apply IH. lia.
Qed.

Lemma fp8_while_stuck (p : kernel_args) (g : nat)
    (off m_size n_size num_m num_tiles it tidx : Z) (fuel : nat) :
  NUM_SMS p = 0 -> it <= tidx < it + num_tiles ->
  forall st, fp8_while fuel p g off m_size n_size num_m num_tiles it tidx st = None.
Proof.
  intros HS Hin. induction fuel as [|fuel IH]; intros st; simpl;
    replace ((tidx >=? it) && (tidx <? it + num_tiles)) with true
      by (symmetry; apply andb_true_iff; split; [apply Z.geb_le|apply Z.ltb_lt]; lia).
  - reflexivity.
  - rewrite HS, Z.add_0_r. apply IH.
Qed.

(** X7: a [while] loop of the fp8 kernel that is entered, the cursor lying
    inside the current group's tile range, is left again exactly when the
    stride [NUM_SMS] is not zero, and then within the [num_tiles + 1]
    iterations [fp8_group] allows; with a zero stride the cursor never moves
    and no number of iterations suffices. *)
Theorem fp8_while_exits_iff_stride_nonzero
    (p : kernel_args) (g : nat) (off m_size n_size num_m num_tiles it tidx : Z)
    (st : kstate) :
  it <= tidx < it + num_tiles ->
  ((exists fuel r,
      fp8_while fuel p g off m_size n_size num_m num_tiles it tidx st = Some r)
   <-> NUM_SMS p <> 0) /\
  (NUM_SMS p <> 0 ->
   exists r, fp8_while (S (Z.to_nat num_tiles)) p g off m_size n_size num_m num_tiles
                       it tidx st = Some r) /\
  (NUM_SMS p = 0 ->
   forall fuel,
     fp8_while fuel p g off m_size n_size num_m num_tiles it tidx st = None).
Proof.
  intros Hin.
  assert (Hex : NUM_SMS p <> 0 ->
          exists r, fp8_while (S (Z.to_nat num_tiles)) p g off m_size n_size num_m
                              num_tiles it tidx st = Some r).
  { intros Hs. destruct (Z_lt_dec 0 (NUM_SMS p)) as [Hp|Hn].
    - apply fp8_while_total; [exact Hp|]. right. lia.
    - apply fp8_while_total_neg; [lia|]. right. lia. }
  assert (Hst : NUM_SMS p = 0 ->
          forall fuel,
            fp8_while fuel p g off m_size n_size num_m num_tiles it tidx st = None).
  { intros Hs fuel. apply fp8_while_stuck; assumption. }
  split; [split|split; assumption].
  - intros (fuel & r & Hr) Hs. rewrite (Hst Hs fuel) in Hr. discriminate.
  - intros Hs. exists (S (Z.to_nat num_tiles)). apply Hex. exact Hs.
Qed.

Lemma fp8_while_exits_iff_stride_nonzero_witness :
  let st := init_state (args_stride 0) (fun _ => -1) in
  ((exists fuel r, fp8_while fuel (args_stride 0) 0 0 1 1 1 1 0 0 st = Some r)
   <-> NUM_SMS (args_stride 0) <> 0) /\
  (NUM_SMS (args_stride 0) <> 0 ->
   exists r, fp8_while (S (Z.to_nat 1)) (args_stride 0) 0 0 1 1 1 1 0 0 st = Some r) /\
  (NUM_SMS (args_stride 0) = 0 ->
   forall fuel, fp8_while fuel (args_stride 0) 0 0 1 1 1 1 0 0 st = None).
Proof.
  intros st.
  apply (fp8_while_exits_iff_stride_nonzero (args_stride 0) 0 0 1 1 1 1 0 0 st).
  lia.
Defined.

(** ** Empty groups *)

Lemma plain_groups_empty (p : kernel_args) (pid num_pid : Z) (l : list nat) (s : Z * kstate) :
  (forall g, nth g (m_sizes p) 0 <= 0) ->
  snd (fold_left (plain_group p pid num_pid) l s) = snd s.
Proof.
  intros He. revert s. induction l as [|g l IH]; intros [off st]; simpl; [reflexivity|].
  replace (nth g (m_sizes p) 0 >? 0) with false
    by (symmetry; rewrite Z.gtb_ltb; apply Z.ltb_ge; apply He).
  rewrite IH. reflexivity.
Qed.

Lemma fp8_groups_empty (p : kernel_args) (l : list nat) (s : fp8_loop) :
  (forall g, nth g (m_sizes p) 0 <= 0) ->
  exists s', fold_left (fp8_group p) l (Some s) = Some s' /\ f_st s' = f_st s.
Proof.
  intros He. revert s. induction l as [|g l IH]; intros s; cbn [fold_left].
  - exists s. split; reflexivity.
  - unfold fp8_group at 2.
    replace (nth g (m_sizes p) 0 >? 0) with false
      by (symmetry; rewrite Z.gtb_ltb; apply Z.ltb_ge; apply He).
    match goal with |- context [Some ?s1] => destruct (IH s1) as (s' & Hf & Hs) end.
    exists s'. split; [exact Hf|exact Hs].
Qed.

Lemma kernel_plain_empty (p : kernel_args) (pid num_pid : Z) (st : kstate) :
  (forall g, nth g (m_sizes p) 0 <= 0) ->
  c_mem (_kernel_grouped_gemm p pid num_pid st) = c_mem st /\
  visited (_kernel_grouped_gemm p pid num_pid st) = visited st.
Proof.
  intros He. unfold _kernel_grouped_gemm. rewrite plain_groups_empty by exact He.
  cbn [snd]. destruct (USE_TMA_STORE p); split; reflexivity.
Qed.

Lemma kernel_fp8_empty (p : kernel_args) (pid : Z) (st : kstate) :
  (forall g, nth g (m_sizes p) 0 <= 0) ->
  exists st', _kernel_grouped_gemm_fp8_rowwise p pid st = Some st' /\
              c_mem st' = c_mem st /\ visited st' = visited st.
Proof.
  intros He. unfold _kernel_grouped_gemm_fp8_rowwise.
  match goal with
  | |- context [fold_left _ ?l (Some ?s)] =>
      destruct (fp8_groups_empty p l s He) as (s' & Hf & Hs)
  end.
  rewrite Hf. exists (f_st s'). split; [reflexivity|]. rewrite Hs. cbn [f_st].
  destruct (USE_TMA_STORE p); split; reflexivity.
Qed.

(** With no group of positive size a launch of either kernel computes no
    tile and leaves the output buffer as it was, on any grid and for any
    stride of the fp8 cursor. *)
Lemma launch_empty (p : kernel_args) (grid : Z) (y : mem) :
  (forall g, nth g (m_sizes p) 0 <= 0) -> K p mod BLOCK_SIZE_K p = 0 ->
  (exists st, launch_plain p grid y = Done st /\ visited st = [] /\ c_mem st = y) /\
  (exists st, launch_fp8 p grid y = Done st /\ visited st = [] /\ c_mem st = y).
Proof.
  intros He HK. unfold launch_plain, launch_fp8.
  replace (K p mod BLOCK_SIZE_K p =? 0) with true by (symmetry; apply Z.eqb_eq; exact HK).
  split.
  - eexists. split; [reflexivity|].
    assert (Hgen : forall l st,
              visited (fold_left (fun st pid => _kernel_grouped_gemm p pid grid st) l st)
              = visited st /\
              c_mem (fold_left (fun st pid => _kernel_grouped_gemm p pid grid st) l st)
              = c_mem st).
    { induction l as [|pid l IH]; intros st; simpl; [split; reflexivity|].
      destruct (IH (_kernel_grouped_gemm p pid grid st)) as [-> ->].
      destruct (kernel_plain_empty p pid grid st He) as [-> ->]. split; reflexivity. }
    destruct (Hgen (arange grid) (init_state p y)) as [-> ->]. split; reflexivity.
  - assert (Hgen : forall l st, exists st',
              fold_left (fun st pid =>
                           match st with
                           | None => None
                           | Some st => _kernel_grouped_gemm_fp8_rowwise p pid st
                           end) l (Some st) = Some st' /\
              visited st' = visited st /\ c_mem st' = c_mem st).
    { induction l as [|pid l IH]; intros st; simpl.
      - exists st. repeat split.
      - destruct (kernel_fp8_empty p pid st He) as (st1 & -> & Hc & Hv).
        destruct (IH st1) as (st' & Hf & Hv' & Hc').
        exists st'. split; [exact Hf|]. split; congruence. }
    destruct (Hgen (arange grid) (init_state p y)) as (st' & -> & Hv & Hc).
    exists st'. split; [reflexivity|]. split; assumption.
Qed.

Lemma nth_all_zero (ms : list Z) (g : nat) :
  Forall (fun m => m = 0) ms -> nth g ms 0 <= 0.
Proof.
  intros H. revert g. induction H; intros [|g]; simpl; try lia. apply IHForall.
Qed.

(** X8: a call in which every group is empty (so [x] has no rows) returns,
    once the library calls before the launch have succeeded, the [0 x N]
    tensor on the untouched buffer [torch.empty] handed out, from both
    entry points: nothing is read through the descriptors, so this holds
    even when configuring them failed, and whatever the number of
    multiprocessors. *)
Theorem empty_groups_return_untouched_buffer
    (dev : device) (x w : tensor) (ms : sizes_tensor) :
  passes_checks dev x w ms ->
  Forall (fun m => m = 0) (sizes ms) ->
  allocations_succeed dev -> shape1 x mod 32 = 0 ->
  (exists y, fst (group_gemm_forward dev x w ms) = Return y /\
             shape0 y = 0 /\ shape1 y = shape0 w /\ data y = empty_contents dev) /\
  (forall sx sw, scale_contiguous sx = true -> scale_contiguous sw = true ->
     exists y, fst (group_gemm_fp8_rowwise dev x w ms sx sw) = Return y /\
               shape0 y = 0 /\ shape1 y = shape0 w /\ data y = empty_contents dev).
Proof.
  intros (H1 & H2 & H3 & H4 & H5 & H6) Hz (Ha1 & Ha2 & Ha3 & Ha4) HK.
  assert (Hs0 : fold_right Z.add 0 (sizes ms) = 0).
  { clear -Hz. induction Hz; simpl; lia. }
  assert (He : forall g, nth g (sizes ms) 0 <= 0) by (intros g; apply nth_all_zero; exact Hz).
  split; [|intros sx sw Hsx Hsw];
    unfold group_gemm_forward, group_gemm_fp8_rowwise, _grouped_gemm;
    rewrite H1, H2, H3, H4, ?Hsx, ?Hsw; cbn [negb];
    replace (shape1 x =? shape1 w) with true by (symmetry; apply Z.eqb_eq; exact H5);
    replace (shape0 x =? fold_right Z.add 0 (sizes ms)) with true
      by (symmetry; apply Z.eqb_eq; exact H6);
    rewrite Ha1, Ha2, Ha3, Ha4;
    cbn [negb is_some];
    destruct (tma_setup dev x w (shape0 x) (shape0 w) (shape1 x)) as [[dx dw] pr];
    cbn [fst data].
  - match goal with
    | |- context [launch_plain ?p ?g ?y] =>
        destruct (launch_empty p g y He HK) as [(st & -> & _ & Hc) _]
    end.
    unfold after_launch. eexists. split; [reflexivity|].
    cbn [shape0 shape1 data]. repeat split; [lia|exact Hc].
  - match goal with
    | |- context [launch_fp8 ?p ?g ?y] =>
        destruct (launch_empty p g y He HK) as [_ (st & -> & _ & Hc)]
    end.
    unfold after_launch. eexists. split; [reflexivity|].
    cbn [shape0 shape1 data]. repeat split; [lia|exact Hc].
Qed.

Lemma empty_groups_return_untouched_buffer_witness :
  (exists y, fst (group_gemm_forward dev_fill_fails x_0x32 w_2x32 sizes_0_0) = Return y /\
             shape0 y = 0 /\ shape1 y = shape0 w_2x32 /\
             data y = empty_contents dev_fill_fails) /\
  (forall sx sw, scale_contiguous sx = true -> scale_contiguous sw = true ->
     exists y, fst (group_gemm_fp8_rowwise dev_fill_fails x_0x32 w_2x32 sizes_0_0 sx sw)
               = Return y /\
               shape0 y = 0 /\ shape1 y = shape0 w_2x32 /\
               data y = empty_contents dev_fill_fails).
Proof.
  apply (empty_groups_return_untouched_buffer dev_fill_fails x_0x32 w_2x32 sizes_0_0).
  - repeat split.
  - repeat constructor.
  - repeat split.
  - reflexivity.
Defined.

(** ** The descriptor workspace *)

Lemma with_workspace_same_sched (p : kernel_args) (ws1 ws2 : Z -> out_desc) :
  same_sched (with_workspace p ws1) (with_workspace p ws2).
Proof. repeat split. Qed.

(** X9: the output of a launch does not depend on what the descriptor workspace
    holds when the kernel starts: every program writes its slot on entering
    a group before it stores through it. *)
Theorem output_independent_of_workspace
    (p : kernel_args) (grid : Z) (y : mem) (ws1 ws2 : Z -> out_desc) :
  valid_args p -> 0 < NUM_SMS p ->
  (exists st1 st2,
     launch_plain (with_workspace p ws1) grid y = Done st1 /\
     launch_plain (with_workspace p ws2) grid y = Done st2 /\
     forall a, c_mem st1 a = c_mem st2 a) /\
  (exists st1 st2,
     launch_fp8 (with_workspace p ws1) grid y = Done st1 /\
     launch_fp8 (with_workspace p ws2) grid y = Done st2 /\
     forall a, c_mem st1 a = c_mem st2 a).
Proof.
  intros Hv HS.
  pose proof Hv as (HBM & HBN & _ & _ & HK & _).
  split.
  - destruct (launch_plain_total (with_workspace p ws1) grid y HK) as [st1 H1].
    destruct (launch_plain_total (with_workspace p ws2) grid y HK) as [st2 H2].
    exists st1, st2. repeat split; try assumption. intros a.
    destruct (launch_plain_extends (with_workspace p ws1) grid y st1 HBM HBN H1)
      as (l1 & Hl1 & Hm1 & _).
    destruct (launch_plain_extends (with_workspace p ws2) grid y st2 HBM HBN H2)
      as (l2 & Hl2 & Hm2 & _).
    simpl in Hl1, Hl2, Hm1, Hm2. subst l1 l2. rewrite Hm1, Hm2.
    rewrite (launch_plain_visited _ grid y st1 H1).
    rewrite (launch_plain_visited _ grid y st2 H2).
    apply (f_equal (fun m : mem => m a)). apply replay_ext. intros t _. reflexivity.
  - destruct (launch_fp8_total (with_workspace p ws1) grid y HS HK) as [st1 H1].
    destruct (launch_fp8_total (with_workspace p ws2) grid y HS HK) as [st2 H2].
    exists st1, st2. repeat split; try assumption. intros a.
    destruct (launch_fp8_extends (with_workspace p ws1) grid y st1 HBM HBN H1)
      as (l1 & Hl1 & Hm1 & _).
    destruct (launch_fp8_extends (with_workspace p ws2) grid y st2 HBM HBN H2)
      as (l2 & Hl2 & Hm2 & _).
    simpl in Hl1, Hl2, Hm1, Hm2. subst l1 l2. rewrite Hm1, Hm2.
    pose proof (launch_fp8_same_log (with_workspace p ws1) (with_workspace p ws2)
                  grid y y (with_workspace_same_sched p ws1 ws2) eq_refl eq_refl) as HL.
    rewrite H1, H2 in HL. rewrite HL.
    apply (f_equal (fun m : mem => m a)). apply replay_ext. intros t _. reflexivity.
Qed.

Lemma output_independent_of_workspace_witness :
  let p := with_paths args_1x1 true true (fun _ => 7) in
  let ws1 : Z -> out_desc := fun _ => tensormap_create2d 0 0 0 in
  let ws2 : Z -> out_desc := fun i => tensormap_create2d (100 + i) 9 9 in
  (exists st1 st2,
     launch_plain (with_workspace p ws1) 4 (fun _ => -1) = Done st1 /\
     launch_plain (with_workspace p ws2) 4 (fun _ => -1) = Done st2 /\
     forall a, c_mem st1 a = c_mem st2 a) /\
  (exists st1 st2,
     launch_fp8 (with_workspace p ws1) 4 (fun _ => -1) = Done st1 /\
     launch_fp8 (with_workspace p ws2) 4 (fun _ => -1) = Done st2 /\
     forall a, c_mem st1 a = c_mem st2 a).
Proof.
  intros p ws1 ws2.
  apply (output_independent_of_workspace p 4 (fun _ => -1) ws1 ws2).
  - exact valid_args_1x1.
  - reflexivity.
Defined.

(** ** The fp8 entry point where its grid suffices *)

Lemma group_num_tiles_nonneg (p : kernel_args) (g : nat) :
  0 < BLOCK_SIZE_M p -> 0 < BLOCK_SIZE_N p -> 0 <= N p -> 0 <= group_num_tiles p g.
Proof.
  intros HBM HBN HN. unfold group_num_tiles.
  destruct (nth g (m_sizes p) 0 >? 0) eqn:E; [|lia].
  apply Z.gtb_lt in E.
  pose proof (cdiv_pos _ _ E HBM).
  assert (0 <= cdiv (N p) (BLOCK_SIZE_N p)) by (unfold cdiv; apply Z.div_pos; lia).
  nia.
Qed.

Lemma tiles_before_mono (p : kernel_args) (g1 g2 : nat) :
  0 < BLOCK_SIZE_M p -> 0 < BLOCK_SIZE_N p -> 0 <= N p -> (g1 <= g2)%nat ->
  tiles_before p g1 <= tiles_before p g2.
Proof.
  intros HBM HBN HN. induction 1 as [|g2 _ IH]; [lia|]. simpl.
  pose proof (group_num_tiles_nonneg p g2 HBM HBN HN). lia.
Qed.

(** The global index of a tile lies below the number of tiles of the whole
    problem. *)
Lemma global_index_bound (p : kernel_args) (t : tile) :
  0 < BLOCK_SIZE_M p -> 0 < BLOCK_SIZE_N p -> 0 <= N p -> tile_wf p t ->
  0 <= global_index p t < tiles_before p (G p).
Proof.
  intros HBM HBN HN Hwf.
  destruct (tile_wf_index p t HBM Hwf) as [_ Hidx].
  pose proof Hwf as (Hg & Hm & _).
  pose proof (tiles_before_nonneg p (t_group t) HBM HBN HN).
  pose proof (tiles_before_mono p (S (t_group t)) (G p) HBM HBN HN Hg) as Hmono.
  simpl in Hmono. unfold group_num_tiles in Hmono. fold (tile_msize p t) in Hmono.
  replace (tile_msize p t >? 0) with true in Hmono
    by (symmetry; rewrite Z.gtb_ltb; apply Z.ltb_lt; exact Hm).
  unfold global_index. lia.
Qed.

(** Every entry of the output lies in some well-formed tile. *)
Lemma covering_tile (p : kernel_args) (r c : Z) :
  valid_args p ->
  0 <= r < fold_right Z.add 0 (m_sizes p) -> 0 <= c < N p ->
  exists t, tile_wf p t /\ in_tile p t (r * N p + c) = true.
Proof.
  intros Hv Hr Hc.
  pose proof Hv as (HBM & HBN & _ & _ & HK & _).
  destruct (launch_plain_total p 1 (fun _ => 0) HK) as [st HL].
  destruct (launch_plain_reaches p 1 (fun _ => 0) st r c Hv ltac:(lia) HL Hr Hc)
    as (t & Hin & Hcov).
  exists t. split; [|exact Hcov].
  pose proof (launch_plain_extends p 1 (fun _ => 0) st HBM HBN HL) as He.
  apply extends_log_wf in He. rewrite Forall_forall in He. apply He. exact Hin.
Qed.

(** A launch of the fp8 kernel whose offsets fit fills the whole output
    with the rescaled product when it runs on as many programs as its
    stride, or when the problem has no more tiles than the grid has
    programs. *)
Lemma launch_fp8_correct (p : kernel_args) (grid : Z) (y : mem) :
  valid_args p -> offsets_fit p -> 0 < NUM_SMS p -> 0 <= grid <= NUM_SMS p ->
  grid = NUM_SMS p \/ tiles_before p (G p) <= grid ->
  exists st, launch_fp8 p grid y = Done st /\
    forall r c, 0 <= r < fold_right Z.add 0 (m_sizes p) -> 0 <= c < N p ->
      c_mem st (r * N p + c)
      = dot_row (desc_mem (a_desc_ptr p)) (desc_mem (b_desc_ptr p)) (K p) r c
        * a_scale_ptr p r * b_scale_ptr p c.
Proof.
  intros Hv Hof HS Hgrid Hsuff.
  pose proof Hv as (HBM & HBN & _ & _ & HK & _).
  destruct (launch_fp8_total p grid y HS HK) as [st HL].
  exists st. split; [exact HL|]. intros r c Hr Hc.
  destruct (covering_tile p r c Hv Hr Hc) as (t & Hwf & Hcov).
  destruct (launch_fp8_count p grid y t HBM HBN ltac:(lia) HS HK Hgrid Hwf)
    as (st' & HL' & Hcnt).
  rewrite HL in HL'. inversion HL'; subst st'.
  pose proof (global_index_bound p t HBM HBN ltac:(lia) Hwf) as Hgi.
  pose proof (Z.mod_pos_bound (global_index p t) (NUM_SMS p) HS) as Hmb.
  assert (Hlt : global_index p t mod NUM_SMS p < grid).
  { destruct Hsuff as [->|Hs]; [lia|]. rewrite Z.mod_small by lia. lia. }
  replace (global_index p t mod NUM_SMS p <? grid) with true in Hcnt
    by (symmetry; apply Z.ltb_lt; exact Hlt).
  assert (Hin : In t (visited st)).
  { apply (count_occ_In tile_eq_dec). rewrite Hcnt. simpl. lia. }
  rewrite (launch_fp8_char p grid y st _ Hv Hof HL).
  assert (Hcv : in_tiles p (visited st) (r * N p + c) = true).
  { unfold in_tiles. apply existsb_exists. exists t. auto. }
  rewrite Hcv. unfold fp8_entry, plain_entry.
  destruct (row_col_of_offset (N p) r c Hc) as [-> ->]. reflexivity.
Qed.

(** X10: on outputs of at most [2^31] elements, the quantized entry point
    returns the full rescaled product
    [(sum_k x[r,k] * w[c,k]) * x_scale[r] * w_scale[c]] whenever its grid of
    [min(NUM_SMS, 4)] programs suffices: on a device with at most four
    multiprocessors, or on a problem with at most four tiles. *)
Theorem fp8_entry_point_correct_when_grid_suffices
    (dev : device) (x w : tensor) (ms : sizes_tensor) (xs ws : scale_tensor) :
  valid_call dev x w ms -> no_fault dev ->
  scale_contiguous xs = true -> scale_contiguous ws = true ->
  shape0 x * shape0 w <= 2147483648 ->
  let args :=
    host_args dev
      (fill_2d_tma_descriptor x (shape0 x) (shape1 x))
      (fill_2d_tma_descriptor w (shape0 w) (shape1 x))
      (scale_data xs) (scale_data ws) ms (length (sizes ms)) (shape0 w) (shape1 x)
      (multi_processor_count dev) true true in
  multi_processor_count dev <= 4 \/ tiles_before args (G args) <= 4 ->
  exists y,
    fst (group_gemm_fp8_rowwise dev x w ms xs ws) = Return y /\
    shape0 y = shape0 x /\ shape1 y = shape0 w /\
    forall r c, 0 <= r < shape0 x -> 0 <= c < shape0 w ->
      data y (r * shape0 w + c)
      = dot_row (data x) (data w) (shape1 x) r c * scale_data xs r * scale_data ws c.
Proof.
  intros Hv Hf Hxs Hws Hsz args Hsuff. unfold group_gemm_fp8_rowwise.
  rewrite (grouped_gemm_fp8_unfold dev x w ms xs ws Hv Hf Hxs Hws). cbn [fst].
  pose proof (host_args_valid dev x w ms (scale_data xs) (scale_data ws) true true Hv) as Hva.
  pose proof (host_args_fit dev x w ms (scale_data xs) (scale_data ws) Hv Hsz) as Hfa.
  fold args in Hva, Hfa |- *.
  destruct Hv as (_ & _ & _ & _ & _ & Hsum & _ & _ & _ & Hsm).
  destruct (launch_fp8_total args (Z.min (multi_processor_count dev) 4)
              (empty_contents dev) Hsm ltac:(destruct Hva as (_&_&_&_&H&_); exact H))
    as [st HL].
  unfold after_launch. rewrite HL.
  eexists. split; [reflexivity|]. cbn [shape0 shape1 data]. repeat split.
  intros r c Hr Hc.
  destruct (launch_fp8_correct args (Z.min (multi_processor_count dev) 4)
              (empty_contents dev) Hva Hfa Hsm) as (st' & HL' & Hval).
  - simpl. lia.
  - simpl. destruct Hsuff as [H|H]; [left; lia|].
    destruct (Z_le_dec (multi_processor_count dev) 4); [left; lia|right].
    simpl in H. lia.
  - rewrite HL in HL'. inversion HL'; subst st'.
    apply (Hval r c); simpl; lia.
Qed.

Lemma fp8_entry_point_correct_when_grid_suffices_witness :
  exists y,
    fst (group_gemm_fp8_rowwise dev132 x_2x32 w_2x32 sizes_1_1 unit_scales scales_5_7)
    = Return y /\
    shape0 y = shape0 x_2x32 /\ shape1 y = shape0 w_2x32 /\
    forall r c, 0 <= r < shape0 x_2x32 -> 0 <= c < shape0 w_2x32 ->
      data y (r * shape0 w_2x32 + c)
      = dot_row (data x_2x32) (data w_2x32) (shape1 x_2x32) r c
        * scale_data unit_scales r * scale_data scales_5_7 c.
Proof.
  apply (fp8_entry_point_correct_when_grid_suffices
           dev132 x_2x32 w_2x32 sizes_1_1 unit_scales scales_5_7).
  - exact valid_call_2x32.
  - exact no_fault_dev132.
  - reflexivity.
  - reflexivity.
  - simpl. lia.
  - right. vm_compute. discriminate.
Defined.

(** ** The order of the programs *)

Lemma run_plain_extends (p : kernel_args) (num_pid : Z) (st0 : kstate) (pids : list Z) :
  0 < BLOCK_SIZE_M p -> 0 < BLOCK_SIZE_N p -> 0 < num_pid ->
  (forall pid, In pid pids -> 0 <= pid) ->
  forall st, extends p (plain_block p) st0 st ->
             extends p (plain_block p) st0 (run_plain p num_pid pids st).
Proof.
  intros HBM HBN Hn. unfold run_plain.
  induction pids as [|pid l IH]; intros Hl st He; simpl; [exact He|].
  apply IH; [intros q Hq; apply Hl; right; exact Hq|].
  apply kernel_plain_extends; try assumption. apply Hl. left. reflexivity.
Qed.

Lemma run_plain_visited (p : kernel_args) (num_pid : Z) (pids : list Z) (st : kstate) :
  visited (run_plain p num_pid pids st)
  = visited st ++ flat_map (fun pid => plain_program_tiles p pid num_pid) pids.
Proof.
  unfold run_plain. revert st. induction pids as [|pid l IH]; intros st; simpl.
  - rewrite app_nil_r. reflexivity.
  - rewrite IH, kernel_plain_visited, app_assoc. reflexivity.
Qed.

Lemma in_tiles_same_tiles (p : kernel_args) (l1 l2 : list tile) (a : Z) :
  (forall t, In t l1 -> in_tile p t a = true -> In t l2) ->
  (forall t, In t l2 -> in_tile p t a = true -> In t l1) ->
  in_tiles p l1 a = in_tiles p l2 a.
Proof.
  intros H12 H21. unfold in_tiles.
  destruct (existsb (fun t => in_tile p t a) l1) eqn:E1;
    destruct (existsb (fun t => in_tile p t a) l2) eqn:E2; try reflexivity.
  - apply existsb_exists in E1. destruct E1 as (t & Hin & Hc).
    assert (existsb (fun t => in_tile p t a) l2 = true)
      by (apply existsb_exists; exists t; split; [apply H12|]; assumption).
    congruence.
  - apply existsb_exists in E2. destruct E2 as (t & Hin & Hc).
    assert (existsb (fun t => in_tile p t a) l1 = true)
      by (apply existsb_exists; exists t; split; [apply H21|]; assumption).
    congruence.
Qed.

Lemma in_flat_map_perm {A B} (f : A -> list B) (l1 l2 : list A) (b : B) :
  Permutation l1 l2 -> In b (flat_map f l1) -> In b (flat_map f l2).
Proof.
  intros HP Hin. apply in_flat_map in Hin. destruct Hin as (x & Hx & Hb).
  apply in_flat_map. exists x. split; [|exact Hb].
  apply (Permutation_in _ HP). exact Hx.
Qed.

Lemma sum_perm {A} (f : A -> nat) (l1 l2 : list A) :
  Permutation l1 l2 ->
  fold_right Nat.add O (map f l1) = fold_right Nat.add O (map f l2).
Proof. induction 1; simpl; lia. Qed.

Lemma run_fp8_extends (p : kernel_args) (st0 : kstate) (pids : list Z) :
  0 < BLOCK_SIZE_M p -> 0 < BLOCK_SIZE_N p -> 0 < NUM_SMS p ->
  forall st, extends p (fp8_block p) st0 st ->
    exists st', run_fp8 p pids st = Some st' /\ extends p (fp8_block p) st0 st'.
Proof.
  intros HBM HBN HS. unfold run_fp8.
  induction pids as [|pid l IH]; intros st He; simpl.
  - exists st. split; [reflexivity|exact He].
  - destruct (kernel_fp8_total p pid st HS) as [st1 H1]. rewrite H1.
    apply IH. apply (kernel_fp8_extends p pid st0 st st1); assumption.
Qed.

Lemma run_fp8_count (p : kernel_args) (t : tile) (pids : list Z) :
  0 < BLOCK_SIZE_M p -> 0 < BLOCK_SIZE_N p -> 0 <= N p -> 0 < NUM_SMS p ->
  tile_wf p t -> (forall pid, In pid pids -> 0 <= pid) ->
  forall st st', run_fp8 p pids st = Some st' ->
    count_occ tile_eq_dec (visited st') t
    = (count_occ tile_eq_dec (visited st) t
       + fold_right Nat.add O
           (map (fun pid => tally (owned pid (NUM_SMS p) (global_index p t))) pids))%nat.
Proof.
  intros HBM HBN HN HS Hwf. unfold run_fp8.
  induction pids as [|pid l IH]; intros Hl st st' H; simpl in *.
  - inversion H; subst. lia.
  - destruct (kernel_fp8_count p pid st t HBM HBN HN HS Hwf (Hl pid (or_introl eq_refl)))
      as (st1 & Hk & Hc).
    rewrite Hk in H. rewrite (IH (fun q Hq => Hl q (or_intror Hq)) st1 st' H), Hc. lia.
Qed.

Lemma launch_fp8_run (p : kernel_args) (grid : Z) (y : mem) (st : kstate) :
  launch_fp8 p grid y = Done st -> run_fp8 p (arange grid) (init_state p y) = Some st.
Proof.
  unfold launch_fp8, run_fp8. destruct (K p mod BLOCK_SIZE_K p =? 0); [|discriminate].
  destruct (fold_left _ (arange grid) (Some (init_state p y))); [|discriminate].
  intros H. inversion H. reflexivity.
Qed.

(** X11: the output of a launch whose offsets fit 32 bits does not depend on
    the order in which its programs run: run in any order, the programs
    [0 .. grid-1] of either kernel leave the buffer that the launch in
    program-id order leaves. *)
Theorem launch_independent_of_program_order
    (p : kernel_args) (grid : Z) (y : mem) (pids : list Z) :
  valid_args p -> offsets_fit p -> 0 < grid -> 0 < NUM_SMS p ->
  Permutation pids (arange grid) ->
  (exists st,
     launch_plain p grid y = Done st /\
     forall a, c_mem (run_plain p grid pids (init_state p y)) a = c_mem st a) /\
  (exists st st',
     launch_fp8 p grid y = Done st /\
     run_fp8 p pids (init_state p y) = Some st' /\
     forall a, c_mem st' a = c_mem st a).
Proof.
  intros Hv Hof Hgrid HS HP.
  pose proof Hv as (HBM & HBN & _ & _ & HK & Hnn & _).
  pose proof Hof as [Hsf Hlf].
  assert (Hpos : forall pid, In pid pids -> 0 <= pid).
  { intros pid Hin. apply (Permutation_in _ HP) in Hin. apply in_arange in Hin. lia. }
  split.
  - destruct (launch_plain_total p grid y HK) as [st HL].
    exists st. split; [exact HL|]. intros a.
    rewrite (launch_plain_char p grid y st a Hv Hof HL).
    destruct (run_plain_extends p grid (init_state p y) pids HBM HBN Hgrid Hpos
                (init_state p y) (extends_refl _ _ _)) as (l & Hl & Hm & Hwf).
    rewrite Hm. simpl in Hl. subst l.
    rewrite (replay_char p (plain_block p) (plain_entry p)); try assumption; try lia.
    + simpl. rewrite run_plain_visited, (launch_plain_visited p grid y st HL). simpl.
      match goal with
      | |- (if ?c1 then _ else _) = (if ?c2 then _ else _) =>
          assert (Hc : c1 = c2); [|rewrite Hc; reflexivity]
      end.
      apply in_tiles_same_tiles; intros t Hin _.
      * apply (in_flat_map_perm _ pids); assumption.
      * apply (in_flat_map_perm _ (arange grid)); [apply Permutation_sym|]; assumption.
    + apply log_fits; assumption.
    + intros t Ht Hc. apply plain_block_val; assumption.
  - destruct (launch_fp8_total p grid y HS HK) as [st HL].
    destruct (run_fp8_extends p (init_state p y) pids HBM HBN HS
                (init_state p y) (extends_refl _ _ _)) as (st' & HR & He).
    exists st, st'. split; [exact HL|]. split; [exact HR|]. intros a.
    rewrite (launch_fp8_char p grid y st a Hv Hof HL).
    pose proof (launch_fp8_extends p grid y st HBM HBN HL) as He0.
    pose proof (extends_log_wf _ _ _ _ He) as Hwf'.
    pose proof (extends_log_wf _ _ _ _ He0) as Hwf0.
    destruct He as (l & Hl & Hm & Hwf). rewrite Hm. simpl in Hl. subst l.
    rewrite (replay_char p (fp8_block p) (fp8_entry p)); try assumption; try lia;
      [|apply log_fits; assumption|intros t Ht Hc; apply fp8_block_val; assumption].
    simpl.
    match goal with
    | |- (if ?c1 then _ else _) = (if ?c2 then _ else _) =>
        assert (Hc : c1 = c2); [|rewrite Hc; reflexivity]
    end.
    assert (Hcnt : forall t, tile_wf p t ->
              count_occ tile_eq_dec (visited st') t = count_occ tile_eq_dec (visited st) t).
    { intros t Ht.
      pose proof (tile_wf_N_pos p t HBN Ht) as HN.
      rewrite (run_fp8_count p t pids HBM HBN ltac:(lia) HS Ht Hpos _ _ HR).
      rewrite (run_fp8_count p t (arange grid) HBM HBN ltac:(lia) HS Ht
                 ltac:(intros q Hq; apply in_arange in Hq; lia) _ _
                 (launch_fp8_run p grid y st HL)).
      f_equal. apply sum_perm. exact HP. }
    rewrite Forall_forall in Hwf', Hwf0.
    apply in_tiles_same_tiles; intros t Hin _.
    + apply (count_occ_In tile_eq_dec). rewrite <- Hcnt by (apply Hwf'; exact Hin).
      apply (count_occ_In tile_eq_dec). exact Hin.
    + apply (count_occ_In tile_eq_dec). rewrite Hcnt by (apply Hwf0; exact Hin).
      apply (count_occ_In tile_eq_dec). exact Hin.
Qed.

Lemma launch_independent_of_program_order_witness :
  let p := args_1x1 in
  let y : mem := fun _ => -1 in
  (exists st,
     launch_plain p 2 y = Done st /\
     forall a, c_mem (run_plain p 2 [1; 0] (init_state p y)) a = c_mem st a) /\
  (exists st st',
     launch_fp8 p 2 y = Done st /\
     run_fp8 p [1; 0] (init_state p y) = Some st' /\
     forall a, c_mem st' a = c_mem st a).
Proof.
  intros p y.
  apply (launch_independent_of_program_order p 2 y [1; 0]).
  - exact valid_args_1x1.
  - apply fits_int32_offsets; [repeat constructor; discriminate|exact fits_int32_1x1].
  - lia.
  - reflexivity.
  - exact (perm_swap 0 1 []).
Defined.

(** ** Which way a call ends *)









(** ** The test set-up and its reference result *)

Lemma sum_app (l1 l2 : list Z) :
  fold_right Z.add 0 (l1 ++ l2) = fold_right Z.add 0 l1 + fold_right Z.add 0 l2.
Proof. induction l1 as [|a l1 IH]; simpl; lia. Qed.

Lemma sum_balanced (b r : Z) (n : nat) :
  0 <= r ->
  fold_right Z.add 0
    (map (fun i => b + (if i <? r then 1 else 0)) (map Z.of_nat (seq 0 n)))
  = Z.of_nat n * b + Z.min (Z.of_nat n) r.
Proof.
  intros Hr. induction n as [|n IH]; [simpl; lia|].
  rewrite seq_S, !map_app, sum_app, IH, Nat2Z.inj_succ. cbn [map fold_right Nat.add].
  destruct (Z.of_nat n <? r) eqn:E;
    [apply Z.ltb_lt in E|apply Z.ltb_ge in E]; lia.
Qed.

(** X13: the group sizes the test builds for [G > 0] and [M >= 0]: one size per
    group, none negative, any two at most one apart, summing to [M], which
    is what the sum assertion of the entry point asks for. *)
Theorem test_m_sizes_balanced_partition (M G : Z) :
  0 < G -> 0 <= M ->
  exists ms,
    test_m_sizes M G = Some ms /\
    length ms = Z.to_nat G /\
    fold_right Z.add 0 ms = M /\
    Forall (fun m => 0 <= m) ms /\
    (forall a b, In a ms -> In b ms -> a - b <= 1) /\
    (forall i j, (i <= j < length ms)%nat -> nth j ms 0 <= nth i ms 0).
Proof.
  intros HG HM. unfold test_m_sizes.
  replace (G <=? 0) with false by (symmetry; apply Z.leb_gt; exact HG).
  eexists. split; [reflexivity|].
  pose proof (Z.mod_pos_bound M G HG) as Hmod.
  pose proof (Z.div_mod M G ltac:(lia)) as Hdm.
  assert (Hdiv : 0 <= M / G) by (apply Z.div_pos; lia).
  assert (Hin : forall a, In a (map (fun i => M / G + (if i <? M mod G then 1 else 0))
                                    (arange G)) ->
                          a = M / G \/ a = M / G + 1).
  { intros a Ha. apply in_map_iff in Ha. destruct Ha as (i & <- & _).
    destruct (i <? M mod G); lia. }
  split; [|split; [|split; [|split]]].
  - unfold arange. rewrite !length_map, length_seq. reflexivity.
  - unfold arange. rewrite sum_balanced by lia. rewrite Z2Nat.id by lia. nia.
  - apply Forall_forall. intros a Ha. destruct (Hin a Ha); lia.
  - intros a b Ha Hb. destruct (Hin a Ha), (Hin b Hb); lia.
  - intros i j Hij. unfold arange in *. rewrite !length_map, length_seq in Hij.
    set (f := fun i => M / G + (if i <? M mod G then 1 else 0)).
    rewrite map_map.
    change 0 with (0 : Z) at 1.
    rewrite !(nth_indep _ 0 (f (Z.of_nat O))) by (rewrite length_map, length_seq; lia).
    rewrite !(map_nth (fun n => f (Z.of_nat n)) (seq 0 (Z.to_nat G)) O).
    rewrite !seq_nth by lia. simpl. unfold f.
    destruct (Z.of_nat j <? M mod G) eqn:Ej; destruct (Z.of_nat i <? M mod G) eqn:Ei;
      lia.
Qed.

Lemma test_m_sizes_balanced_partition_witness :
  exists ms,
    test_m_sizes 1024 20 = Some ms /\
    length ms = Z.to_nat 20 /\
    fold_right Z.add 0 ms = 1024 /\
    Forall (fun m => 0 <= m) ms /\
    (forall a b, In a ms -> In b ms -> a - b <= 1) /\
    (forall i j, (i <= j < length ms)%nat -> nth j ms 0 <= nth i ms 0).
Proof.
  apply (test_m_sizes_balanced_partition 1024 20); lia.
Defined.

Lemma existsb_snoc {A} (f : A -> bool) (l : list A) (x : A) :
  existsb f (l ++ [x]) = existsb f l || f x.
Proof. rewrite existsb_app. simpl. rewrite orb_false_r. reflexivity. Qed.

(** After the first [n] rounds of the loop [m_start] is the first row of
    group [n], and the tensor holds the product in the blocks of the groups
    before [n] and zero elsewhere. *)
Lemma reference_loop (x w : mem) (ms : list Z) (N K W : Z) (n : nat) :
  let s := fold_left (reference_group x w ms N K W) (seq 0 n) (0, fun _ => 0) in
  fst s = group_offset ms n /\
  forall a, snd s a = if existsb (in_block ms N W a) (seq 0 n)
                      then dot_row x w K (a / W) (a mod W) else 0.
Proof.
  induction n as [|n IH].
  - simpl. split; reflexivity.
  - rewrite seq_S, fold_left_app. cbn [fold_left Nat.add].
    destruct (fold_left (reference_group x w ms N K W) (seq 0 n) (0, fun _ => 0))
      as [m_start ref].
    cbn [fst snd] in IH. destruct IH as [Hm Hr]. unfold reference_group. split.
    + cbn [fst]. rewrite group_offset_S, Hm. reflexivity.
    + intros a. cbn [snd]. rewrite existsb_snoc. unfold in_block at 2.
      destruct (nth n ms 0 >? 0); cbn [andb].
      * rewrite Hm.
        destruct ((group_offset ms n <=? a / W)
                  && (a / W <? group_offset ms n + nth n ms 0)
                  && (Z.of_nat n * N <=? a mod W) && (a mod W <? (Z.of_nat n + 1) * N)).
        -- rewrite orb_true_r. reflexivity.
        -- rewrite orb_false_r. apply Hr.
      * rewrite orb_false_r. apply Hr.
Qed.

Lemma group_of_spec (ms : list Z) (r : Z) :
  Forall (fun m => 0 <= m) ms -> 0 <= r < fold_right Z.add 0 ms ->
  (group_of ms r < length ms)%nat /\
  group_offset ms (group_of ms r) <= r
    < group_offset ms (group_of ms r) + nth (group_of ms r) ms 0.
Proof.
  intros H. revert r. induction H as [|m ms Hm Hms IH]; intros r Hr; simpl in *; [lia|].
  destruct (r <? m) eqn:E; [apply Z.ltb_lt in E|apply Z.ltb_ge in E].
  - unfold group_offset. simpl. lia.
  - destruct (IH (r - m) ltac:(lia)) as [Hl Hb].
    unfold group_offset in *. simpl. lia.
Qed.

Lemma block_column (N c g : Z) :
  0 < N -> (g * N <= c < (g + 1) * N <-> c / N = g).
Proof.
  intros HN. pose proof (Z.div_mod c N ltac:(lia)). pose proof (Z.mod_pos_bound c N HN).
  split; intros; nia.
Qed.

(** Entry [(r, c)] of the reference result: the product of row [r] of [x]
    and row [c] of [w] when column [c] lies in the block of the group of
    row [r], zero otherwise. *)
Lemma reference_result_entry (x w : mem) (ms : list Z) (N K r c : Z) :
  Forall (fun m => 0 <= m) ms -> 0 < N ->
  0 <= r < fold_right Z.add 0 ms -> 0 <= c < Z.of_nat (length ms) * N ->
  reference_result x w ms (length ms) N K (r * (Z.of_nat (length ms) * N) + c)
  = if c / N =? Z.of_nat (group_of ms r) then dot_row x w K r c else 0.
Proof.
  intros Hnn HN Hr Hc. unfold reference_result.
  destruct (reference_loop x w ms N K (Z.of_nat (length ms) * N) (length ms)) as [_ Hv].
  rewrite Hv. clear Hv.
  destruct (row_col_of_offset _ r c Hc) as [Hrow Hcol].
  destruct (group_of_spec ms r Hnn Hr) as [Hg Hb].
  destruct (existsb _ (seq 0 (length ms))) eqn:E.
  - apply existsb_exists in E. destruct E as (g & Hin & Hblk).
    unfold in_block in Hblk. rewrite Hrow, Hcol in Hblk.
    repeat (apply andb_true_iff in Hblk; destruct Hblk as [Hblk ?]).
    assert (g = group_of ms r) by (apply (group_unique ms _ _ r Hnn); lia).
    subst g. rewrite Hrow, Hcol.
    replace (c / N =? Z.of_nat (group_of ms r)) with true; [reflexivity|].
    symmetry. apply Z.eqb_eq. apply block_column; lia.
  - destruct (c / N =? Z.of_nat (group_of ms r)) eqn:E2; [exfalso|reflexivity].
    apply Z.eqb_eq in E2. apply (block_column N c _ HN) in E2.
    assert (existsb (in_block ms N (Z.of_nat (length ms) * N)
                       (r * (Z.of_nat (length ms) * N) + c)) (seq 0 (length ms)) = true);
      [|congruence].
    apply existsb_exists. exists (group_of ms r). split; [apply in_seq; lia|].
    unfold in_block. rewrite Hrow, Hcol.
    repeat (apply andb_true_iff; split); lia.
Qed.

(** X14: the reference result of the test is block diagonal: in the column block
    of the group of row [r] it holds the product of row [r] of [x] with
    that group's weight rows, everywhere else it is zero. *)
Theorem reference_result_is_block_diagonal (x w : mem) (ms : list Z) (N K r c : Z) :
  Forall (fun m => 0 <= m) ms -> 0 < N ->
  0 <= r < fold_right Z.add 0 ms -> 0 <= c < Z.of_nat (length ms) * N ->
  reference_result x w ms (length ms) N K (r * (Z.of_nat (length ms) * N) + c)
  = if c / N =? Z.of_nat (group_of ms r)
    then grouped_entry x w ms N K r (c mod N)
    else 0.
Proof.
  intros Hnn HN Hr Hc. rewrite reference_result_entry by assumption.
  destruct (c / N =? Z.of_nat (group_of ms r)) eqn:E; [|reflexivity].
  apply Z.eqb_eq in E. unfold grouped_entry. f_equal.
  pose proof (Z.div_mod c N ltac:(lia)). lia.
Qed.

Lemma reference_result_is_block_diagonal_witness :
  reference_result (data x_2x32) (data w_2x32) [1; 1] (length [1; 1]) 1 32
    (1 * (Z.of_nat (length [1; 1]) * 1) + 1)
  = if 1 / 1 =? Z.of_nat (group_of [1; 1] 1)
    then grouped_entry (data x_2x32) (data w_2x32) [1; 1] 1 32 1 (1 mod 1)
    else 0.
Proof.
  apply (reference_result_is_block_diagonal (data x_2x32) (data w_2x32) [1; 1] 1 32 1 1).
  - repeat constructor; discriminate.
  - lia.
  - simpl. lia.
  - simpl. lia.
Defined.

(** X15: the plain entry point against the test's reference, on outputs of
    at most [2^31] elements: for weights of [G * N] rows, the reference
    result is the returned tensor restricted to the diagonal blocks; outside
    the block of the row's own group the reference is zero whatever the
    entry point stored there. *)
Theorem reference_is_output_on_diagonal_blocks
    (dev : device) (x w : tensor) (ms : sizes_tensor) (N : Z) :
  valid_call dev x w ms -> no_fault dev ->
  shape0 x * shape0 w <= 2147483648 ->
  0 < N -> shape0 w = Z.of_nat (length (sizes ms)) * N ->
  exists y,
    fst (group_gemm_forward dev x w ms) = Return y /\
    forall r c, 0 <= r < shape0 x -> 0 <= c < shape0 w ->
      reference_result (data x) (data w) (sizes ms) (length (sizes ms)) N (shape1 x)
        (r * shape0 w + c)
      = if c / N =? Z.of_nat (group_of (sizes ms) r)
        then data y (r * shape0 w + c)
        else 0.
Proof.
  intros Hv Hf Hsz HN Hw. unfold group_gemm_forward.
  rewrite (grouped_gemm_plain_unfold dev x w ms Hv Hf). cbn [fst].
  pose proof (host_args_valid dev x w ms (fun _ => 0) (fun _ => 0) true true Hv) as Hva.
  pose proof (host_args_fit dev x w ms (fun _ => 0) (fun _ => 0) Hv Hsz) as Hfa.
  destruct Hv as (_ & _ & _ & _ & _ & Hsum & Hnn & _ & _ & Hsm).
  destruct (launch_plain_correct _ (Z.min (multi_processor_count dev) 4)
              (empty_contents dev) Hva Hfa ltac:(lia)) as (st & HL & Hval).
  unfold after_launch. rewrite HL.
  eexists. split; [reflexivity|]. cbn [data].
  intros r c Hr Hc.
  pose proof (Hval r c ltac:(simpl; lia) ltac:(simpl; lia)) as Hy. simpl in Hy.
  rewrite Hy, Hw. apply reference_result_entry; try assumption; lia.
Qed.

Lemma reference_is_output_on_diagonal_blocks_witness :
  exists y,
    fst (group_gemm_forward dev132 x_2x32 w_2x32 sizes_1_1) = Return y /\
    forall r c, 0 <= r < shape0 x_2x32 -> 0 <= c < shape0 w_2x32 ->
      reference_result (data x_2x32) (data w_2x32) (sizes sizes_1_1)
        (length (sizes sizes_1_1)) 1 (shape1 x_2x32) (r * shape0 w_2x32 + c)
      = if c / 1 =? Z.of_nat (group_of (sizes sizes_1_1) r)
        then data y (r * shape0 w_2x32 + c)
        else 0.
Proof.
  apply (reference_is_output_on_diagonal_blocks dev132 x_2x32 w_2x32 sizes_1_1 1).
  - exact valid_call_2x32.
  - exact no_fault_dev132.
  - simpl. lia.
  - lia.
  - reflexivity.
Defined.
